(** * The bulk migrator of [core/jobs/job-migration/main.go]

    A shallow embedding of the migrator: the pure helpers ([isIgnoredTable],
    [getPostgresType], the cell coercion of [migrateTable], the constraint
    names), and the copy itself ([migrateTable], [worker],
    [applyForeignKeys], [processDatabase], [main]) as functions on the
    target database and the log.

    Conventions.
    - Go strings are byte sequences: they are embedded as [string] (a
      sequence of [ascii], one per byte), [len] is [String.length], and a
      slice [s[:n]] is [String.substring 0 n].  A [[]byte] is a [list byte].
      [ToUpper], [ToLower] and [TrimSpace] are embedded on ASCII strings
      (every byte below 0x80); on other strings Go maps and trims runes,
      which the embedding does not.
    - The source engine is a value: what each query answers, per attempt;
      it answers the same whenever it is asked.
    - The target engine is a state (namespaces and tables) and a record of
      decisions ([Engine]): whether it accepts a statement is left open, and
      may depend on the statement and on the tables that the statement
      names.  After a failed statement a transaction rejects what follows
      and its commit rolls back.  [pg.Begin], [tx.Prepare] and the commit of
      a transaction without a failed statement are taken to succeed.
    - The migrator is embedded twice.  First with one worker that takes the
      tables one after the other, in queue order, on an engine that accepts
      every [DROP TABLE]: [migrateTable], [worker], [processDatabase],
      [main].  Then, in the module [General], with [MaxWorkers] workers
      whose copies advance statement by statement in any order, on an
      engine that may reject a [DROP TABLE] as well.  Sleeping, connection
      pools and session tuning have no effect on the state and are not
      modelled. *)

From Stdlib Require Import ZArith.
From Stdlib Require Import Strings.Ascii Strings.Byte.
From Stdlib Require Strings.String.
From stdpp Require Import base decidable option list strings gmap fin_maps pretty.

Local Open Scope Z_scope.

(** ** The parts of Go's [strings] package that the migrator calls *)

Module strings.

(** Case mapping, byte by byte: a byte in [a-z] (resp. [A-Z]) is mapped,
    every other byte is kept.  This is Go's [ToUpper] (resp. [ToLower]) on a
    string whose bytes are all below 0x80.  On a string with a byte from
    0x80 on, Go decodes runes and maps them by the Unicode tables (so that
    U+0131 becomes I, U+017F becomes S and U+0130 becomes i), which the
    functions below do not: they are the code on ASCII names only. *)
Definition upper_byte (c : ascii) : ascii :=
  let n := nat_of_ascii c in
  if ((97 <=? n) && (n <=? 122))%nat then ascii_of_nat (n - 32) else c.

Definition lower_byte (c : ascii) : ascii :=
  let n := nat_of_ascii c in
  if ((65 <=? n) && (n <=? 90))%nat then ascii_of_nat (n + 32) else c.

Fixpoint map_bytes (f : ascii → ascii) (s : string) : string :=
  match s with
  | EmptyString => EmptyString
  | String c r => String (f c) (map_bytes f r)
  end.

Definition ToUpper (s : string) : string := map_bytes upper_byte s.
Definition ToLower (s : string) : string := map_bytes lower_byte s.

(** [HasPrefix(s, prefix)]: [len(s) >= len(prefix) && s[:len(prefix)] == prefix]. *)
Definition HasPrefix (s prefix : string) : bool :=
  (String.length prefix <=? String.length s)%nat
  && String.eqb (String.substring 0 (String.length prefix) s) prefix.

(** [HasSuffix(s, suffix)]:
    [len(s) >= len(suffix) && s[len(s)-len(suffix):] == suffix]. *)
Definition HasSuffix (s suffix : string) : bool :=
  (String.length suffix <=? String.length s)%nat
  && String.eqb
       (String.substring (String.length s - String.length suffix)
          (String.length suffix) s)
       suffix.

(** [Contains(s, substr)]: [Index(s, substr) >= 0], a left-to-right search. *)
Fixpoint Contains (s substr : string) : bool :=
  HasPrefix s substr
  || match s with
     | EmptyString => false
     | String _ r => Contains r substr
     end.

(** [ReplaceAll(s, old, new)] for a non-empty [old] (the migrator only
    passes the one-byte strings NUL and double quote): the non-overlapping
    occurrences of [old], found from the left, are replaced by [new].
    [skip] counts the bytes of a match that are still to be dropped. *)
Fixpoint replace_go (old new : string) (skip : nat) (s : string) : string :=
  match s with
  | EmptyString => EmptyString
  | String c r =>
      match skip with
      | S k => replace_go old new k r
      | O =>
          if HasPrefix s old
          then new +:+ replace_go old new (String.length old - 1) r
          else String c (replace_go old new 0 r)
      end
  end.

Definition ReplaceAll (s old new : string) : string := replace_go old new 0 s.

(** [TrimSpace]: leading and trailing white space removed.  The white
    space of Go's [unicode.IsSpace] below 0x80 is TAB, LF, VT, FF, CR and
    SPACE; Go also trims the white space from 0x80 on (U+0085, U+00A0,
    U+2003, U+3000, ...), which [isSpace] does not know: the function below
    is the code on ASCII strings only. *)
Definition isSpace (c : ascii) : bool :=
  let n := nat_of_ascii c in
  ((9 <=? n) && (n <=? 13) || (n =? 32))%nat.

Fixpoint trimLeft (s : string) : string :=
  match s with
  | EmptyString => EmptyString
  | String c r => if isSpace c then trimLeft r else s
  end.

Fixpoint trimRight (s : string) : string :=
  match s with
  | EmptyString => EmptyString
  | String c r =>
      match trimRight r with
      | EmptyString => if isSpace c then EmptyString else String c EmptyString
      | r' => String c r'
      end
  end.

Definition TrimSpace (s : string) : string := trimRight (trimLeft s).

(** [Join(elems, sep)]. *)
Fixpoint Join (elems : list string) (sep : string) : string :=
  match elems with
  | [] => EmptyString
  | [e] => e
  | e :: rest => e +:+ sep +:+ Join rest sep
  end.

End strings.

(** ** Configuration constants *)

Definition MaxWorkers : Z := 30.
Definition BatchSize : Z := 25000.
Definition MaxRetries : Z := 10.

Definition SourceDBs : list string :=
  ["vin"; "exportacion"; "exportasis"; "siscon"; "BD_FACTURA"; "declaracion"].

(** ** Table ignore policy *)

(** The literal [map[string]bool] of [isIgnoredTable]. *)
Definition ignoredList : gmap string bool :=
  <["change_tables" := true]> (<["ddl_history" := true]>
  (<["lsn_time_mapping" := true]> (<["captured_columns" := true]>
  (<["index_columns" := true]> (<["comandos" := true]> ∅))))).

(** Indexing a Go map at a missing key gives the zero value, [false]. *)
Definition map_index (m : gmap string bool) (k : string) : bool :=
  default false (m !! k).

Definition isIgnoredTable (tableName : string) : bool :=
  let t := strings.ToLower tableName in
  if String.eqb t "dtproperties" || String.eqb t "sysdiagrams"
     || String.eqb t "systranschemas" then true
  else if strings.HasSuffix t "_ct" || strings.Contains t "_ct_" then true
  else map_index ignoredList t.

(** The table-listing loop of [processDatabase]: every catalog name is
    trimmed, and kept unless the policy ignores it. *)
Fixpoint listTables (catalog : list string) : list string :=
  match catalog with
  | [] => []
  | t0 :: rest =>
      let t := strings.TrimSpace t0 in
      if negb (isIgnoredTable t) then t :: listTables rest else listTables rest
  end.

(** ** Type mapper *)

(** [fmt.Sprintf] with the verb [%d] on an [int64]. *)
Definition fmt_d (n : Z) : string := pretty n.

(** A [case] of a Go [switch] with several values. *)
Definition case_of (t : string) (values : list string) : bool :=
  existsb (String.eqb t) values.

Definition getPostgresType (mssqlType : string) (precision scale : Z) : string :=
  let t := strings.ToUpper mssqlType in
  if case_of t ["TINYINT"; "SMALLINT"] then "SMALLINT"
  else if case_of t ["INT"; "INTEGER"] then "INTEGER"
  else if case_of t ["BIGINT"] then "BIGINT"
  else if case_of t ["BIT"] then "BOOLEAN"
  else if case_of t ["REAL"] then "REAL"
  else if case_of t ["FLOAT"] then "DOUBLE PRECISION"
  else if case_of t ["DECIMAL"; "NUMERIC"; "MONEY"; "SMALLMONEY"] then
    if precision >? 0
    then "NUMERIC(" +:+ fmt_d precision +:+ ", " +:+ fmt_d scale +:+ ")"
    else "NUMERIC"
  else if case_of t ["DATE"] then "DATE"
  else if case_of t ["DATETIME"; "DATETIME2"; "SMALLDATETIME"] then "TIMESTAMP"
  else if case_of t ["TIME"] then "TIME"
  else if case_of t ["CHAR"; "NCHAR"; "VARCHAR"; "NVARCHAR"; "TEXT"; "NTEXT"; "SYSNAME"]
  then "TEXT"
  else if case_of t ["BINARY"; "VARBINARY"; "IMAGE"; "TIMESTAMP_SQL"] then "BYTEA"
  else if case_of t ["UNIQUEIDENTIFIER"] then "UUID"
  else "TEXT".

(** ** Value coercer *)

(** The shapes a driver hands to [rows.Scan] for an [interface{}] cell. *)
Inductive Value :=
| VNil
| VBytes (t : list byte)
| VString (s : string)
| VBool (b : bool)
| VInt64 (n : Z)
| VFloat64 (bits : Z)
| VTime (nanos : Z).

(** What the code reads of a [*sql.ColumnType]. *)
Record ColumnType := mkColumnType {
  DatabaseTypeName : string;
  DecimalSize : Z * Z
}.

(** The one-byte strings NUL and double quote. *)
Definition NUL : string := String "000"%char EmptyString.
Definition QUOTE : string := String "034"%char EmptyString.

(** [fmt.Sprintf] with the verb [%x] on a byte slice: two lowercase
    hexadecimal digits per byte. *)
Definition hexdigit (n : N) : ascii :=
  default "0"%char (String.get (N.to_nat n) "0123456789abcdef").

Definition fmt_x_byte (b : byte) : string :=
  let n := Byte.to_N b in
  String (hexdigit (n / 16)) (String (hexdigit (n mod 16)) EmptyString).

Fixpoint fmt_x (t : list byte) : string :=
  match t with
  | [] => EmptyString
  | b :: r => fmt_x_byte b +:+ fmt_x r
  end.

(** The slice [t[lo:hi]]. *)
Definition slice (t : list byte) (lo hi : nat) : list byte :=
  take (hi - lo) (drop lo t).

(** [string(t)]: the bytes of the slice as a string. *)
Definition string_of_bytes (t : list byte) : string :=
  String.string_of_list_byte t.

(** The body of the [else] branch of the per-cell loop in [migrateTable]:
    [typeName] is the uppercased driver type name of the column (or the
    empty string), [v] the scanned value ([nil] stays [nil]).  [t[0]] is
    read only when [len(t) > 0]. *)
Definition coerce (typeName : string) (v : Value) : Value :=
  match v with
  | VNil => VNil
  | VBytes t =>
      if String.eqb typeName "BIT" || String.eqb typeName "BOOLEAN" then
        if (0 <? length t)%nat && Byte.eqb (nth 0 t x00) x01
        then VBool true else VBool false
      else if String.eqb typeName "UNIQUEIDENTIFIER" then
        if (length t =? 16)%nat then
          VString (fmt_x (slice t 0 4) +:+ "-" +:+ fmt_x (slice t 4 6) +:+ "-"
                   +:+ fmt_x (slice t 6 8) +:+ "-" +:+ fmt_x (slice t 8 10)
                   +:+ "-" +:+ fmt_x (drop 10 t))
        else VNil
      else if strings.Contains typeName "BINARY" || strings.Contains typeName "IMAGE"
      then VBytes t
      else VString (strings.ReplaceAll (string_of_bytes t) NUL "")
  | VString t => VString (strings.ReplaceAll t NUL "")
  | VBool t => VBool t
  | _ => v
  end.

(** [typeName] for column [i]: empty when the driver reported fewer column
    types than columns. *)
Definition typeNameAt (colTypes : list ColumnType) (i : nat) : string :=
  match colTypes !! i with
  | Some ct => strings.ToUpper (DatabaseTypeName ct)
  | None => EmptyString
  end.

(** [finalVals] of one scanned row. *)
Definition coerceRow (colTypes : list ColumnType) (values : list Value) : list Value :=
  imap (λ i v, coerce (typeNameAt colTypes i) v) values.

(** ** Constraint names *)

(** [if len(name) > 63 { name = name[:63] }]. *)
Definition truncate63 (name : string) : string :=
  if (63 <? String.length name)%nat then String.substring 0 63 name else name.

Definition pkName (schema table : string) : string :=
  truncate63 ("pk_" +:+ schema +:+ "_" +:+ table).

Definition pgFkName (tableName col refTable : string) : string :=
  truncate63 ("fk_" +:+ tableName +:+ "_" +:+ col +:+ "_" +:+ refTable).

(** ** SQL statements

    A statement is kept as its format and arguments; [render] is the text
    that the [fmt.Sprintf] calls of the source build. *)
Inductive Stmt :=
| SetSynchronousCommitOff
| CreateSchema (ns : string)
| DropTable (ns tbl : string)
| CreateTable (ns tbl : string) (cols : list (string * string))
| InsertInto (ns tbl : string) (arity : nat)
| AddPrimaryKey (ns tbl name : string) (cols : list string)
| AddForeignKey (ns tbl name col refns reftbl refcol : string).

Definition quoted (s : string) : string := QUOTE +:+ s +:+ QUOTE.

Definition qualified (ns tbl : string) : string := quoted ns +:+ "." +:+ quoted tbl.

(** The column loop of [createSQL]: a comma after every column but the
    last ([i < len(cols)-1]). *)
Fixpoint createColumns (cols : list (string * string)) : string :=
  match cols with
  | [] => EmptyString
  | (safeCol, pgType) :: rest =>
      quoted safeCol +:+ " " +:+ pgType
      +:+ (if (0 <? length rest)%nat then ", " else EmptyString)
      +:+ createColumns rest
  end.

Definition render (q : Stmt) : string :=
  match q with
  | SetSynchronousCommitOff => "SET synchronous_commit TO OFF"
  | CreateSchema ns => "CREATE SCHEMA IF NOT EXISTS " +:+ quoted ns
  | DropTable ns tbl => "DROP TABLE IF EXISTS " +:+ qualified ns tbl +:+ " CASCADE"
  | CreateTable ns tbl cols =>
      "CREATE TABLE " +:+ qualified ns tbl +:+ " (" +:+ createColumns cols +:+ ")"
  | InsertInto ns tbl arity =>
      "INSERT INTO " +:+ qualified ns tbl +:+ " VALUES ("
      +:+ strings.Join (map (λ i, "$" +:+ fmt_d (Z.of_nat i + 1)) (seq 0 arity)) ","
      +:+ ")"
  | AddPrimaryKey ns tbl name cols =>
      "ALTER TABLE " +:+ qualified ns tbl +:+ " ADD CONSTRAINT " +:+ quoted name
      +:+ " PRIMARY KEY (" +:+ quoted (strings.Join cols (QUOTE +:+ ", " +:+ QUOTE))
      +:+ ")"
  | AddForeignKey ns tbl name col refns reftbl refcol =>
      "ALTER TABLE " +:+ qualified ns tbl +:+ " ADD CONSTRAINT " +:+ quoted name
      +:+ " FOREIGN KEY (" +:+ quoted col +:+ ") REFERENCES "
      +:+ qualified refns reftbl +:+ " (" +:+ quoted refcol +:+ ")"
  end.

(** The foreign keys collected per table: the constraint name and the
    statement that installs it. *)
Record ForeignKeySQL := mkForeignKeySQL {
  ConstraintName : string;
  SQL : Stmt
}.

(** ** Results of fallible calls *)

Inductive result (A : Type) :=
| Ok (a : A)
| Err (msg : string).
Arguments Ok {A} a.
Arguments Err {A} msg.

(** ** The source engine, as the migrator reads it *)

(** An open [*sql.Rows]: the column names, the column types, and for every
    [rows.Next()] that returns true the values that [rows.Scan] stores, or
    [None] when the scan fails.  The code never reads [rows.Err()]: a
    stream that breaks ends the loop like the end of the table.  So
    [Scans] has the rows that the cursor delivers, which are at most the
    rows of the table. *)
Record Cursor := mkCursor {
  Columns : list string;
  ColumnTypes : list ColumnType;
  Scans : list (option (list Value))
}.

(** What the three queries keyed by a table name answer: [SELECT *] (by
    attempt number), the primary-key columns, and the foreign-key rows
    [(constraint, column, referenced table, referenced column)], each with
    the outcome of its scan. *)
Record SourceTable := mkSourceTable {
  Query : Z → result Cursor;
  primaryKeyRows : result (list string);
  foreignKeyRows : result (list (option (string * string * string * string)))
}.

Record SourceDB := mkSourceDB {
  OpenErr : option string;
  TableNames : result (list string);
  TableOf : string → SourceTable
}.

(** ** The target engine

    The state the statements act on: the namespaces, and per qualified name
    a table with its column definitions, rows, primary key and foreign keys. *)
Record FK := mkFK {
  fk_name : string;
  fk_col : string;
  fk_ref : string * string;
  fk_refcol : string
}.

Record Body := mkBody {
  b_cols : list (string * string);
  b_rows : list (list Value);
  b_pk : option (string * list string)
}.

Record Table := mkTable {
  body : Body;
  fks : list FK
}.

Record PG := mkPG {
  schemas : gset string;
  tables : gmap (string * string) Table
}.

(** What the engine decides for itself.  Each field answers [None] when the
    statement is accepted and [Some msg] when it is rejected; a decision may
    depend on the statement and on the tables the statement names, nothing
    else. *)
Record Engine := mkEngine {
  set_err : option string;
  schema_err : string → option string;
  create_err : string → string → list (string * string) → option string;
  row_err : string → string → list (string * string) → list Value → option string;
  pk_err : string → string → Table → string → list string → option string;
  fk_err : string → string → Table → FK → option Body → option string
}.

(** A transaction: the rows inserted and not yet committed, and whether a
    statement failed in it.  After a failure the engine rejects the rest of
    the transaction and its commit rolls back. *)
Record Tx := mkTx {
  pending : list (list Value);
  failed : bool
}.

Definition tx_begin : Tx := mkTx [] false.

(** The process's view of the world: the target and the log written so far. *)
Record World := mkWorld {
  target : PG;
  logs : list string
}.

Definition logPrint (line : string) (w : World) : World :=
  mkWorld (target w) (logs w ++ [line]).

Definition on_target (f : PG → PG) (w : World) : World :=
  mkWorld (f (target w)) (logs w).

Definition strip_refs (k : string * string) (t : Table) : Table :=
  mkTable (body t) (filter (λ f, fk_ref f ≠ k) (fks t)).

Section Migrator.

Variable E : Engine.

(** [DROP TABLE IF EXISTS ... CASCADE]: the table goes, and with it every
    foreign key of another table that references it. *)
Definition drop_cascade (k : string * string) (pg : PG) : PG :=
  mkPG (schemas pg) (strip_refs k <$> delete k (tables pg)).

(** [pg.Exec] of a statement: the new state and the error, if any.  This
    engine accepts every [DROP TABLE IF EXISTS]; [General.exec] is the
    engine that may reject it. *)
Definition exec (q : Stmt) (pg : PG) : PG * option string :=
  match q with
  | SetSynchronousCommitOff => (pg, set_err E)
  | CreateSchema ns =>
      match schema_err E ns with
      | None => (mkPG ({[ns]} ∪ schemas pg) (tables pg), None)
      | Some e => (pg, Some e)
      end
  | DropTable ns tbl => (drop_cascade (ns, tbl) pg, None)
  | CreateTable ns tbl cols =>
      if bool_decide (ns ∈ schemas pg) then
        match tables pg !! (ns, tbl) with
        | Some _ => (pg, Some "relation already exists")
        | None =>
            match create_err E ns tbl cols with
            | None =>
                (mkPG (schemas pg)
                   (<[(ns, tbl) := mkTable (mkBody cols [] None) []]> (tables pg)),
                 None)
            | Some e => (pg, Some e)
            end
        end
      else (pg, Some "schema does not exist")
  | InsertInto _ _ _ => (pg, Some "there is no parameter $1")
  | AddPrimaryKey ns tbl name cols =>
      match tables pg !! (ns, tbl) with
      | None => (pg, Some "relation does not exist")
      | Some t =>
          match b_pk (body t) with
          | Some _ => (pg, Some "multiple primary keys are not allowed")
          | None =>
              match pk_err E ns tbl t name cols with
              | None =>
                  (mkPG (schemas pg)
                     (<[(ns, tbl) :=
                          mkTable (mkBody (b_cols (body t)) (b_rows (body t))
                                     (Some (name, cols))) (fks t)]> (tables pg)),
                   None)
              | Some e => (pg, Some e)
              end
          end
      end
  | AddForeignKey ns tbl name col refns reftbl refcol =>
      match tables pg !! (ns, tbl) with
      | None => (pg, Some "relation does not exist")
      | Some t =>
          let fk := mkFK name col (refns, reftbl) refcol in
          match fk_err E ns tbl t fk (body <$> tables pg !! (refns, reftbl)) with
          | None =>
              (mkPG (schemas pg)
                 (<[(ns, tbl) := mkTable (body t) (fks t ++ [fk])]> (tables pg)),
               None)
          | Some e => (pg, Some e)
          end
      end
  end.

(** [stmt.Exec(finalVals...)] of the prepared insert inside [tx]. *)
Definition stmt_exec (ns tbl : string) (finalVals : list Value) (tx : Tx) (pg : PG)
  : Tx * option string :=
  if failed tx then (tx, Some "current transaction is aborted")
  else
    match tables pg !! (ns, tbl) with
    | None => (mkTx (pending tx) true, Some "relation does not exist")
    | Some t =>
        match row_err E ns tbl (b_cols (body t)) finalVals with
        | None => (mkTx (pending tx ++ [finalVals]) false, None)
        | Some e => (mkTx (pending tx) true, Some e)
        end
    end.

Definition append_rows (rows : list (list Value)) (t : Table) : Table :=
  mkTable (mkBody (b_cols (body t)) (b_rows (body t) ++ rows) (b_pk (body t))) (fks t).

(** [tx.Commit()]: after a failed statement nothing is stored; otherwise
    the rows are stored (the commit itself is taken to succeed; the code
    discards its error). *)
Definition tx_commit (ns tbl : string) (tx : Tx) (pg : PG) : PG :=
  if failed tx then pg
  else mkPG (schemas pg) (alter (append_rows (pending tx)) (ns, tbl) (tables pg)).

End Migrator.

(** ** The migrator *)

Definition getPrimaryKeyColumns (db : SourceDB) (tableName : string) : list string :=
  match primaryKeyRows (TableOf db tableName) with
  | Err _ => []
  | Ok rows => rows
  end.

(** The row loop of [getForeignKeys]: a row whose scan fails is skipped. *)
Fixpoint foreignKeyLoop (schema tableName : string)
    (rows : list (option (string * string * string * string))) : list ForeignKeySQL :=
  match rows with
  | [] => []
  | None :: rest => foreignKeyLoop schema tableName rest
  | Some (_, col, refTable, refCol) :: rest =>
      let name := pgFkName tableName col refTable in
      let sql := AddForeignKey schema tableName name col schema refTable refCol in
      mkForeignKeySQL name sql :: foreignKeyLoop schema tableName rest
  end.

Definition getForeignKeys (db : SourceDB) (schema tableName : string) : list ForeignKeySQL :=
  match foreignKeyRows (TableOf db tableName) with
  | Err _ => []
  | Ok rows => foreignKeyLoop schema tableName rows
  end.

(** The retry loop that opens the source cursor: the first attempt that
    succeeds wins, otherwise the last error stays.  (The sleep between
    attempts is not modelled.) *)
Fixpoint queryWithRetry (query : Z → result Cursor) (attempts : list Z)
    (last : result Cursor) : result Cursor :=
  match attempts with
  | [] => last
  | attempt :: rest =>
      match query attempt with
      | Ok rows => Ok rows
      | Err e => queryWithRetry query rest (Err e)
      end
  end.

(** The column definitions of [createSQL]: the sanitized name and the
    target type, [TEXT] when the driver gave no type for the position. *)
Definition columnDefs (cols : list string) (colTypes : list ColumnType)
  : list (string * string) :=
  imap (λ i c,
          let pgType :=
            match colTypes !! i with
            | Some ct =>
                getPostgresType (DatabaseTypeName ct) (DecimalSize ct).1 (DecimalSize ct).2
            | None => "TEXT"
            end in
          (strings.TrimSpace (strings.ReplaceAll c QUOTE ""), pgType)) cols.

Section Run.

Variable E : Engine.

(** [pg.Begin()] followed by [tx.Exec("SET synchronous_commit TO OFF")],
    when the engine accepts the SET.  When it rejects the SET, the
    transaction is aborted, [tx.Prepare] fails, its error is dropped and
    [stmt] is nil: the code then panics in [stmt.Exec] (or in the deferred
    [stmt.Close]) and does not return.  The failed transaction below stands
    for that case, in which the embedding has a state and the code has
    none; what is proved of a copy that completes assumes
    [set_err E = None]. *)
Definition begin_tx : Tx :=
  match set_err E with
  | None => mkTx [] false
  | Some _ => mkTx [] true
  end.

(** The [for rows.Next()] loop of [migrateTable] and the commit after it.
    A failed scan skips the row; the result of [stmt.Exec] is dropped;
    every [BatchSize] rows the transaction is committed and a new one
    begun. *)
Fixpoint copyRows (schema table : string) (colTypes : list ColumnType)
    (scans : list (option (list Value))) (tx : Tx) (count : Z) (pg : PG) : Z * PG :=
  match scans with
  | [] => (count, tx_commit schema table tx pg)
  | None :: rest => copyRows schema table colTypes rest tx count pg
  | Some values :: rest =>
      let finalVals := coerceRow colTypes values in
      let tx := (stmt_exec E schema table finalVals tx pg).1 in
      let count := count + 1 in
      if Z.rem count BatchSize =? 0
      then copyRows schema table colTypes rest begin_tx count
             (tx_commit schema table tx pg)
      else copyRows schema table colTypes rest tx count pg
  end.

Definition migrateTable (schema table : string) (ms : SourceDB) (w : World)
  : list ForeignKeySQL * World :=
  match queryWithRetry (Query (TableOf ms table)) (seqZ 1 MaxRetries) (Err "") with
  | Err e =>
      ([], logPrint ("[ERROR] [FINAL] " +:+ table +:+ ": No se pudo leer origen: " +:+ e) w)
  | Ok rows =>
      let cols := Columns rows in
      let colTypes := ColumnTypes rows in
      let w := on_target (λ pg, (exec E (DropTable schema table) pg).1) w in
      let createSQL := CreateTable schema table (columnDefs cols colTypes) in
      match exec E createSQL (target w) with
      | (_, Some e) =>
          ([], logPrint ("[ERROR] " +:+ table +:+ ": Fallo create table: " +:+ e) w)
      | (pg, None) =>
          let '(count, pg) := copyRows schema table colTypes (Scans rows) begin_tx 0 pg in
          let pkCols := getPrimaryKeyColumns ms table in
          let pg :=
            if (0 <? length pkCols)%nat
            then (exec E (AddPrimaryKey schema table (pkName schema table) pkCols) pg).1
            else pg in
          let w := mkWorld pg (logs w) in
          let w :=
            if 0 <? count
            then logPrint ("[OK] " +:+ table +:+ ": " +:+ fmt_d count +:+ " filas") w
            else w in
          (getForeignKeys ms schema table, w)
      end
  end.

(** One worker that takes the whole queue, one table after the other:
    each non-empty list of foreign keys goes to the collector channel.
    (The pool of [MaxWorkers] workers is [General.pool_step].) *)
Fixpoint worker (schema : string) (ms : SourceDB) (jobs : list string)
    (fkChan : list (list ForeignKeySQL)) (w : World)
  : list (list ForeignKeySQL) * World :=
  match jobs with
  | [] => (fkChan, w)
  | table :: rest =>
      let '(fks, w) := migrateTable schema table ms w in
      let fkChan := if (0 <? length fks)%nat then fkChan ++ [fks] else fkChan in
      worker schema ms rest fkChan w
  end.

Definition applyForeignKeys (fkChan : list (list ForeignKeySQL)) (w : World) : World :=
  let allFks := concat fkChan in
  let w := logPrint ("[INFO] Procesando " +:+ fmt_d (Z.of_nat (length allFks)) +:+ " FKs...") w in
  foldl (λ w fk, on_target (λ pg, (exec E (SQL fk) pg).1) w) w allFks.

Definition processDatabase (dbName : string) (ms : SourceDB) (w : World) : World :=
  let w := logPrint ("[INFO] --- INICIANDO DB: " +:+ dbName +:+ " ---") w in
  let w :=
    match exec E SetSynchronousCommitOff (target w) with
    | (_, Some e) =>
        logPrint ("[WARN] No se pudo desactivar synchronous_commit: " +:+ e) w
    | (pg, None) => mkWorld pg (logs w)
    end in
  let w :=
    match exec E (CreateSchema dbName) (target w) with
    | (_, Some e) => logPrint ("[WARN] Error creando esquema: " +:+ e) w
    | (pg, None) => mkWorld pg (logs w)
    end in
  match OpenErr ms with
  | Some e => logPrint ("[ERROR] Error conectando a MSSQL: " +:+ e) w
  | None =>
      match TableNames ms with
      | Err e => logPrint ("[ERROR] Error listando tablas: " +:+ e) w
      | Ok names =>
          let tables := listTables names in
          let w :=
            logPrint ("[INFO] Encontradas " +:+ fmt_d (Z.of_nat (length tables))
                      +:+ " tablas. Iniciando carga masiva...") w in
          let '(fkChannel, w) := worker dbName ms tables [] w in
          let w := logPrint "[INFO] Aplicando Foreign Keys..." w in
          applyForeignKeys fkChannel w
      end
  end.

(** [main]: the required environment variables, then the source
    databases in declared order.  [log.Fatalf] ends the process. *)
Definition main (getenv : string → string) (sources : string → SourceDB) (w : World)
  : World :=
  let w :=
    logPrint "[INFO] Iniciando Migracion FINAL (Strict Types + TrimSpaces + High Performance)..." w in
  match filter (λ v, getenv v = EmptyString) ["PG_HOST"; "MSSQL_HOST"; "MSSQL_PASS"] with
  | v :: _ => logPrint ("[FATAL] Falta variable de entorno: " +:+ v) w
  | [] =>
      let w := foldl (λ w dbName, processDatabase dbName (sources dbName) w) w SourceDBs in
      logPrint "[INFO] Migracion Completa Finalizada." w
  end.

End Run.

(** * The properties, in the words of the specification *)

(** A string with every 0x00 byte removed. *)
Fixpoint remove_nul (s : string) : string :=
  match s with
  | EmptyString => EmptyString
  | String c r => if Ascii.eqb c "000" then remove_nul r else String c (remove_nul r)
  end.

(** Whether a string contains the byte 0x00. *)
Fixpoint has_nul (s : string) : bool :=
  match s with
  | EmptyString => false
  | String c r => Ascii.eqb c "000" || has_nul r
  end.

(** The table of the type mapper: the source names of a row (uppercase) and
    the target declaration, which may use the precision and the scale. *)
Definition numeric_decl (p s : Z) : string :=
  if 0 <? p then "NUMERIC(" +:+ fmt_d p +:+ ", " +:+ fmt_d s +:+ ")" else "NUMERIC".

Definition typeTable : list (list string * (Z → Z → string)) :=
  [ (["TINYINT"; "SMALLINT"], λ _ _, "SMALLINT");
    (["INT"; "INTEGER"], λ _ _, "INTEGER");
    (["BIGINT"], λ _ _, "BIGINT");
    (["BIT"], λ _ _, "BOOLEAN");
    (["REAL"], λ _ _, "REAL");
    (["FLOAT"], λ _ _, "DOUBLE PRECISION");
    (["DECIMAL"; "NUMERIC"; "MONEY"; "SMALLMONEY"], numeric_decl);
    (["DATE"], λ _ _, "DATE");
    (["DATETIME"; "DATETIME2"; "SMALLDATETIME"], λ _ _, "TIMESTAMP");
    (["TIME"], λ _ _, "TIME");
    (["CHAR"; "NCHAR"; "VARCHAR"; "NVARCHAR"; "TEXT"; "NTEXT"; "SYSNAME"], λ _ _, "TEXT");
    (["BINARY"; "VARBINARY"; "IMAGE"; "TIMESTAMP_SQL"], λ _ _, "BYTEA");
    (["UNIQUEIDENTIFIER"], λ _ _, "UUID") ].

(** The lookup in the table: the first row that lists the name, [TEXT] for
    a name that no row lists. *)
Fixpoint table_lookup (rows : list (list string * (Z → Z → string)))
    (t : string) (p s : Z) : string :=
  match rows with
  | [] => "TEXT"
  | (names, decl) :: rest =>
      if bool_decide (t ∈ names) then decl p s else table_lookup rest t p s
  end.

(** The canonical lowercase 8-4-4-4-12 pattern. *)
Definition is_lower_hex (c : ascii) : bool :=
  let n := nat_of_ascii c in
  ((48 <=? n) && (n <=? 57) || (97 <=? n) && (n <=? 102))%nat.

Fixpoint all_lower_hex (s : string) : bool :=
  match s with
  | EmptyString => true
  | String c r => is_lower_hex c && all_lower_hex r
  end.

Definition canonical_uuid (s : string) : bool :=
  (String.length s =? 36)%nat
  && all_lower_hex (String.substring 0 8 s)
  && String.eqb (String.substring 8 1 s) "-"
  && all_lower_hex (String.substring 9 4 s)
  && String.eqb (String.substring 13 1 s) "-"
  && all_lower_hex (String.substring 14 4 s)
  && String.eqb (String.substring 18 1 s) "-"
  && all_lower_hex (String.substring 19 4 s)
  && String.eqb (String.substring 23 1 s) "-"
  && all_lower_hex (String.substring 24 12 s).

(** The ignore policy on an already lowercased name. *)
Definition policy_skips (t : string) : Prop :=
  (t = "dtproperties" ∨ t = "sysdiagrams" ∨ t = "systranschemas")
  ∨ ((∃ p, t = p +:+ "_ct") ∨ (∃ p q, t = p +:+ "_ct_" +:+ q))
  ∨ t ∈ ["change_tables"; "ddl_history"; "lsn_time_mapping";
         "captured_columns"; "index_columns"; "comandos"].

(** A name cut to its first [n] bytes. *)
Fixpoint truncated (n : nat) (s : string) : string :=
  match n, s with
  | S m, String c r => String c (truncated m r)
  | _, _ => EmptyString
  end.

(** The number of rows of a target table (none when the table is absent). *)
Definition rowCount (pg : PG) (k : string * string) : nat :=
  match tables pg !! k with
  | Some t => length (b_rows (body t))
  | None => 0
  end.

(** A log line that reports a failure. *)
Definition is_error_line (line : string) : bool :=
  strings.HasPrefix line "[ERROR]" || strings.HasPrefix line "[WARN]"
  || strings.HasPrefix line "[FATAL]".

(** The lines that a step added to the log. *)
Definition new_lines (before after : World) : list string :=
  drop (length (logs before)) (logs after).

(** The number of rows that the copy loop scanned without error. *)
Definition scanned (scans : list (option (list Value))) : Z :=
  Z.of_nat (length (filter (λ r, is_Some r) scans)).

(** The row-count property as the specification words it, for one table
    whose cursor opens: the target has at most as many rows as the source,
    and when rows are missing the log of the step has a line that reports a
    failure. *)
Definition missing_rows_logged (E : Engine) (schema table : string) (ms : SourceDB)
    (w : World) : Prop :=
  ∀ rows,
    queryWithRetry (Query (TableOf ms table)) (seqZ 1 MaxRetries) (Err "") = Ok rows →
    let w' := (migrateTable E schema table ms w).2 in
    (rowCount (target w') (schema, table) ≤ length (Scans rows))%nat
    ∧ ((rowCount (target w') (schema, table) < length (Scans rows))%nat →
       ∃ line, line ∈ new_lines w w' ∧ is_error_line line = true).

(** The rows that the copy loop commits, from the rows pending in the
    transaction and the rows still to scan. *)
Definition tx_rows (tx : Tx) : list (list Value) :=
  if failed tx then [] else pending tx.

Definition tx_step (E : Engine) (schema table : string) (cols : list (string * string))
    (finalVals : list Value) (tx : Tx) : Tx :=
  if failed tx then tx
  else
    match row_err E schema table cols finalVals with
    | None => mkTx (pending tx ++ [finalVals]) false
    | Some _ => mkTx (pending tx) true
    end.

Fixpoint committed (E : Engine) (schema table : string) (cols : list (string * string))
    (colTypes : list ColumnType) (scans : list (option (list Value)))
    (tx : Tx) (count : Z) : list (list Value) :=
  match scans with
  | [] => tx_rows tx
  | None :: rest => committed E schema table cols colTypes rest tx count
  | Some values :: rest =>
      let tx := tx_step E schema table cols (coerceRow colTypes values) tx in
      if Z.rem (count + 1) BatchSize =? 0
      then tx_rows tx
           ++ committed E schema table cols colTypes rest (begin_tx E) (count + 1)
      else committed E schema table cols colTypes rest tx (count + 1)
  end.

(** ** Example inputs *)

(** A text value the example engine accepts: bytes below 0x80 only. *)
Fixpoint is_ascii_text (s : string) : bool :=
  match s with
  | EmptyString => true
  | String c r => (nat_of_ascii c <? 128)%nat && is_ascii_text r
  end.

Definition accepts_value (v : Value) : bool :=
  match v with
  | VString s => is_ascii_text s
  | _ => true
  end.

(** An engine that accepts every statement, except a row whose arity is not
    that of the table or that holds a text value with a byte outside ASCII,
    and a foreign key onto a table that does not exist. *)
Definition demoEngine : Engine :=
  mkEngine None (λ _, None) (λ _ _ _, None)
    (λ _ _ cols row,
       if (length row =? length cols)%nat && forallb accepts_value row then None
       else Some "invalid byte sequence for encoding UTF8")
    (λ _ _ _ _ _, None)
    (λ _ _ _ _ ref,
       match ref with
       | Some _ => None
       | None => Some "relation does not exist"
       end).

Definition demoClientes : SourceTable :=
  mkSourceTable
    (λ attempt,
       if attempt <? 3 then Err "i/o timeout"
       else Ok (mkCursor ["id"; "nombre"; "activo"]
                  [mkColumnType "INT" (10, 0); mkColumnType "NVARCHAR" (0, 0);
                   mkColumnType "BIT" (0, 0)]
                  [Some [VInt64 1; VString ("Ana" +:+ NUL); VBytes [x01]];
                   Some [VInt64 2; VString "Luis"; VBytes [x00]]]))
    (Ok ["id"]) (Ok []).

Definition demoNotas : SourceTable :=
  mkSourceTable
    (λ _, Ok (mkCursor ["cliente"; "nota"]
                [mkColumnType "INT" (10, 0); mkColumnType "VARCHAR" (0, 0)]
                [Some [VInt64 1; VString "hola"];
                 Some [VInt64 2; VBytes [xf1]]]))
    (Ok [])
    (Ok [Some ("FK_notas_clientes", "cliente", "clientes", "id")]).

Definition demoMissing : SourceTable :=
  mkSourceTable (λ _, Err "invalid object name") (Err "closed") (Err "closed").

Definition demoDB : SourceDB :=
  mkSourceDB None (Ok [" clientes  "; "notas"; "notas_CT"; "sysdiagrams"])
    (λ t, if String.eqb t "clientes" then demoClientes
          else if String.eqb t "notas" then demoNotas
          else demoMissing).

Definition demoWorld : World := mkWorld (mkPG {["vin"]} ∅) [].

(** ** Sets of tables, for the comparison of two runs *)

(** Whether the cursor of a table opens within the retries. *)
Definition opens (ms : SourceDB) (table : string) : bool :=
  match queryWithRetry (Query (TableOf ms table)) (seqZ 1 MaxRetries) (Err "") with
  | Ok _ => true
  | Err _ => false
  end.

(** The tables that a run drops: per job list, per database, per run. *)
Fixpoint droppedOf (schema : string) (ms : SourceDB) (jobs : list string)
  : gset (string * string) :=
  match jobs with
  | [] => ∅
  | t :: rest =>
      (if opens ms t then {[(schema, t)]} else ∅) ∪ droppedOf schema ms rest
  end.

(** The table that the copy of [table] drops, if any. *)
Definition dropped1 (schema : string) (ms : SourceDB) (table : string)
  : gset (string * string) :=
  if opens ms table then {[(schema, table)]} else ∅.

Definition droppedBy (dbName : string) (ms : SourceDB) : gset (string * string) :=
  match OpenErr ms, TableNames ms with
  | None, Ok names => droppedOf dbName ms (listTables names)
  | _, _ => ∅
  end.

Fixpoint droppedAll (sources : string → SourceDB) (dbs : list string)
  : gset (string * string) :=
  match dbs with
  | [] => ∅
  | a :: rest => droppedBy a (sources a) ∪ droppedAll sources rest
  end.

(** A table without the foreign keys that reference a table of [D]. *)
Definition mask (D : gset (string * string)) (t : Table) : Table :=
  mkTable (body t) (filter (λ f, fk_ref f ∉ D) (fks t)).

(** ** What one table copy leaves in the target *)

Definition freshTable (cols : list (string * string)) : Table :=
  mkTable (mkBody cols [] None) [].

(** The table after the primary-key step. *)
Definition withPrimaryKey (E : Engine) (schema table : string) (pkCols : list string)
    (t : Table) : Table :=
  if (0 <? length pkCols)%nat then
    match b_pk (body t) with
    | Some _ => t
    | None =>
        match pk_err E schema table t (pkName schema table) pkCols with
        | None =>
            mkTable (mkBody (b_cols (body t)) (b_rows (body t))
                       (Some (pkName schema table, pkCols))) (fks t)
        | Some _ => t
        end
    end
  else t.

(** The table that a completed copy builds: it depends on the source and on
    the engine's decisions, not on what the target held before. *)
Definition rebuilt (E : Engine) (schema table : string) (ms : SourceDB) (rows : Cursor)
  : Table :=
  let defs := columnDefs (Columns rows) (ColumnTypes rows) in
  withPrimaryKey E schema table (getPrimaryKeyColumns ms table)
    (append_rows
       (committed E schema table defs (ColumnTypes rows) (Scans rows) (begin_tx E) 0)
       (freshTable defs)).

(** Whether the engine accepts the [CREATE TABLE] of a copy. *)
Definition creatable (E : Engine) (schema table : string) (rows : Cursor) (pg : PG) : bool :=
  bool_decide (schema ∈ schemas pg)
  && bool_decide (create_err E schema table (columnDefs (Columns rows) (ColumnTypes rows))
                  = None).

(** The target after the copy of one table. *)
Definition migrated (E : Engine) (schema table : string) (ms : SourceDB) (pg : PG) : PG :=
  match queryWithRetry (Query (TableOf ms table)) (seqZ 1 MaxRetries) (Err "") with
  | Err _ => pg
  | Ok rows =>
      let others := strip_refs (schema, table) <$> delete (schema, table) (tables pg) in
      mkPG (schemas pg)
        (if creatable E schema table rows pg
         then <[(schema, table) := rebuilt E schema table ms rows]> others
         else others)
  end.

(** The foreign keys that the copy of one table returns. *)
Definition migratedFks (E : Engine) (schema table : string) (ms : SourceDB) (pg : PG)
  : list ForeignKeySQL :=
  match queryWithRetry (Query (TableOf ms table)) (seqZ 1 MaxRetries) (Err "") with
  | Err _ => []
  | Ok rows =>
      if creatable E schema table rows pg then getForeignKeys ms schema table else []
  end.

(** ** The run on the target alone

    The steps of [worker], [applyForeignKeys], [processDatabase] and [main]
    as functions of the target: no decision of the migrator reads the log. *)
Fixpoint workerT (E : Engine) (schema : string) (ms : SourceDB) (jobs : list string)
    (fkChan : list (list ForeignKeySQL)) (pg : PG) : list (list ForeignKeySQL) * PG :=
  match jobs with
  | [] => (fkChan, pg)
  | table :: rest =>
      let fks := migratedFks E schema table ms pg in
      let fkChan := if (0 <? length fks)%nat then fkChan ++ [fks] else fkChan in
      workerT E schema ms rest fkChan (migrated E schema table ms pg)
  end.

Definition applyT (E : Engine) (allFks : list ForeignKeySQL) (pg : PG) : PG :=
  foldl (λ pg fk, (exec E (SQL fk) pg).1) pg allFks.

Definition processT (E : Engine) (dbName : string) (ms : SourceDB) (pg : PG) : PG :=
  let pg := (exec E (CreateSchema dbName) pg).1 in
  match OpenErr ms with
  | Some _ => pg
  | None =>
      match TableNames ms with
      | Err _ => pg
      | Ok names =>
          let '(fkChannel, pg) := workerT E dbName ms (listTables names) [] pg in
          applyT E (concat fkChannel) pg
      end
  end.

Definition runT (E : Engine) (sources : string → SourceDB) (dbs : list string) (pg : PG)
  : PG :=
  foldl (λ pg dbName, processT E dbName (sources dbName) pg) pg dbs.

(** Two targets seen during a pair of runs: equal on the tables of [P], and
    outside [D] equal up to the foreign keys that reference a table of [D]. *)
Definition related (D P : gset (string * string))
    (T T' : gmap (string * string) Table) : Prop :=
  (∀ k, k ∈ P → T !! k = T' !! k)
  ∧ (∀ k, k ∉ D → mask D <$> T !! k = mask D <$> T' !! k).

(** The namespaces of two such targets: the second has those of the first,
    and beyond them only namespaces that the rest of the run creates. *)
Definition schemas_related (E : Engine) (rest : list string) (S S' : gset string) : Prop :=
  S ⊆ S' ∧ ∀ ns, ns ∈ S' → ns ∈ S ∨ (ns ∈ rest ∧ schema_err E ns = None).

(** The statements of the collector channel of database [schema]: foreign
    keys inside [schema], on a table of [O]. *)
Definition fk_of (schema : string) (O : gset (string * string)) (fk : ForeignKeySQL) : Prop :=
  ∃ table name col refTable refCol,
    SQL fk = AddForeignKey schema table name col schema refTable refCol
    ∧ (schema, table) ∈ O.


(** * Further properties *)

(** A cell that is neither bytes nor text: null, a boolean, a number or a
    time. *)
Definition is_scalar (v : Value) : bool :=
  match v with
  | VBytes _ | VString _ => false
  | _ => true
  end.

(** The coerced rows that a cursor offers, in order: one per successful
    scan. *)
Definition coercedRows (colTypes : list ColumnType)
    (scans : list (option (list Value))) : list (list Value) :=
  omap (λ r, coerceRow colTypes <$> r) scans.

(** Whether a string contains the byte [q], starts with white space, ends
    with white space. *)
Fixpoint has_byte (q : ascii) (s : string) : bool :=
  match s with
  | EmptyString => false
  | String c r => Ascii.eqb c q || has_byte q r
  end.

Definition starts_with_space (s : string) : bool :=
  match s with
  | EmptyString => false
  | String c _ => strings.isSpace c
  end.

Fixpoint ends_with_space (s : string) : bool :=
  match s with
  | EmptyString => false
  | String c EmptyString => strings.isSpace c
  | String _ r => ends_with_space r
  end.

(** The declarations that the type mapper can return without a precision. *)
Definition plainTypes : list string :=
  ["SMALLINT"; "INTEGER"; "BIGINT"; "BOOLEAN"; "REAL"; "DOUBLE PRECISION";
   "NUMERIC"; "DATE"; "TIMESTAMP"; "TIME"; "TEXT"; "BYTEA"; "UUID"].

(** Whether a fallible call failed. *)
Definition is_Err {A : Type} (r : result A) : Prop :=
  match r with
  | Ok _ => False
  | Err _ => True
  end.

(** * The run with a DROP that can fail and a pool of workers

    The engine above accepts every [DROP TABLE], and [processDatabase] above
    hands the whole queue to one worker.  The definitions of this module
    lift both.  The engine also decides each [DROP TABLE IF EXISTS], from
    the statement and the table it names (the code discards the outcome).
    And the queue of a database goes to [MaxWorkers] workers whose copies
    advance statement by statement, in an order that a schedule gives.

    As above, [pg.Begin] and [tx.Prepare] are taken to succeed; when the
    engine rejects the SET of a transaction the code does not return, and
    the theorems on this module assume that the engine accepts it. *)

Module General.

Record FullEngine := mkFullEngine {
  statements : Engine;
  drop_err : string → string → option Table → option string
}.

(** [pg.Exec] of a statement. *)
Definition exec (D : FullEngine) (q : Stmt) (pg : PG) : PG * option string :=
  match q with
  | DropTable ns tbl =>
      match drop_err D ns tbl (tables pg !! (ns, tbl)) with
      | None => (drop_cascade (ns, tbl) pg, None)
      | Some e => (pg, Some e)
      end
  | _ => exec (statements D) q pg
  end.

(** [migrateTable], run from its first statement to its last with no other
    worker in between. *)
Definition migrateTable (D : FullEngine) (schema table : string) (ms : SourceDB)
    (w : World) : list ForeignKeySQL * World :=
  match queryWithRetry (Query (TableOf ms table)) (seqZ 1 MaxRetries) (Err "") with
  | Err e =>
      ([], logPrint ("[ERROR] [FINAL] " +:+ table +:+ ": No se pudo leer origen: " +:+ e) w)
  | Ok rows =>
      let cols := Columns rows in
      let colTypes := ColumnTypes rows in
      let w := on_target (λ pg, (exec D (DropTable schema table) pg).1) w in
      let createSQL := CreateTable schema table (columnDefs cols colTypes) in
      match exec D createSQL (target w) with
      | (_, Some e) =>
          ([], logPrint ("[ERROR] " +:+ table +:+ ": Fallo create table: " +:+ e) w)
      | (pg, None) =>
          let '(count, pg) :=
            copyRows (statements D) schema table colTypes (Scans rows)
              (begin_tx (statements D)) 0 pg in
          let pkCols := getPrimaryKeyColumns ms table in
          let pg :=
            if (0 <? length pkCols)%nat
            then (exec D (AddPrimaryKey schema table (pkName schema table) pkCols) pg).1
            else pg in
          let w := mkWorld pg (logs w) in
          let w :=
            if 0 <? count
            then logPrint ("[OK] " +:+ table +:+ ": " +:+ fmt_d count +:+ " filas") w
            else w in
          (getForeignKeys ms schema table, w)
      end
  end.

(** ** One copy, statement by statement

    Where a call of [migrateTable] stands between two of its accesses to the
    target, with the local variables that the rest of the call reads:
    before the source query; before the DROP; before the CREATE TABLE;
    inside the row loop, before the next [rows.Next()] (or, after the last
    row, before the final commit); before the commit of a full batch;
    before the primary key; and before the log line and the return. *)
Inductive Job :=
| Querying (table : string)
| Dropping (table : string) (rows : Cursor)
| Creating (table : string) (rows : Cursor)
| Copying (table : string) (rows : Cursor) (scans : list (option (list Value)))
    (tx : Tx) (count : Z)
| Committing (table : string) (rows : Cursor) (scans : list (option (list Value)))
    (tx : Tx) (count : Z)
| Keying (table : string) (count : Z)
| Returning (table : string) (count : Z).

Definition job_table (j : Job) : string :=
  match j with
  | Querying table | Dropping table _ | Creating table _ | Copying table _ _ _ _
  | Committing table _ _ _ _ | Keying table _ | Returning table _ => table
  end.

(** The next step of a copy: the copy afterwards ([None] when
    [migrateTable] has returned and the worker has sent the result), the
    world and the collector channel. *)
Definition job_step (D : FullEngine) (schema : string) (ms : SourceDB) (j : Job)
    (w : World) (fkChan : list (list ForeignKeySQL))
  : option Job * World * list (list ForeignKeySQL) :=
  match j with
  | Querying table =>
      match queryWithRetry (Query (TableOf ms table)) (seqZ 1 MaxRetries) (Err "") with
      | Err e =>
          (None,
           logPrint ("[ERROR] [FINAL] " +:+ table +:+ ": No se pudo leer origen: " +:+ e) w,
           fkChan)
      | Ok rows => (Some (Dropping table rows), w, fkChan)
      end
  | Dropping table rows =>
      (Some (Creating table rows),
       on_target (λ pg, (exec D (DropTable schema table) pg).1) w, fkChan)
  | Creating table rows =>
      let createSQL :=
        CreateTable schema table (columnDefs (Columns rows) (ColumnTypes rows)) in
      match exec D createSQL (target w) with
      | (_, Some e) =>
          (None, logPrint ("[ERROR] " +:+ table +:+ ": Fallo create table: " +:+ e) w,
           fkChan)
      | (pg, None) =>
          (Some (Copying table rows (Scans rows) (begin_tx (statements D)) 0),
           mkWorld pg (logs w), fkChan)
      end
  | Copying table rows [] tx count =>
      (Some (Keying table count), on_target (tx_commit schema table tx) w, fkChan)
  | Copying table rows (None :: rest) tx count =>
      (Some (Copying table rows rest tx count), w, fkChan)
  | Copying table rows (Some values :: rest) tx count =>
      let finalVals := coerceRow (ColumnTypes rows) values in
      let tx := (stmt_exec (statements D) schema table finalVals tx (target w)).1 in
      let count := count + 1 in
      if Z.rem count BatchSize =? 0
      then (Some (Committing table rows rest tx count), w, fkChan)
      else (Some (Copying table rows rest tx count), w, fkChan)
  | Committing table rows rest tx count =>
      (Some (Copying table rows rest (begin_tx (statements D)) count),
       on_target (tx_commit schema table tx) w, fkChan)
  | Keying table count =>
      let pkCols := getPrimaryKeyColumns ms table in
      let w :=
        if (0 <? length pkCols)%nat
        then on_target
               (λ pg, (exec D (AddPrimaryKey schema table (pkName schema table) pkCols) pg).1)
               w
        else w in
      (Some (Returning table count), w, fkChan)
  | Returning table count =>
      let w :=
        if 0 <? count
        then logPrint ("[OK] " +:+ table +:+ ": " +:+ fmt_d count +:+ " filas") w
        else w in
      let fks := getForeignKeys ms schema table in
      (None, w, if (0 <? length fks)%nat then fkChan ++ [fks] else fkChan)
  end.

(** A copy run to its end with no other worker in between, in at most [n]
    steps: the world and the collector channel afterwards. *)
Fixpoint job_run (D : FullEngine) (schema : string) (ms : SourceDB) (n : nat)
    (j : option Job) (w : World) (fkChan : list (list ForeignKeySQL))
  : World * list (list ForeignKeySQL) :=
  match n, j with
  | S n, Some j =>
      let '(j', w, ch) := job_step D schema ms j w fkChan in
      job_run D schema ms n j' w ch
  | _, _ => (w, fkChan)
  end.

(** ** The pool

    The tables still in the [jobs] channel, the copy each busy worker is in
    (workers are numbered from 0), the world and the collector channel. *)
Record Pool := mkPool {
  queue : list string;
  workers : gmap nat Job;
  world : World;
  fkChan : list (list ForeignKeySQL)
}.

(** Worker [i] moves: a worker without a copy takes the next table of the
    queue, a worker inside a copy does the next step of it. *)
Definition pool_step (D : FullEngine) (schema : string) (ms : SourceDB) (i : nat)
    (p : Pool) : Pool :=
  if bool_decide (Z.of_nat i < MaxWorkers) then
    match workers p !! i with
    | Some j =>
        let '(j', w, ch) := job_step D schema ms j (world p) (fkChan p) in
        mkPool (queue p)
          (match j' with
           | Some j' => <[i := j']> (workers p)
           | None => delete i (workers p)
           end) w ch
    | None =>
        match queue p with
        | [] => p
        | table :: rest =>
            mkPool rest (<[i := Querying table]> (workers p)) (world p) (fkChan p)
        end
    end
  else p.

Definition pool_run (D : FullEngine) (schema : string) (ms : SourceDB) (sched : list nat)
    (p : Pool) : Pool :=
  foldl (λ p i, pool_step D schema ms i p) p sched.

(** A bound on the steps that a copy still takes, and on the steps that a
    pool takes for a queue. *)
Definition copy_fuel (n : nat) : nat := 2 * n + 3.

Definition job_fuel (ms : SourceDB) (j : Job) : nat :=
  match j with
  | Querying table =>
      match queryWithRetry (Query (TableOf ms table)) (seqZ 1 MaxRetries) (Err "") with
      | Ok rows => 3 + copy_fuel (length (Scans rows))
      | Err _ => 1
      end
  | Dropping _ rows => 2 + copy_fuel (length (Scans rows))
  | Creating _ rows => 1 + copy_fuel (length (Scans rows))
  | Copying _ _ scans _ _ => copy_fuel (length scans)
  | Committing _ _ scans _ _ => 1 + copy_fuel (length scans)
  | Keying _ _ => 2
  | Returning _ _ => 1
  end.

Definition queue_fuel (ms : SourceDB) (jobs : list string) : nat :=
  sum_list ((λ table, S (job_fuel ms (Querying table))) <$> jobs).

(** [wg.Wait()]: every worker in turn moves until it has nothing left to
    do; [n] moves are enough for each. *)
Definition wait_schedule (n : nat) : list nat :=
  concat ((λ i, replicate n i) <$> seq 0 (Z.to_nat MaxWorkers)).

Definition applyForeignKeys (D : FullEngine) (fkChan : list (list ForeignKeySQL))
    (w : World) : World :=
  let allFks := concat fkChan in
  let w := logPrint ("[INFO] Procesando " +:+ fmt_d (Z.of_nat (length allFks)) +:+ " FKs...") w in
  foldl (λ w fk, on_target (λ pg, (exec D (SQL fk) pg).1) w) w allFks.

(** [sched] is the order in which the workers move while the pool runs; the
    work that is left after it is done under [wg.Wait()]. *)
Definition processDatabase (D : FullEngine) (sched : list nat) (dbName : string)
    (ms : SourceDB) (w : World) : World :=
  let w := logPrint ("[INFO] --- INICIANDO DB: " +:+ dbName +:+ " ---") w in
  let w :=
    match exec D SetSynchronousCommitOff (target w) with
    | (_, Some e) =>
        logPrint ("[WARN] No se pudo desactivar synchronous_commit: " +:+ e) w
    | (pg, None) => mkWorld pg (logs w)
    end in
  let w :=
    match exec D (CreateSchema dbName) (target w) with
    | (_, Some e) => logPrint ("[WARN] Error creando esquema: " +:+ e) w
    | (pg, None) => mkWorld pg (logs w)
    end in
  match OpenErr ms with
  | Some e => logPrint ("[ERROR] Error conectando a MSSQL: " +:+ e) w
  | None =>
      match TableNames ms with
      | Err e => logPrint ("[ERROR] Error listando tablas: " +:+ e) w
      | Ok names =>
          let tables := listTables names in
          let w :=
            logPrint ("[INFO] Encontradas " +:+ fmt_d (Z.of_nat (length tables))
                      +:+ " tablas. Iniciando carga masiva...") w in
          let p :=
            pool_run D dbName ms (sched ++ wait_schedule (queue_fuel ms tables))
              (mkPool tables ∅ w []) in
          let w := logPrint "[INFO] Aplicando Foreign Keys..." (world p) in
          applyForeignKeys D (fkChan p) w
      end
  end.

(** [scheds] gives the schedule of the pool of each database. *)
Definition main (D : FullEngine) (scheds : string → list nat)
    (getenv : string → string) (sources : string → SourceDB) (w : World) : World :=
  let w :=
    logPrint "[INFO] Iniciando Migracion FINAL (Strict Types + TrimSpaces + High Performance)..." w in
  match filter (λ v, getenv v = EmptyString) ["PG_HOST"; "MSSQL_HOST"; "MSSQL_PASS"] with
  | v :: _ => logPrint ("[FATAL] Falta variable de entorno: " +:+ v) w
  | [] =>
      let w :=
        foldl (λ w dbName, processDatabase D (scheds dbName) dbName (sources dbName) w)
          w SourceDBs in
      logPrint "[INFO] Migracion Completa Finalizada." w
  end.

(** An engine that accepts every DROP. *)
Definition drops_accepted (D : FullEngine) : Prop :=
  ∀ ns tbl current, drop_err D ns tbl current = None.

(** Sources in which no database lists a table name twice (after trimming,
    and the ignored names apart). *)
Definition distinct_tables (sources : string → SourceDB) : Prop :=
  ∀ dbName names, TableNames (sources dbName) = Ok names → NoDup (listTables names).

(** Idempotence as the specification words it: the target after two runs
    back to back is the target after one run. *)
Definition rerun_changes_nothing (D : FullEngine) (scheds : string → list nat)
    (getenv : string → string) (sources : string → SourceDB) (w : World) : Prop :=
  target (main D scheds getenv sources (main D scheds getenv sources w))
  = target (main D scheds getenv sources w).

End General.

(** The example engine with a DROP that is never rejected, and with a DROP
    of the table [notas] that is rejected while the table exists. *)
Definition demoFull : General.FullEngine :=
  General.mkFullEngine demoEngine (λ _ _ _, None).

Definition demoNoDrop : General.FullEngine :=
  General.mkFullEngine demoEngine
    (λ _ tbl current,
       match current with
       | Some _ => if String.eqb tbl "notas" then Some "permission denied" else None
       | None => None
       end).

(** A source database that lists the table [clientes] twice. *)
Definition demoTwice : SourceDB :=
  mkSourceDB None (Ok ["clientes"; "clientes"]) (λ _, demoClientes).

(** The example engine with every CREATE TABLE rejected. *)
Definition demoNoCreate : General.FullEngine :=
  General.mkFullEngine
    (mkEngine None (λ _, None) (λ _ _ _, Some "permission denied")
       (row_err demoEngine) (pk_err demoEngine) (fk_err demoEngine))
    (λ _ _ _, None).

(** A target that already holds tables: one under an ignored name, two in a
    namespace that is no source database, and old versions of the tables
    [clientes] and [notas]. *)
Definition demoTable : Table :=
  mkTable (mkBody [("id", "INTEGER")] [[VInt64 7]; [VInt64 8]] (Some ("pk_old", ["id"])))
    [mkFK "fk_old" "id" ("otra", "padres") "id"].

Definition demoWorldHeld : World :=
  mkWorld
    (mkPG {["vin"; "otra"]}
       (<[("vin", "notas_ct") := demoTable]>
          (<[("otra", "clientes") := demoTable]>
             (<[("otra", "padres") := mkTable (mkBody [("id", "INTEGER")] [] None) []]>
                (<[("vin", "clientes") := demoTable]>
                   (<[("vin", "notas") := demoTable]> ∅))))))
    [].

(** The table [k] is a table that a run has copied: absent, or with the
    columns, rows and primary key that the source and the engine give. *)
Definition rebuilt_or_absent (E : Engine) (sources : string → SourceDB)
    (k : string * string) (pg : PG) : Prop :=
  ∃ rows,
    queryWithRetry (Query (TableOf (sources k.1) k.2)) (seqZ 1 MaxRetries) (Err "") = Ok rows
    ∧ (tables pg !! k = None
       ∨ ∃ t, tables pg !! k = Some t
              ∧ body t = body (rebuilt E k.1 k.2 (sources k.1) rows)).

(** The lists that the copies of a queue send to the collector channel. *)
Definition channelOf (E : Engine) (schema : string) (ms : SourceDB) (pg : PG)
    (jobs : list string) : list (list ForeignKeySQL) :=
  filter (λ fks, (0 < length fks)%nat) ((λ t, migratedFks E schema t ms pg) <$> jobs).

(** The table of the origin after [ALTER TABLE ... ADD CONSTRAINT ...
    FOREIGN KEY], when the engine accepts it. *)
Definition installFK (E : Engine) (k : string * string) (fk : FK)
    (T : gmap (string * string) Table) : option Table :=
  match T !! k with
  | None => None
  | Some t =>
      match fk_err E k.1 k.2 t fk (body <$> T !! fk_ref fk) with
      | None => Some (mkTable (body t) (fks t ++ [fk]))
      | Some _ => None
      end
  end.

(** ** The pool while it runs

    What the target holds while the copies of a queue [jobs0] are under
    way, from the target [pg0] that the pool started on. *)

(** The table that the finished copy of [table] leaves. *)
Definition copied (E : Engine) (schema table : string) (ms : SourceDB) (pg0 : PG)
  : option Table :=
  match queryWithRetry (Query (TableOf ms table)) (seqZ 1 MaxRetries) (Err "") with
  | Ok rows =>
      if creatable E schema table rows pg0
      then Some (rebuilt E schema table ms rows) else None
  | Err _ => None
  end.

(** The rows that the copy of a cursor commits. *)
Definition copiedRows (E : Engine) (schema table : string) (rows : Cursor)
  : list (list Value) :=
  committed E schema table (columnDefs (Columns rows) (ColumnTypes rows))
    (ColumnTypes rows) (Scans rows) (begin_tx E) 0.

(** Whether a copy is past its DROP. *)
Definition job_dropped (j : General.Job) : bool :=
  match j with
  | General.Querying _ | General.Dropping _ _ => false
  | _ => true
  end.

(** The table of a copy, by the place the copy is in: gone after the DROP,
    then the new table with the rows committed so far. *)
Definition job_inv (E : Engine) (schema : string) (ms : SourceDB) (pg0 : PG)
    (j : General.Job) (cur : option Table) : Prop :=
  let opened table rows :=
    queryWithRetry (Query (TableOf ms table)) (seqZ 1 MaxRetries) (Err "") = Ok rows in
  let fresh rows := freshTable (columnDefs (Columns rows) (ColumnTypes rows)) in
  match j with
  | General.Querying _ => True
  | General.Dropping table rows => opened table rows
  | General.Creating table rows => opened table rows ∧ cur = None
  | General.Copying table rows scans tx count =>
      opened table rows ∧ creatable E schema table rows pg0 = true
      ∧ ∃ stored,
          cur = Some (append_rows stored (fresh rows))
          ∧ stored
            ++ committed E schema table (columnDefs (Columns rows) (ColumnTypes rows))
                 (ColumnTypes rows) scans tx count
            = copiedRows E schema table rows
  | General.Committing table rows scans tx count =>
      opened table rows ∧ creatable E schema table rows pg0 = true
      ∧ ∃ stored,
          cur = Some (append_rows stored (fresh rows))
          ∧ stored ++ tx_rows tx
            ++ committed E schema table (columnDefs (Columns rows) (ColumnTypes rows))
                 (ColumnTypes rows) scans (begin_tx E) count
            = copiedRows E schema table rows
  | General.Keying table _ =>
      ∃ rows,
        opened table rows ∧ creatable E schema table rows pg0 = true
        ∧ cur = Some (append_rows (copiedRows E schema table rows) (fresh rows))
  | General.Returning table _ =>
      ∃ rows,
        opened table rows ∧ creatable E schema table rows pg0 = true
        ∧ cur = Some (rebuilt E schema table ms rows)
  end.

(** The tables that the busy workers are copying. *)
Definition active (W : gmap nat General.Job) : list string :=
  (λ ij, General.job_table ij.2) <$> map_to_list W.

(** The pool after some steps: [done] are the tables whose copy has
    returned, [dropped] the tables that a copy has dropped. *)
Definition pool_inv (E : Engine) (schema : string) (ms : SourceDB) (pg0 : PG)
    (jobs0 : list string) (p : General.Pool) : Prop :=
  ∃ (done : list string) (dropped : gset (string * string)),
    jobs0 ≡ₚ done ++ active (General.workers p) ++ General.queue p
    ∧ schemas (target (General.world p)) = schemas pg0
    ∧ General.fkChan p ≡ₚ channelOf E schema ms pg0 done
    ∧ (∀ k, k ∈ dropped
            ↔ ∃ t, k = (schema, t)
                   ∧ ((t ∈ done ∧ opens ms t = true)
                      ∨ ∃ i j, General.workers p !! i = Some j
                               ∧ General.job_table j = t ∧ job_dropped j = true))
    ∧ (∀ i j, General.workers p !! i = Some j →
              job_inv E schema ms pg0 j
                (tables (target (General.world p)) !! (schema, General.job_table j)))
    ∧ (∀ t, t ∈ done → opens ms t = true →
            tables (target (General.world p)) !! (schema, t) = copied E schema t ms pg0)
    ∧ (∀ k, k ∉ dropped →
            tables (target (General.world p)) !! k = mask dropped <$> tables pg0 !! k).

(** The target when every copy of the queue has returned. *)
Definition copies_done (E : Engine) (schema : string) (ms : SourceDB) (pg0 : PG)
    (jobs0 : list string) (pg : PG) : Prop :=
  schemas pg = schemas pg0
  ∧ ∀ k, tables pg !! k
         = if decide (k ∈ droppedOf schema ms jobs0)
           then copied E schema k.2 ms pg0
           else mask (droppedOf schema ms jobs0) <$> tables pg0 !! k.

(** The steps that the copies of a pool still take at most. *)
Definition pool_fuel (ms : SourceDB) (p : General.Pool) : nat :=
  sum_list ((λ ij, General.job_fuel ms ij.2) <$> map_to_list (General.workers p))
  + General.queue_fuel ms (General.queue p).

(** The required environment variables that are not set. *)
Definition missingEnv (getenv : string → string) : list string :=
  filter (λ v, getenv v = EmptyString) ["PG_HOST"; "MSSQL_HOST"; "MSSQL_PASS"].

(** * Proofs *)

(** ** Strings *)

Module strings_facts.
Import strings.

Lemma length_app (a b : string) :
  String.length (a +:+ b) = (String.length a + String.length b)%nat.
Proof. induction a as [|c a IH]; simpl; [done | by rewrite IH]. Qed.

Lemma substring_0_0 (s : string) : String.substring 0 0 s = EmptyString.
Proof. by destruct s. Qed.

Lemma substring_prefix (a b : string) :
  String.substring 0 (String.length a) (a +:+ b) = a.
Proof.
  induction a as [|c a IH]; simpl.
  - apply substring_0_0.
  - by rewrite IH.
Qed.

Lemma substring_all (s : string) : String.substring 0 (String.length s) s = s.
Proof. induction s as [|c s IH]; simpl; [done | by rewrite IH]. Qed.

Lemma substring_suffix (a b : string) :
  String.substring (String.length a) (String.length b) (a +:+ b) = b.
Proof. induction a as [|c a IH]; simpl; [apply substring_all | done]. Qed.

Lemma substring_split (n : nat) (s : string) :
  (n ≤ String.length s)%nat →
  s = String.substring 0 n s +:+ String.substring n (String.length s - n) s.
Proof.
  revert s. induction n as [|n IH]; intros s Hn.
  - rewrite substring_0_0. simpl. rewrite Nat.sub_0_r. by rewrite substring_all.
  - destruct s as [|c s]; simpl in *; [lia |].
    change (String c s = String c (String.substring 0 n s
              +:+ String.substring n (String.length s - n) s)).
    f_equal. apply IH. lia.
Qed.

Lemma eqb_true (a b : string) : String.eqb a b = true ↔ a = b.
Proof. apply String.eqb_eq. Qed.

Lemma HasPrefix_spec (s p : string) :
  HasPrefix s p = true ↔ ∃ q, s = p +:+ q.
Proof.
  unfold HasPrefix. rewrite andb_true_iff, Nat.leb_le, eqb_true. split.
  - intros [Hlen Hsub].
    exists (String.substring (String.length p) (String.length s - String.length p) s).
    rewrite <- Hsub at 1. by apply substring_split.
  - intros [q ->]. rewrite length_app, substring_prefix. split; [lia | done].
Qed.

Lemma HasSuffix_spec (s suf : string) :
  HasSuffix s suf = true ↔ ∃ p, s = p +:+ suf.
Proof.
  unfold HasSuffix. rewrite andb_true_iff, Nat.leb_le, eqb_true. split.
  - intros [Hlen Hsub].
    exists (String.substring 0 (String.length s - String.length suf) s).
    pose proof (substring_split (String.length s - String.length suf) s) as Hs.
    replace (String.length s - (String.length s - String.length suf))%nat
      with (String.length suf) in Hs by lia.
    rewrite Hsub in Hs. apply Hs. lia.
  - intros [p ->]. rewrite length_app.
    replace (String.length p + String.length suf - String.length suf)%nat
      with (String.length p) by lia.
    rewrite substring_suffix. split; [lia | done].
Qed.

Lemma Contains_spec (s sub : string) :
  Contains s sub = true ↔ ∃ p q, s = p +:+ sub +:+ q.
Proof.
  induction s as [|c s IH].
  - simpl. rewrite orb_false_r, HasPrefix_spec. split.
    + intros [q Hq]. by exists EmptyString, q.
    + intros [p [q Hq]]. destruct p; simpl in Hq; [by exists q | done].
  - cbn [Contains]. rewrite orb_true_iff, HasPrefix_spec, IH. split.
    + intros [[q Hq] | [p [q Hq]]].
      * by exists EmptyString, q.
      * exists (String c p), q. simpl. by rewrite Hq.
    + intros [p [q Hq]]. destruct p as [|c' p]; simpl in Hq.
      * left. by exists q.
      * right. exists p, q. by inversion Hq.
Qed.

Lemma ReplaceAll_nul (s : string) : ReplaceAll s NUL "" = remove_nul s.
Proof.
  unfold ReplaceAll. induction s as [|c s IH]; [done |].
  cbn [replace_go remove_nul].
  assert (HasPrefix (String c s) NUL = Ascii.eqb c "000") as ->.
  { unfold HasPrefix, NUL. cbn [String.length String.substring Nat.leb andb].
    rewrite substring_0_0. destruct (Ascii.eqb_spec c "000") as [-> | Hne].
    - done.
    - apply String.eqb_neq. congruence. }
  destruct (Ascii.eqb c "000"); simpl; by rewrite IH.
Qed.

End strings_facts.

(** ** Value coercer *)

Lemma coerceRow_lookup (colTypes : list ColumnType) (values : list Value) (i : nat) :
  coerceRow colTypes values !! i = coerce (typeNameAt colTypes i) <$> values !! i.
Proof.
  unfold coerceRow.
  by rewrite (list_lookup_imap (λ i v, coerce (typeNameAt colTypes i) v)).
Qed.

Lemma has_nul_remove_nul (s : string) : has_nul (remove_nul s) = false.
Proof.
  induction s as [|c s IH]; [done |]. simpl.
  destruct (Ascii.eqb c "000") eqn:Hc; [done |]. simpl. by rewrite Hc.
Qed.

Lemma has_nul_app (a b : string) : has_nul (a +:+ b) = has_nul a || has_nul b.
Proof. induction a as [|c a IH]; simpl; [done | by rewrite IH, orb_assoc]. Qed.

Lemma has_nul_fmt_x_byte (b : byte) : has_nul (fmt_x_byte b) = false.
Proof. destruct b; vm_compute; reflexivity. Qed.

Lemma has_nul_fmt_x (t : list byte) : has_nul (fmt_x t) = false.
Proof.
  induction t as [|b t IH]; [done |]. cbn [fmt_x].
  by rewrite has_nul_app, has_nul_fmt_x_byte, IH.
Qed.

Lemma coerce_text_no_nul (typeName : string) (v : Value) (s : string) :
  coerce typeName v = VString s → has_nul s = false.
Proof.
  destruct v as [|t|t|b|n|n|n]; simpl; try discriminate.
  - repeat match goal with |- context [if ?c then _ else _] => destruct c end;
      try discriminate; intros [= <-].
    + by rewrite !has_nul_app, !has_nul_fmt_x.
    + rewrite strings_facts.ReplaceAll_nul. apply has_nul_remove_nul.
  - intros [= <-]. rewrite strings_facts.ReplaceAll_nul. apply has_nul_remove_nul.
Qed.

(** C1: a cell scanned as text, or as bytes of a column that is neither
    BIT/BOOLEAN, nor UNIQUEIDENTIFIER, nor named with BINARY or IMAGE, is
    inserted as the input with every 0x00 byte removed; and no text value
    that the coercer produces contains the byte 0x00. *)
Theorem coerce_text_strips_nul (colTypes : list ColumnType) (values : list Value) (i : nat) :
  (∀ s, values !! i = Some (VString s) →
        coerceRow colTypes values !! i = Some (VString (remove_nul s)))
  ∧ (∀ t, values !! i = Some (VBytes t) →
          typeNameAt colTypes i ≠ "BIT" →
          typeNameAt colTypes i ≠ "BOOLEAN" →
          typeNameAt colTypes i ≠ "UNIQUEIDENTIFIER" →
          strings.Contains (typeNameAt colTypes i) "BINARY" = false →
          strings.Contains (typeNameAt colTypes i) "IMAGE" = false →
          coerceRow colTypes values !! i
          = Some (VString (remove_nul (string_of_bytes t))))
  ∧ (∀ s, coerceRow colTypes values !! i = Some (VString s) → has_nul s = false).
Proof.
  rewrite coerceRow_lookup. split; [| split].
  - intros s ->. simpl. by rewrite strings_facts.ReplaceAll_nul.
  - intros t -> Hbit Hbool Huuid Hbin Himg. simpl.
    apply String.eqb_neq in Hbit, Hbool, Huuid.
    by rewrite Hbit, Hbool, Huuid, Hbin, Himg, strings_facts.ReplaceAll_nul.
  - intros s Hs. destruct (values !! i) as [v|]; [| done].
    simpl in Hs. injection Hs as Hs. by eapply coerce_text_no_nul.
Qed.

Lemma coerce_text_strips_nul_witness :
  coerceRow [mkColumnType "nvarchar" (0, 0); mkColumnType "varchar" (0, 0)]
    [VString ("hola" +:+ NUL +:+ "mundo"); VBytes [x61; x00; x62; x00]]
  = [VString "holamundo"; VString "ab"].
Proof.
  pose proof (coerce_text_strips_nul
                [mkColumnType "nvarchar" (0, 0); mkColumnType "varchar" (0, 0)]
                [VString ("hola" +:+ NUL +:+ "mundo"); VBytes [x61; x00; x62; x00]])
    as H.
  destruct (H 0%nat) as [H0 _]. destruct (H 1%nat) as [_ [H1 _]].
  specialize (H0 _ eq_refl).
  specialize (H1 _ eq_refl).
  assert (H1' := H1 ltac:(discriminate) ltac:(discriminate) ltac:(discriminate)
                   eq_refl eq_refl).
  apply list_eq. intros [|[|j]]; [exact H0 | exact H1' | reflexivity].
Defined.

(** C4: bytes of a BIT or BOOLEAN column become a boolean, true exactly
    when the first byte is 0x01. *)
Theorem coerce_bit_first_byte (colTypes : list ColumnType) (values : list Value)
    (i : nat) (t : list byte) :
  typeNameAt colTypes i = "BIT" ∨ typeNameAt colTypes i = "BOOLEAN" →
  values !! i = Some (VBytes t) →
  ∃ b : bool,
    coerceRow colTypes values !! i = Some (VBool b)
    ∧ (b = true ↔ ∃ rest, t = x01 :: rest)
    ∧ (b = false ↔ ∀ rest, t ≠ x01 :: rest).
Proof.
  intros Hty Hv. rewrite coerceRow_lookup, Hv. simpl.
  assert (String.eqb (typeNameAt colTypes i) "BIT"
          || String.eqb (typeNameAt colTypes i) "BOOLEAN" = true) as ->.
  { destruct Hty as [-> | ->]; reflexivity. }
  destruct t as [|b0 t]; simpl.
  - exists false. split; [done |]. split.
    + split; [done | intros [rest Hr]; done].
    + split; [intros _ rest; done | done].
  - destruct (Byte.eqb b0 x01) eqn:Hb.
    + apply Byte.byte_dec_bl in Hb as ->. exists true. split; [done |]. split.
      * split; [intros _; by exists t | done].
      * split; [done |]. intros H. by destruct (H t).
    + exists false. split; [done |].
      assert (b0 ≠ x01) as Hne.
      { intros ->. vm_compute in Hb. discriminate. }
      split.
      * split; [done |]. intros [rest [= -> _]]. done.
      * split; [| done]. intros _ rest [= -> _]. done.
Qed.

Lemma coerce_bit_first_byte_witness :
  ∃ b : bool,
    coerceRow [mkColumnType "bit" (0, 0)] [VBytes [x01]] !! 0%nat = Some (VBool b)
    ∧ (b = true ↔ ∃ rest, [x01] = x01 :: rest)
    ∧ (b = false ↔ ∀ rest, [x01] ≠ x01 :: rest).
Proof.
  apply (coerce_bit_first_byte [mkColumnType "bit" (0, 0)] [VBytes [x01]] 0 [x01]).
  - left. reflexivity.
  - reflexivity.
Defined.

(** C9: an empty byte sequence in a BIT or BOOLEAN column, which has no
    first byte, becomes the boolean false: neither null nor an error. *)
Theorem coerce_bit_empty (colTypes : list ColumnType) (values : list Value) (i : nat) :
  typeNameAt colTypes i = "BIT" ∨ typeNameAt colTypes i = "BOOLEAN" →
  values !! i = Some (VBytes []) →
  coerceRow colTypes values !! i = Some (VBool false).
Proof.
  intros Hty Hv. rewrite coerceRow_lookup, Hv. simpl.
  by destruct Hty as [-> | ->].
Qed.

Lemma coerce_bit_empty_witness :
  coerceRow [mkColumnType "Boolean" (0, 0)] [VBytes []] !! 0%nat = Some (VBool false).
Proof.
  apply (coerce_bit_empty [mkColumnType "Boolean" (0, 0)] [VBytes []] 0).
  - right. reflexivity.
  - reflexivity.
Defined.

Lemma hexdigit_hi_lower (b : byte) :
  is_lower_hex (hexdigit (Byte.to_N b / 16)) = true.
Proof. destruct b; vm_compute; reflexivity. Qed.

Lemma hexdigit_lo_lower (b : byte) :
  is_lower_hex (hexdigit (Byte.to_N b mod 16)) = true.
Proof. destruct b; vm_compute; reflexivity. Qed.

(** The sixteen bytes of a malformed-or-not identifier, named. *)
Lemma length_16_inv (t : list byte) :
  length t = 16%nat →
  ∃ b0 b1 b2 b3 b4 b5 b6 b7 b8 b9 b10 b11 b12 b13 b14 b15,
    t = [b0; b1; b2; b3; b4; b5; b6; b7; b8; b9; b10; b11; b12; b13; b14; b15].
Proof.
  intros H.
  do 16 (destruct t as [|? t]; [discriminate H |]).
  destruct t; [| discriminate H]. by repeat eexists.
Qed.

(** C3: bytes of a UNIQUEIDENTIFIER column: sixteen bytes become the
    lowercase hexadecimal of the bytes in order, grouped 4-2-2-2-6 and joined
    by hyphens, which has the canonical 8-4-4-4-12 form; any other length
    becomes null. *)
Theorem coerce_uniqueidentifier (colTypes : list ColumnType) (values : list Value)
    (i : nat) (t : list byte) :
  typeNameAt colTypes i = "UNIQUEIDENTIFIER" →
  values !! i = Some (VBytes t) →
  (length t = 16%nat →
   ∃ s, coerceRow colTypes values !! i = Some (VString s)
        ∧ s = fmt_x (take 4 t) +:+ "-" +:+ fmt_x (take 2 (drop 4 t)) +:+ "-"
              +:+ fmt_x (take 2 (drop 6 t)) +:+ "-" +:+ fmt_x (take 2 (drop 8 t))
              +:+ "-" +:+ fmt_x (take 6 (drop 10 t))
        ∧ canonical_uuid s = true)
  ∧ (length t ≠ 16%nat → coerceRow colTypes values !! i = Some VNil)
  ∧ (t = [x11; x22; x33; x44; x55; x66; x77; x88; x99; xaa; xbb; xcc; xdd; xee; xff; x00] →
     coerceRow colTypes values !! i
     = Some (VString "11223344-5566-7788-99aa-bbccddeeff00")).
Proof.
  intros Hty Hv. rewrite coerceRow_lookup, Hv, Hty. cbn [fmap option_fmap option_map coerce].
  change (String.eqb "UNIQUEIDENTIFIER" "BIT" || String.eqb "UNIQUEIDENTIFIER" "BOOLEAN")
    with false.
  change (String.eqb "UNIQUEIDENTIFIER" "UNIQUEIDENTIFIER") with true.
  cbv iota. split; [| split].
  - intros Hlen. rewrite Hlen. cbn [Nat.eqb]. eexists. split; [reflexivity |].
    destruct (length_16_inv t Hlen)
      as (b0&b1&b2&b3&b4&b5&b6&b7&b8&b9&b10&b11&b12&b13&b14&b15&->).
    split; [reflexivity |].
    unfold canonical_uuid, slice.
    cbn -[hexdigit is_lower_hex Byte.to_N N.div N.modulo].
    cbv -[hexdigit is_lower_hex Byte.to_N N.div N.modulo].
    by rewrite !hexdigit_hi_lower, !hexdigit_lo_lower.
  - intros Hlen. apply Nat.eqb_neq in Hlen. by rewrite Hlen.
  - intros ->. vm_compute. reflexivity.
Qed.

Lemma coerce_uniqueidentifier_witness :
  coerceRow [mkColumnType "uniqueidentifier" (0, 0)]
    [VBytes [x11; x22; x33; x44; x55; x66; x77; x88; x99; xaa; xbb; xcc; xdd; xee; xff; x00]]
    !! 0%nat
  = Some (VString "11223344-5566-7788-99aa-bbccddeeff00")
  ∧ coerceRow [mkColumnType "uniqueidentifier" (0, 0)] [VBytes [x11; x22]] !! 0%nat
    = Some VNil.
Proof.
  split.
  - apply (coerce_uniqueidentifier [mkColumnType "uniqueidentifier" (0, 0)]
             [VBytes [x11; x22; x33; x44; x55; x66; x77; x88; x99; xaa; xbb; xcc; xdd; xee; xff; x00]]
             0 _ eq_refl eq_refl).
    reflexivity.
  - apply (coerce_uniqueidentifier [mkColumnType "uniqueidentifier" (0, 0)]
             [VBytes [x11; x22]] 0 _ eq_refl eq_refl).
    simpl. lia.
Defined.

(** ** Type mapper *)

Lemma case_of_elem (t : string) (values : list string) :
  case_of t values = bool_decide (t ∈ values).
Proof.
  unfold case_of. induction values as [|v values IH]; cbn [existsb].
  - symmetry. apply bool_decide_eq_false_2, not_elem_of_nil.
  - rewrite IH. destruct (String.eqb_spec t v) as [-> | Hne]; cbn [orb].
    + symmetry. apply bool_decide_eq_true_2, list_elem_of_here.
    + apply bool_decide_ext. rewrite elem_of_cons. tauto.
Qed.

Lemma getPostgresType_lookup (name : string) (p s : Z) :
  getPostgresType name p s = table_lookup typeTable (strings.ToUpper name) p s.
Proof.
  unfold getPostgresType, typeTable, table_lookup, numeric_decl.
  rewrite !case_of_elem, Z.gtb_ltb. reflexivity.
Qed.

(** C2: the type mapper is a total function of the uppercased name, the
    precision and the scale, and it is the table: the row that lists the
    name gives the declaration ([NUMERIC(p, s)] for a positive precision on
    the numeric row, bare [NUMERIC] otherwise), and a name that no row lists
    gives [TEXT]. *)
Theorem getPostgresType_table (name : string) (p s : Z) :
  getPostgresType name p s = table_lookup typeTable (strings.ToUpper name) p s
  ∧ (∀ names decl, (names, decl) ∈ typeTable → strings.ToUpper name ∈ names →
       getPostgresType name p s = decl p s)
  ∧ ((∀ names decl, (names, decl) ∈ typeTable → strings.ToUpper name ∉ names) →
       getPostgresType name p s = "TEXT")
  ∧ (strings.ToUpper name ∈ ["DECIMAL"; "NUMERIC"; "MONEY"; "SMALLMONEY"] →
       getPostgresType name p s
       = if 0 <? p then "NUMERIC(" +:+ fmt_d p +:+ ", " +:+ fmt_d s +:+ ")"
         else "NUMERIC").
Proof.
  split; [apply getPostgresType_lookup |]. rewrite getPostgresType_lookup.
  generalize (strings.ToUpper name). intros t. split; [| split].
  - intros names decl Hrow Ht. unfold typeTable in Hrow.
    repeat (apply elem_of_cons in Hrow as [[= -> ->] | Hrow];
            [repeat (apply elem_of_cons in Ht as [-> | Ht]; [reflexivity |]);
             by apply not_elem_of_nil in Ht |]).
    by apply not_elem_of_nil in Hrow.
  - intros Hnone. unfold typeTable in *. cbn [table_lookup].
    repeat (rewrite bool_decide_eq_false_2;
            [| eapply Hnone; repeat first [apply list_elem_of_here | apply list_elem_of_further]]).
    reflexivity.
  - intros Ht.
    repeat (apply elem_of_cons in Ht as [-> | Ht]; [reflexivity |]).
    by apply not_elem_of_nil in Ht.
Qed.

(** A concrete name is in none of the names of a concrete row. *)
Ltac not_listed :=
  let H := fresh in
  intros H;
  repeat (apply elem_of_cons in H as [H | H]; [vm_compute in H; discriminate H |]);
  by apply not_elem_of_nil in H.

Lemma getPostgresType_table_witness :
  getPostgresType "Decimal" 18 4 = "NUMERIC(18, 4)"
  ∧ getPostgresType "money" 0 0 = "NUMERIC"
  ∧ getPostgresType "geography" 0 0 = "TEXT".
Proof.
  split; [| split].
  - destruct (getPostgresType_table "Decimal" 18 4) as (_ & _ & _ & H).
    apply H. repeat first [apply list_elem_of_here | apply list_elem_of_further].
  - destruct (getPostgresType_table "money" 0 0) as (_ & H & _).
    apply (H ["DECIMAL"; "NUMERIC"; "MONEY"; "SMALLMONEY"] numeric_decl).
    + repeat first [apply list_elem_of_here | apply list_elem_of_further].
    + repeat first [apply list_elem_of_here | apply list_elem_of_further].
  - destruct (getPostgresType_table "geography" 0 0) as (_ & _ & H & _).
    apply H. intros names decl Hrow. unfold typeTable in Hrow.
    repeat (apply elem_of_cons in Hrow as [[= -> _] | Hrow]; [not_listed |]).
    by apply not_elem_of_nil in Hrow.
Defined.

(** ** Table ignore policy *)

Ltac in_list := repeat first [apply list_elem_of_here | apply list_elem_of_further].

Lemma map_index_ignoredList (t : string) :
  map_index ignoredList t = true
  ↔ t ∈ ["change_tables"; "ddl_history"; "lsn_time_mapping";
         "captured_columns"; "index_columns"; "comandos"].
Proof.
  unfold map_index, ignoredList.
  repeat (rewrite lookup_insert; case_decide;
          [subst t; simpl; split; [intros _; in_list | done] |]).
  rewrite lookup_empty. simpl. split; [done |]. intros Hin.
  repeat (apply elem_of_cons in Hin as [-> | Hin]; [done |]).
  by apply not_elem_of_nil in Hin.
Qed.

Lemma isIgnoredTable_iff (name : string) :
  isIgnoredTable name = true ↔ policy_skips (strings.ToLower name).
Proof.
  unfold isIgnoredTable, policy_skips. generalize (strings.ToLower name). intros t.
  rewrite <- strings_facts.HasSuffix_spec, <- strings_facts.Contains_spec.
  rewrite <- map_index_ignoredList, <- !strings_facts.eqb_true.
  destruct (String.eqb t "dtproperties"), (String.eqb t "sysdiagrams"),
    (String.eqb t "systranschemas"), (strings.HasSuffix t "_ct"),
    (strings.Contains t "_ct_"), (map_index ignoredList t); simpl; intuition discriminate.
Qed.

(** C5: the policy skips a name exactly when its lowercase form is one of
    the three system tables, or ends with [_ct] or contains [_ct_], or is one
    of the six change-tracking catalogs; the table listing keeps exactly the
    trimmed catalog names that the policy does not skip. *)
Theorem isIgnoredTable_policy (name : string) (catalog : list string) :
  (isIgnoredTable name = true ↔ policy_skips (strings.ToLower name))
  ∧ (isIgnoredTable name = false ↔ ¬ policy_skips (strings.ToLower name))
  ∧ (name ∈ listTables catalog
     ↔ ∃ raw, raw ∈ catalog ∧ name = strings.TrimSpace raw
              ∧ ¬ policy_skips (strings.ToLower (strings.TrimSpace raw))).
Proof.
  split; [apply isIgnoredTable_iff |]. split.
  - rewrite <- isIgnoredTable_iff. by destruct (isIgnoredTable name).
  - induction catalog as [|t0 catalog IH]; cbn [listTables].
    + split; [intros H; by apply not_elem_of_nil in H |].
      intros (raw & H & _). by apply not_elem_of_nil in H.
    + destruct (isIgnoredTable (strings.TrimSpace t0)) eqn:Hig; cbn [negb].
      * rewrite IH. split.
        -- intros (raw & Hin & Hraw). exists raw. split; [by apply list_elem_of_further | done].
        -- intros (raw & Hin & -> & Hno). apply elem_of_cons in Hin as [-> | Hin].
           ++ apply isIgnoredTable_iff in Hig. done.
           ++ by exists raw.
      * rewrite elem_of_cons, IH. split.
        -- intros [-> | (raw & Hin & Hraw)].
           ++ exists t0. split; [apply list_elem_of_here |]. split; [done |].
              rewrite <- isIgnoredTable_iff. by rewrite Hig.
           ++ exists raw. split; [by apply list_elem_of_further | done].
        -- intros (raw & Hin & -> & Hno). apply elem_of_cons in Hin as [-> | Hin].
           ++ by left.
           ++ right. by exists raw.
Qed.

Lemma isIgnoredTable_policy_witness :
  isIgnoredTable "Orders_CT" = true
  ∧ isIgnoredTable "clientes" = false
  ∧ "clientes" ∈ listTables ["  clientes "; "orders_ct"; "sysdiagrams"].
Proof.
  split; [| split].
  - apply (isIgnoredTable_policy "Orders_CT" []).
    right. left. left. by exists "orders".
  - reflexivity.
  - apply (isIgnoredTable_policy "clientes" ["  clientes "; "orders_ct"; "sysdiagrams"]).
    exists "  clientes ". split; [apply list_elem_of_here |]. split; [reflexivity |].
    apply (isIgnoredTable_policy "clientes" []). reflexivity.
Defined.

(** ** Constraint names *)

Lemma substring_truncated (n : nat) (s : string) :
  String.substring 0 n s = truncated n s.
Proof.
  revert s. induction n as [|n IH]; intros [|c s]; simpl; try done. by rewrite IH.
Qed.

Lemma truncated_short (n : nat) (s : string) :
  (String.length s ≤ n)%nat → truncated n s = s.
Proof.
  revert s. induction n as [|n IH]; intros [|c s] H; simpl in *; try done; try lia.
  rewrite IH; [done | lia].
Qed.

Lemma truncated_length (n : nat) (s : string) :
  (String.length (truncated n s) ≤ n)%nat.
Proof.
  revert s. induction n as [|n IH]; intros [|c s]; simpl; try lia.
  specialize (IH s). lia.
Qed.

Lemma truncate63_truncated (s : string) : truncate63 s = truncated 63 s.
Proof.
  unfold truncate63. destruct (Nat.ltb_spec 63 (String.length s)).
  - apply substring_truncated.
  - symmetry. by apply truncated_short.
Qed.

Lemma foreignKeyLoop_elem (schema tableName : string)
    (rows : list (option (string * string * string * string))) (fk : ForeignKeySQL) :
  fk ∈ foreignKeyLoop schema tableName rows →
  ∃ fkName col refTable refCol,
    Some (fkName, col, refTable, refCol) ∈ rows
    ∧ fk = mkForeignKeySQL (pgFkName tableName col refTable)
             (AddForeignKey schema tableName (pgFkName tableName col refTable)
                col schema refTable refCol).
Proof.
  induction rows as [|[[[[fkName col] refTable] refCol]|] rows IH]; cbn [foreignKeyLoop].
  - intros H. by apply not_elem_of_nil in H.
  - intros [-> | H]%elem_of_cons.
    + exists fkName, col, refTable, refCol. split; [apply list_elem_of_here | done].
    + destruct (IH H) as (a & b & c & d & Hin & ->).
      exists a, b, c, d. split; [by apply list_elem_of_further | done].
  - intros H. destruct (IH H) as (a & b & c & d & Hin & ->).
    exists a, b, c, d. split; [by apply list_elem_of_further | done].
Qed.

Lemma getForeignKeys_elem (db : SourceDB) (schema tableName : string) (fk : ForeignKeySQL) :
  fk ∈ getForeignKeys db schema tableName →
  ∃ col refTable refCol,
    fk = mkForeignKeySQL (pgFkName tableName col refTable)
           (AddForeignKey schema tableName (pgFkName tableName col refTable)
              col schema refTable refCol).
Proof.
  unfold getForeignKeys. destruct (foreignKeyRows _) as [rows | e].
  - intros H. apply foreignKeyLoop_elem in H as (a & b & c & d & _ & ->). by exists b, c, d.
  - intros H. by apply not_elem_of_nil in H.
Qed.

(** ** Foreign keys *)

Lemma migrateTable_fks (E : Engine) (schema table : string) (ms : SourceDB) (w : World) :
  (migrateTable E schema table ms w).1 = []
  ∨ (migrateTable E schema table ms w).1 = getForeignKeys ms schema table.
Proof.
  unfold migrateTable.
  destruct (queryWithRetry _ _ _) as [rows | e]; [| by left].
  destruct (exec E (CreateTable _ _ _) _) as [pg [e |]]; [by left |].
  destruct (copyRows _ _ _ _ _ _ _ _) as [count pg']. by right.
Qed.

Lemma worker_fks (E : Engine) (schema : string) (ms : SourceDB) (jobs : list string)
    (fkChan : list (list ForeignKeySQL)) (w : World) (fks : list ForeignKeySQL) :
  fks ∈ (worker E schema ms jobs fkChan w).1 →
  fks ∈ fkChan ∨ ∃ table, table ∈ jobs ∧ fks = getForeignKeys ms schema table.
Proof.
  revert fkChan w. induction jobs as [|table jobs IH]; intros fkChan w; cbn [worker].
  - by left.
  - pose proof (migrateTable_fks E schema table ms w) as Hfk.
    destruct (migrateTable E schema table ms w) as [fks0 w0]. cbn [fst] in Hfk.
    intros [Hin | (t & Ht & ->)]%IH.
    + destruct Hfk as [-> | ->]; [by left |].
      destruct (0 <? length _)%nat; [| by left].
      apply elem_of_app in Hin as [Hin | Hin]; [by left |].
      apply list_elem_of_singleton in Hin as ->.
      right. exists table. split; [apply list_elem_of_here | done].
    + right. exists t. split; [by apply list_elem_of_further | done].
Qed.



(** ** The copy of one table *)

Lemma append_rows_nil (t : Table) : append_rows [] t = t.
Proof. destruct t as [[cols rows pk] fks]. unfold append_rows. simpl. by rewrite app_nil_r. Qed.

Lemma append_rows_app (r1 r2 : list (list Value)) (t : Table) :
  append_rows r2 (append_rows r1 t) = append_rows (r1 ++ r2) t.
Proof. unfold append_rows. simpl. by rewrite app_assoc. Qed.

Lemma tx_commit_lookup (ns tbl : string) (tx : Tx) (pg : PG) (t : Table) :
  tables pg !! (ns, tbl) = Some t →
  tx_commit ns tbl tx pg
  = mkPG (schemas pg) (<[(ns, tbl) := append_rows (tx_rows tx) t]> (tables pg)).
Proof.
  intros Ht. unfold tx_commit, tx_rows. destruct (failed tx).
  - rewrite append_rows_nil, insert_id by done. by destruct pg.
  - f_equal. apply map_eq. intros k. rewrite lookup_alter, lookup_insert.
    case_decide; [subst k; by rewrite Ht | done].
Qed.

Lemma stmt_exec_step (E : Engine) (ns tbl : string) (finalVals : list Value)
    (tx : Tx) (pg : PG) (t : Table) :
  tables pg !! (ns, tbl) = Some t →
  (stmt_exec E ns tbl finalVals tx pg).1
  = tx_step E ns tbl (b_cols (body t)) finalVals tx.
Proof.
  intros Ht. unfold stmt_exec, tx_step. rewrite Ht.
  destruct (failed tx); [done |]. by destruct (row_err E _ _ _ _).
Qed.

Lemma scanned_cons_Some (values : list Value) (scans : list (option (list Value))) :
  scanned (Some values :: scans) = scanned scans + 1.
Proof.
  unfold scanned. rewrite filter_cons_True by (by eexists). simpl length. lia.
Qed.

Lemma scanned_cons_None (scans : list (option (list Value))) :
  scanned (None :: scans) = scanned scans.
Proof.
  unfold scanned. rewrite filter_cons_False; [done |]. by intros [? ?].
Qed.

Lemma copyRows_committed (E : Engine) (ns tbl : string) (colTypes : list ColumnType)
    (scans : list (option (list Value))) (tx : Tx) (count : Z) (pg : PG) (t : Table) :
  tables pg !! (ns, tbl) = Some t →
  copyRows E ns tbl colTypes scans tx count pg
  = (count + scanned scans,
     mkPG (schemas pg)
       (<[(ns, tbl) :=
            append_rows (committed E ns tbl (b_cols (body t)) colTypes scans tx count) t]>
          (tables pg))).
Proof.
  revert tx count pg t.
  induction scans as [|[values|] scans IH]; intros tx count pg t Ht;
    cbn [copyRows committed].
  - rewrite (tx_commit_lookup _ _ _ _ t Ht). f_equal. unfold scanned. simpl. lia.
  - rewrite (stmt_exec_step E _ _ _ _ _ t Ht), scanned_cons_Some.
    destruct (Z.rem (count + 1) BatchSize =? 0).
    + rewrite (tx_commit_lookup _ _ _ _ t Ht).
      erewrite IH by (cbn [tables]; apply lookup_insert_eq).
      cbn [schemas tables b_cols body append_rows].
      rewrite insert_insert_eq. f_equal; [lia |]. f_equal. f_equal.
      by rewrite <- append_rows_app.
    + rewrite (IH _ _ _ t Ht). f_equal. lia.
  - rewrite scanned_cons_None. by apply IH.
Qed.

Lemma exec_primary_key (E : Engine) (schema table : string) (pkCols : list string)
    (pg : PG) (t : Table) :
  tables pg !! (schema, table) = Some t →
  (if (0 <? length pkCols)%nat
   then (exec E (AddPrimaryKey schema table (pkName schema table) pkCols) pg).1
   else pg)
  = mkPG (schemas pg)
      (<[(schema, table) := withPrimaryKey E schema table pkCols t]> (tables pg)).
Proof.
  intros Ht. unfold withPrimaryKey. destruct (0 <? length pkCols)%nat.
  - cbn [exec]. rewrite Ht.
    destruct (b_pk (body t)); [| destruct (pk_err E _ _ _ _ _)]; cbn [fst];
      try done; rewrite insert_id by done; by destruct pg.
  - rewrite insert_id by done. by destruct pg.
Qed.

Lemma drop_cascade_lookup (k : string * string) (pg : PG) :
  tables (drop_cascade k pg) !! k = None.
Proof. unfold drop_cascade. cbn [tables]. by rewrite lookup_fmap, lookup_delete_eq. Qed.

Lemma exec_create_dropped (E : Engine) (schema table : string)
    (cols : list (string * string)) (pg : PG) :
  exec E (CreateTable schema table cols) (drop_cascade (schema, table) pg)
  = if bool_decide (schema ∈ schemas pg) then
      match create_err E schema table cols with
      | None =>
          (mkPG (schemas pg)
             (<[(schema, table) := freshTable cols]>
                (tables (drop_cascade (schema, table) pg))), None)
      | Some e => (drop_cascade (schema, table) pg, Some e)
      end
    else (drop_cascade (schema, table) pg, Some "schema does not exist").
Proof.
  cbn [exec]. rewrite drop_cascade_lookup.
  change (schemas (drop_cascade (schema, table) pg)) with (schemas pg).
  reflexivity.
Qed.

(** The target after [migrateTable] is [migrated]: the log plays no part. *)
Lemma migrateTable_target (E : Engine) (schema table : string) (ms : SourceDB) (w : World) :
  target (migrateTable E schema table ms w).2 = migrated E schema table ms (target w).
Proof.
  unfold migrateTable, migrated, creatable.
  destruct (queryWithRetry _ _ _) as [rows | e]; [| done].
  unfold on_target. cbn [target logs].
  change ((exec E (DropTable schema table) (target w)).1)
    with (drop_cascade (schema, table) (target w)).
  rewrite exec_create_dropped.
  destruct (bool_decide (schema ∈ schemas (target w))); [| done].
  destruct (create_err E schema table _) as [e |] eqn:Hc; [done |].
  cbn [andb]. rewrite bool_decide_eq_true_2 by done.
  erewrite copyRows_committed by (cbn [tables]; apply lookup_insert_eq).
  erewrite exec_primary_key by (cbn [tables]; apply lookup_insert_eq).
  cbn [schemas tables b_cols body freshTable]. rewrite !insert_insert_eq.
  by destruct (0 <? _).
Qed.

Lemma migrateTable_logs (E : Engine) (schema table : string) (ms : SourceDB) (w : World)
    (rows : Cursor) :
  queryWithRetry (Query (TableOf ms table)) (seqZ 1 MaxRetries) (Err "") = Ok rows →
  creatable E schema table rows (target w) = true →
  logs (migrateTable E schema table ms w).2
  = logs w ++ (if 0 <? scanned (Scans rows)
               then ["[OK] " +:+ table +:+ ": " +:+ fmt_d (scanned (Scans rows))
                     +:+ " filas"]
               else []).
Proof.
  intros Hq Hc. unfold migrateTable. rewrite Hq.
  unfold on_target. cbn [target logs].
  change ((exec E (DropTable schema table) (target w)).1)
    with (drop_cascade (schema, table) (target w)).
  rewrite exec_create_dropped.
  unfold creatable in Hc. apply andb_true_iff in Hc as [Hs Hc].
  rewrite Hs. apply bool_decide_eq_true_1 in Hc. rewrite Hc.
  erewrite copyRows_committed by (cbn [tables]; apply lookup_insert_eq).
  rewrite Z.add_0_l.
  destruct (0 <? scanned (Scans rows)); cbn [snd logs logPrint]; [done |].
  by rewrite app_nil_r.
Qed.

Lemma tx_step_rows (E : Engine) (ns tbl : string) (cols : list (string * string))
    (finalVals : list Value) (tx : Tx) :
  (length (tx_rows (tx_step E ns tbl cols finalVals tx)) ≤ length (tx_rows tx) + 1)%nat.
Proof.
  unfold tx_step, tx_rows. destruct (failed tx) eqn:Hf; [rewrite Hf; simpl; lia |].
  destruct (row_err E _ _ _ _); cbn [failed pending]; [simpl; lia |].
  rewrite length_app. simpl. lia.
Qed.

Lemma begin_tx_rows (E : Engine) : tx_rows (begin_tx E) = [].
Proof. unfold begin_tx, tx_rows. by destruct (set_err E). Qed.

Lemma committed_length (E : Engine) (ns tbl : string) (cols : list (string * string))
    (colTypes : list ColumnType) (scans : list (option (list Value)))
    (tx : Tx) (count : Z) :
  (length (committed E ns tbl cols colTypes scans tx count)
   ≤ length (tx_rows tx) + length scans)%nat.
Proof.
  revert tx count. induction scans as [|[values|] scans IH]; intros tx count;
    cbn [committed length].
  - lia.
  - pose proof (tx_step_rows E ns tbl cols (coerceRow colTypes values) tx) as Hstep.
    destruct (Z.rem (count + 1) BatchSize =? 0).
    + rewrite length_app.
      specialize (IH (begin_tx E) (count + 1)). rewrite begin_tx_rows in IH.
      simpl in IH. lia.
    + specialize (IH (tx_step E ns tbl cols (coerceRow colTypes values) tx) (count + 1)).
      lia.
  - specialize (IH tx count). lia.
Qed.

Lemma rowCount_rebuilt (E : Engine) (schema table : string) (ms : SourceDB) (rows : Cursor) :
  length (b_rows (body (rebuilt E schema table ms rows)))
  = length (committed E schema table (columnDefs (Columns rows) (ColumnTypes rows))
              (ColumnTypes rows) (Scans rows) (begin_tx E) 0).
Proof.
  unfold rebuilt, withPrimaryKey.
  destruct (0 <? length _)%nat; [| done].
  cbn [append_rows freshTable body b_pk b_rows b_cols].
  by destruct (pk_err E _ _ _ _ _).
Qed.

Lemma creatable_exec (E : Engine) (schema table : string) (rows : Cursor) (pg : PG) :
  (exec E (CreateTable schema table (columnDefs (Columns rows) (ColumnTypes rows)))
     (exec E (DropTable schema table) pg).1).2 = None
  ↔ creatable E schema table rows pg = true.
Proof.
  change ((exec E (DropTable schema table) pg).1) with (drop_cascade (schema, table) pg).
  rewrite exec_create_dropped. unfold creatable.
  destruct (bool_decide (schema ∈ schemas pg)); [| done].
  destruct (create_err E schema table _) as [e |]; cbn [snd andb].
  - by rewrite bool_decide_eq_false_2.
  - by rewrite bool_decide_eq_true_2.
Qed.

Lemma ok_line_not_error (table rest : string) :
  is_error_line ("[OK] " +:+ table +:+ rest) = false.
Proof.
  unfold is_error_line, strings.HasPrefix. cbn [String.append String.length String.substring].
  cbn [String.eqb Ascii.eqb Bool.eqb]. by rewrite !andb_false_r.
Qed.




Lemma rebuilt_pk (E : Engine) (schema table : string) (ms : SourceDB) (rows : Cursor) :
  b_pk (body (rebuilt E schema table ms rows)) = None
  ∨ b_pk (body (rebuilt E schema table ms rows))
    = Some (pkName schema table, getPrimaryKeyColumns ms table).
Proof.
  unfold rebuilt, withPrimaryKey.
  destruct (0 <? length _)%nat; [| by left].
  cbn [append_rows freshTable body b_pk].
  destruct (pk_err E _ _ _ _ _); [by left | by right].
Qed.



(** ** The run on the target alone *)

Lemma migrateTable_fst (E : Engine) (schema table : string) (ms : SourceDB) (w : World) :
  (migrateTable E schema table ms w).1 = migratedFks E schema table ms (target w).
Proof.
  unfold migrateTable, migratedFks, creatable.
  destruct (queryWithRetry _ _ _) as [rows | e]; [| done].
  unfold on_target. cbn [target logs].
  change ((exec E (DropTable schema table) (target w)).1)
    with (drop_cascade (schema, table) (target w)).
  rewrite exec_create_dropped.
  destruct (bool_decide (schema ∈ schemas (target w))); [| done].
  destruct (create_err E schema table _) as [e |] eqn:Hc; [done |].
  cbn [andb]. rewrite bool_decide_eq_true_2 by done.
  by destruct (copyRows _ _ _ _ _ _ _ _).
Qed.

Lemma worker_workerT (E : Engine) (schema : string) (ms : SourceDB) (jobs : list string)
    (fkChan : list (list ForeignKeySQL)) (w : World) :
  (worker E schema ms jobs fkChan w).1 = (workerT E schema ms jobs fkChan (target w)).1
  ∧ target (worker E schema ms jobs fkChan w).2
    = (workerT E schema ms jobs fkChan (target w)).2.
Proof.
  revert fkChan w. induction jobs as [|table jobs IH]; intros fkChan w;
    cbn [worker workerT]; [done |].
  pose proof (migrateTable_fst E schema table ms w) as Hfst.
  pose proof (migrateTable_target E schema table ms w) as Htgt.
  destruct (migrateTable E schema table ms w) as [fks w0]. cbn [fst snd] in *.
  rewrite <- Hfst, <- Htgt. apply IH.
Qed.

Lemma logPrint_target (line : string) (w : World) : target (logPrint line w) = target w.
Proof. done. Qed.

Lemma applyForeignKeys_target (E : Engine) (fkChan : list (list ForeignKeySQL)) (w : World) :
  target (applyForeignKeys E fkChan w) = applyT E (concat fkChan) (target w).
Proof.
  unfold applyForeignKeys, applyT.
  assert (∀ fks w0,
            target (foldl (λ w fk, on_target (λ pg, (exec E (SQL fk) pg).1) w) w0 fks)
            = foldl (λ pg fk, (exec E (SQL fk) pg).1) (target w0) fks) as H.
  { intros fks. induction fks as [|fk fks IH]; intros w0; cbn [foldl]; [done |].
    by rewrite IH. }
  by rewrite H.
Qed.

Lemma processDatabase_target (E : Engine) (dbName : string) (ms : SourceDB) (w : World) :
  target (processDatabase E dbName ms w) = processT E dbName ms (target w).
Proof.
  unfold processDatabase, processT.
  set (w1 := match exec E SetSynchronousCommitOff _ with (_, Some e) => _ | (pg, None) => _ end).
  assert (target w1 = target w) as H1.
  { unfold w1. cbn [exec]. by destruct (set_err E). }
  set (w2 := match exec E (CreateSchema dbName) (target w1) with
             | (_, Some e) => _ | (pg, None) => _ end).
  assert (target w2 = (exec E (CreateSchema dbName) (target w)).1) as H2.
  { unfold w2. rewrite H1. cbn [exec]. by destruct (schema_err E dbName). }
  destruct (OpenErr ms); [by rewrite logPrint_target |].
  destruct (TableNames ms) as [names | e]; [| by rewrite logPrint_target].
  set (w3 := logPrint _ w2).
  assert (target w3 = (exec E (CreateSchema dbName) (target w)).1) as H3 by done.
  destruct (worker_workerT E dbName ms (listTables names) [] w3) as [Hch Htg].
  destruct (worker E dbName ms (listTables names) [] w3) as [ch w4].
  cbn [fst snd] in Hch, Htg. rewrite H3 in Hch, Htg.
  destruct (workerT E dbName ms (listTables names) [] _) as [ch' pg'].
  cbn [fst snd] in Hch, Htg. subst ch' pg'.
  by rewrite applyForeignKeys_target, logPrint_target.
Qed.

Lemma foldl_processDatabase_target (E : Engine) (sources : string → SourceDB)
    (dbs : list string) (w : World) :
  target (foldl (λ w dbName, processDatabase E dbName (sources dbName) w) w dbs)
  = runT E sources dbs (target w).
Proof.
  unfold runT. revert w. induction dbs as [|a dbs IH]; intros w; cbn [foldl]; [done |].
  by rewrite IH, processDatabase_target.
Qed.

(** The target after [main]: untouched when a required variable is
    missing, the run over [SourceDBs] otherwise. *)
Lemma main_target (E : Engine) (getenv : string → string) (sources : string → SourceDB)
    (w : World) :
  target (main E getenv sources w)
  = match filter (λ v, getenv v = EmptyString) ["PG_HOST"; "MSSQL_HOST"; "MSSQL_PASS"] with
    | [] => runT E sources SourceDBs (target w)
    | _ :: _ => target w
    end.
Proof.
  unfold main. destruct (filter _ _) as [|v vs].
  - by rewrite logPrint_target, foldl_processDatabase_target, logPrint_target.
  - by rewrite !logPrint_target.
Qed.

(** ** Two runs side by side *)

Section Idempotence.

Variable E : Engine.

Implicit Types (D P : gset (string * string)) (T : gmap (string * string) Table).
Implicit Types (k : string * string) (t : Table) (pg : PG).

Lemma mask_empty t : mask ∅ t = t.
Proof.
  destruct t as [b l]. unfold mask. cbn [body fks]. f_equal.
  induction l as [|f l IH]; [done |].
  rewrite filter_cons_True by apply not_elem_of_empty. by rewrite IH.
Qed.

Lemma mask_body D t : body (mask D t) = body t.
Proof. done. Qed.

Lemma mask_strip D k t : k ∈ D → mask D (strip_refs k t) = mask D t.
Proof.
  intros Hk. unfold mask, strip_refs. cbn [body fks]. f_equal.
  induction (fks t) as [|f l IH]; [done |].
  destruct (decide (fk_ref f = k)) as [Heq | Hne].
  - rewrite (filter_cons_False (λ f, fk_ref f ≠ k)) by (intros H; by apply H).
    rewrite (filter_cons_False (λ f, fk_ref f ∉ D)) by (rewrite Heq; intros H; by apply H).
    done.
  - rewrite (filter_cons_True (λ f, fk_ref f ≠ k)) by done.
    destruct (decide (fk_ref f ∈ D)).
    + rewrite !(filter_cons_False (λ f, fk_ref f ∉ D)) by (intros H; by apply H). done.
    + rewrite !(filter_cons_True (λ f, fk_ref f ∉ D)) by done. by rewrite IH.
Qed.

Lemma mask_strip_comm D k t :
  mask (D ∖ {[k]}) (strip_refs k t) = strip_refs k (mask D t).
Proof.
  unfold mask, strip_refs. cbn [body fks]. f_equal.
  induction (fks t) as [|f l IH]; [done |].
  destruct (decide (fk_ref f = k)) as [Heq | Hne].
  - rewrite (filter_cons_False (λ f, fk_ref f ≠ k) f l) by (intros H; by apply H).
    destruct (decide (fk_ref f ∈ D)).
    + rewrite (filter_cons_False (λ f, fk_ref f ∉ D)) by (intros H; by apply H). done.
    + rewrite (filter_cons_True (λ f, fk_ref f ∉ D)) by done.
      rewrite (filter_cons_False (λ f, fk_ref f ≠ k)) by (intros H; by apply H). done.
  - rewrite (filter_cons_True (λ f, fk_ref f ≠ k) f l) by done.
    destruct (decide (fk_ref f ∈ D)).
    + rewrite (filter_cons_False (λ f, fk_ref f ∉ D)) by (intros H; by apply H).
      rewrite (filter_cons_False (λ f, fk_ref f ∉ D ∖ {[k]}));
        [done | intros H; apply H; by apply elem_of_difference, conj, not_elem_of_singleton].
    + rewrite (filter_cons_True (λ f, fk_ref f ∉ D)) by done.
      rewrite (filter_cons_True (λ f, fk_ref f ∉ D ∖ {[k]}))
        by (intros [H _]%elem_of_difference; done).
      rewrite (filter_cons_True (λ f, fk_ref f ≠ k)) by done. by rewrite IH.
Qed.

Lemma mask_mask D D' t : D ⊆ D' → mask D' (mask D t) = mask D' t.
Proof.
  intros Hsub. unfold mask. cbn [body fks]. f_equal.
  induction (fks t) as [|f l IH]; [done |].
  destruct (decide (fk_ref f ∈ D)).
  - rewrite (filter_cons_False (λ f, fk_ref f ∉ D)) by (intros H; by apply H).
    rewrite (filter_cons_False (λ f, fk_ref f ∉ D')) by (intros H; apply H; by apply Hsub).
    done.
  - rewrite (filter_cons_True (λ f, fk_ref f ∉ D)) by done.
    destruct (decide (fk_ref f ∈ D')).
    + rewrite !(filter_cons_False (λ f, fk_ref f ∉ D')) by (intros H; by apply H). done.
    + rewrite !(filter_cons_True (λ f, fk_ref f ∉ D')) by done. by rewrite IH.
Qed.

Lemma related_weaken D P D' P' T T' :
  related D P T T' → D ⊆ D' → P' ⊆ P → related D' P' T T'.
Proof.
  intros [HP HD] HsubD HsubP. split.
  - intros k Hk. apply HP. by apply HsubP.
  - intros k Hk. assert (k ∉ D) as HkD by (intros H; apply Hk; by apply HsubD).
    specialize (HD k HkD).
    destruct (T !! k) as [t |], (T' !! k) as [t' |];
      cbn [fmap option_fmap option_map] in *; try done.
    apply (inj Some) in HD. f_equal.
    by rewrite <- (mask_mask D D' t), <- (mask_mask D D' t'), HD.
Qed.

Lemma related_body D P T T' k :
  related D P T T' → k ∈ P ∨ k ∉ D → body <$> T !! k = body <$> T' !! k.
Proof.
  intros [HP HD] [Hk | Hk].
  - by rewrite (HP k Hk).
  - specialize (HD k Hk).
    destruct (T !! k) as [t |], (T' !! k) as [t' |];
      cbn [fmap option_fmap option_map] in *; try done.
    apply (inj Some) in HD. f_equal. exact (f_equal body HD).
Qed.

Lemma related_empty P T T' : related ∅ P T T' → T = T'.
Proof.
  intros [_ HD]. apply map_eq. intros k. specialize (HD k (not_elem_of_empty k)).
  destruct (T !! k) as [t |], (T' !! k) as [t' |];
      cbn [fmap option_fmap option_map] in *; try done.
  apply (inj Some) in HD. by rewrite !mask_empty in HD; subst.
Qed.

Lemma fmap_mask_strip_comm D k (o : option Table) :
  mask (D ∖ {[k]}) <$> (strip_refs k <$> o) = strip_refs k <$> (mask D <$> o).
Proof. destruct o as [t |]; [| done]. cbn. by rewrite mask_strip_comm. Qed.

Lemma fmap_mask_strip D k (o : option Table) :
  k ∈ D → mask D <$> (strip_refs k <$> o) = mask D <$> o.
Proof. intros Hk. destruct o as [t |]; [| done]. cbn. by rewrite mask_strip. Qed.

(** *** One table *)

Lemma migrated_schemas schema table ms pg :
  schemas (migrated E schema table ms pg) = schemas pg.
Proof. unfold migrated. by destruct (queryWithRetry _ _ _). Qed.

Lemma migrated_closed schema table ms pg :
  opens ms table = false → migrated E schema table ms pg = pg.
Proof. unfold opens, migrated. by destruct (queryWithRetry _ _ _). Qed.

Lemma migrated_open_ne schema table ms pg k :
  opens ms table = true → k ≠ (schema, table) →
  tables (migrated E schema table ms pg) !! k
  = strip_refs (schema, table) <$> tables pg !! k.
Proof.
  unfold opens, migrated. destruct (queryWithRetry _ _ _) as [rows | e]; [| done].
  intros _ Hne. cbn [tables].
  destruct (creatable E schema table rows pg).
  - by rewrite lookup_insert_ne, lookup_fmap, lookup_delete_ne.
  - by rewrite lookup_fmap, lookup_delete_ne.
Qed.

Lemma migrated_open_eq schema table ms pg :
  opens ms table = true →
  ∃ rows,
    tables (migrated E schema table ms pg) !! (schema, table)
    = if creatable E schema table rows pg
      then Some (rebuilt E schema table ms rows) else None.
Proof.
  unfold opens, migrated. destruct (queryWithRetry _ _ _) as [rows | e]; [| done].
  intros _. exists rows. cbn [tables].
  destruct (creatable E schema table rows pg).
  - by rewrite lookup_insert_eq.
  - by rewrite lookup_fmap, lookup_delete_eq.
Qed.

Lemma creatable_agree schema table rows pg pg' :
  (schema ∈ schemas pg ↔ schema ∈ schemas pg') →
  creatable E schema table rows pg = creatable E schema table rows pg'.
Proof. intros H. unfold creatable. f_equal. by apply bool_decide_ext. Qed.

Lemma migratedFks_agree schema table ms pg pg' :
  (schema ∈ schemas pg ↔ schema ∈ schemas pg') →
  migratedFks E schema table ms pg = migratedFks E schema table ms pg'.
Proof.
  intros H. unfold migratedFks. destruct (queryWithRetry _ _ _) as [rows | e]; [| done].
  by rewrite (creatable_agree schema table rows pg pg' H).
Qed.

(** After the copy of a table in both runs the table is the same in both,
    and it no longer needs to be excepted. *)
Lemma migrated_lockstep schema table ms pg pg' D P :
  (schema ∈ schemas pg ↔ schema ∈ schemas pg') →
  related D P (tables pg) (tables pg') →
  related (D ∖ dropped1 schema ms table) (P ∪ dropped1 schema ms table)
    (tables (migrated E schema table ms pg)) (tables (migrated E schema table ms pg')).
Proof.
  intros Hs Hrel. unfold dropped1. destruct (opens ms table) eqn:Hopen.
  - destruct Hrel as [HP HD].
    assert (tables (migrated E schema table ms pg) !! (schema, table)
            = tables (migrated E schema table ms pg') !! (schema, table)) as Hsame.
    { unfold opens, migrated in *.
      destruct (queryWithRetry _ _ _) as [rows | e]; [| done]. cbn [tables].
      rewrite (creatable_agree schema table rows pg pg' Hs).
      destruct (creatable E schema table rows pg').
      - by rewrite !lookup_insert_eq.
      - by rewrite !lookup_fmap, !lookup_delete_eq. }
    split.
    + intros k Hk. destruct (decide (k = (schema, table))) as [-> | Hne]; [done |].
      rewrite !migrated_open_ne by done. rewrite HP; [done |].
      apply elem_of_union in Hk as [Hk | Hk]; [done |].
      by apply elem_of_singleton in Hk.
    + intros k Hk. destruct (decide (k = (schema, table))) as [-> | Hne].
      * by rewrite Hsame.
      * rewrite !migrated_open_ne by done.
        assert (k ∉ D) as HkD.
        { intros H. apply Hk, elem_of_difference. split; [done |].
          by apply not_elem_of_singleton. }
        specialize (HD k HkD).
        by rewrite !fmap_mask_strip_comm, HD.
  - rewrite !migrated_closed by done.
    eapply related_weaken; [exact Hrel | |].
    + intros k Hk. apply elem_of_difference. split; [done | apply not_elem_of_empty].
    + intros k [H | H]%elem_of_union; [done | by apply not_elem_of_empty in H].
Qed.

(** A copy leaves the other tables as they were, up to the foreign keys
    that referenced the copied table. *)
Lemma migrated_frame schema table ms pg D k :
  dropped1 schema ms table ⊆ D → k ∉ D →
  mask D <$> tables (migrated E schema table ms pg) !! k = mask D <$> tables pg !! k.
Proof.
  unfold dropped1. intros Hsub Hk. destruct (opens ms table) eqn:Hopen.
  - assert ((schema, table) ∈ D) as Hin by (by apply Hsub, elem_of_singleton).
    rewrite migrated_open_ne; [| done | intros ->; done].
    by apply fmap_mask_strip.
  - by rewrite migrated_closed.
Qed.

(** *** The tables of one database *)

Lemma droppedOf_cons schema ms table jobs :
  droppedOf schema ms (table :: jobs)
  = dropped1 schema ms table ∪ droppedOf schema ms jobs.
Proof. done. Qed.

Lemma droppedOf_fst schema ms jobs k : k ∈ droppedOf schema ms jobs → k.1 = schema.
Proof.
  induction jobs as [|table jobs IH]; cbn [droppedOf].
  - by intros H%not_elem_of_empty.
  - intros [H | H]%elem_of_union; [| by apply IH].
    destruct (opens ms table).
    + by apply elem_of_singleton in H as ->.
    + by apply not_elem_of_empty in H.
Qed.

Lemma workerT_schemas schema ms jobs fkChan pg :
  schemas (workerT E schema ms jobs fkChan pg).2 = schemas pg.
Proof.
  revert fkChan pg. induction jobs as [|table jobs IH]; intros fkChan pg;
    cbn [workerT]; [done |].
  by rewrite IH, migrated_schemas.
Qed.

Lemma workerT_lockstep schema ms jobs fkChan pg pg' D P :
  (schema ∈ schemas pg ↔ schema ∈ schemas pg') →
  related D P (tables pg) (tables pg') →
  (workerT E schema ms jobs fkChan pg).1 = (workerT E schema ms jobs fkChan pg').1
  ∧ related (D ∖ droppedOf schema ms jobs) (P ∪ droppedOf schema ms jobs)
      (tables (workerT E schema ms jobs fkChan pg).2)
      (tables (workerT E schema ms jobs fkChan pg').2).
Proof.
  revert fkChan pg pg' D P.
  induction jobs as [|table jobs IH]; intros fkChan pg pg' D P Hs Hrel;
    cbn [workerT droppedOf].
  - split; [done |].
    eapply related_weaken; [exact Hrel | |].
    + intros k Hk. apply elem_of_difference. split; [done | apply not_elem_of_empty].
    + intros k [H | H]%elem_of_union; [done | by apply not_elem_of_empty in H].
  - rewrite (migratedFks_agree schema table ms pg pg' Hs).
    pose proof (migrated_lockstep schema table ms pg pg' D P Hs Hrel) as Hstep.
    destruct (IH (if (0 <? length (migratedFks E schema table ms pg'))%nat
                  then fkChan ++ [migratedFks E schema table ms pg'] else fkChan)
                (migrated E schema table ms pg) (migrated E schema table ms pg')
                _ _ ltac:(by rewrite !migrated_schemas) Hstep) as [Hfk Hrel'].
    split; [exact Hfk |].
    eapply related_weaken; [exact Hrel' | |].
    + fold (dropped1 schema ms table). intros k. rewrite !elem_of_difference, elem_of_union.
      tauto.
    + fold (dropped1 schema ms table). intros k. rewrite !elem_of_union. tauto.
Qed.

Lemma workerT_frame schema ms jobs fkChan pg D k :
  droppedOf schema ms jobs ⊆ D → k ∉ D →
  mask D <$> tables (workerT E schema ms jobs fkChan pg).2 !! k
  = mask D <$> tables pg !! k.
Proof.
  revert fkChan pg. induction jobs as [|table jobs IH]; intros fkChan pg Hsub Hk;
    cbn [workerT]; [done |].
  rewrite droppedOf_cons in Hsub. apply union_subseteq in Hsub as [H1 Hrest].
  rewrite IH by done. by apply migrated_frame.
Qed.

Lemma migratedFks_open schema table ms pg :
  migratedFks E schema table ms pg ≠ [] →
  opens ms table = true
  ∧ migratedFks E schema table ms pg = getForeignKeys ms schema table.
Proof.
  unfold migratedFks, opens. destruct (queryWithRetry _ _ _) as [rows | e]; [| done].
  by destruct (creatable E schema table rows pg).
Qed.

Lemma workerT_fks schema ms jobs fkChan pg fks :
  fks ∈ (workerT E schema ms jobs fkChan pg).1 →
  fks ∈ fkChan
  ∨ ∃ table, (schema, table) ∈ droppedOf schema ms jobs
             ∧ fks = getForeignKeys ms schema table.
Proof.
  revert fkChan pg. induction jobs as [|table jobs IH]; intros fkChan pg;
    cbn [workerT]; [by left |].
  intros [Hin | (t & Ht & ->)]%IH.
  - destruct (migratedFks E schema table ms pg) as [|fk0 l] eqn:Hm; [by left |].
    cbn [length Nat.ltb Nat.leb] in Hin.
    apply elem_of_app in Hin as [Hin | Hin]; [by left |].
    apply list_elem_of_singleton in Hin as ->.
    destruct (migratedFks_open schema table ms pg) as [Hopen Heq]; [by rewrite Hm |].
    right. exists table. rewrite <- Hm, Heq. split; [| done].
    rewrite droppedOf_cons. apply elem_of_union_l. unfold dropped1. rewrite Hopen.
    by apply elem_of_singleton.
  - right. exists t. split; [| done]. rewrite droppedOf_cons. by apply elem_of_union_r.
Qed.

(** *** The foreign keys of one database *)

Lemma related_insert D P T T' k t :
  related D P T T' → related D P (<[k := t]> T) (<[k := t]> T').
Proof.
  intros [HP HD]. split.
  - intros j Hj. destruct (decide (k = j)) as [-> | Hne].
    + by rewrite !lookup_insert_eq.
    + rewrite !lookup_insert_ne by done. by apply HP.
  - intros j Hj. destruct (decide (k = j)) as [-> | Hne].
    + by rewrite !lookup_insert_eq.
    + rewrite !lookup_insert_ne by done. by apply HD.
Qed.

Lemma exec_fk_schemas ns tbl name col refns reftbl refcol pg :
  schemas (exec E (AddForeignKey ns tbl name col refns reftbl refcol) pg).1 = schemas pg.
Proof.
  cbn [exec]. destruct (tables pg !! (ns, tbl)) as [t |]; [| done].
  by destruct (fk_err E _ _ _ _ _).
Qed.

Lemma exec_fk_lookup_ne ns tbl name col refns reftbl refcol pg k :
  k ≠ (ns, tbl) →
  tables (exec E (AddForeignKey ns tbl name col refns reftbl refcol) pg).1 !! k
  = tables pg !! k.
Proof.
  intros Hne. cbn [exec]. destruct (tables pg !! (ns, tbl)) as [t |]; [| done].
  destruct (fk_err E _ _ _ _ _); [done |]. cbn [fst tables].
  by rewrite lookup_insert_ne.
Qed.

Lemma exec_fk_lockstep ns tbl name col refns reftbl refcol pg pg' D P :
  related D P (tables pg) (tables pg') →
  (ns, tbl) ∈ P →
  (refns, reftbl) ∈ P ∨ (refns, reftbl) ∉ D →
  related D P
    (tables (exec E (AddForeignKey ns tbl name col refns reftbl refcol) pg).1)
    (tables (exec E (AddForeignKey ns tbl name col refns reftbl refcol) pg').1).
Proof.
  intros Hrel Horigin Href. cbn [exec].
  rewrite <- (proj1 Hrel (ns, tbl) Horigin).
  rewrite <- (related_body D P _ _ (refns, reftbl) Hrel Href).
  destruct (tables pg !! (ns, tbl)) as [t |]; [| done].
  destruct (fk_err E _ _ _ _ _); [done |]. cbn [fst tables].
  by apply related_insert.
Qed.

Lemma applyT_schemas schema O allFks pg :
  Forall (fk_of schema O) allFks → schemas (applyT E allFks pg) = schemas pg.
Proof.
  unfold applyT. intros Hall. revert pg.
  induction Hall as [|fk fks (table & name & col & refTable & refCol & Hsql & _) _ IH];
    intros pg; cbn [foldl]; [done |].
  by rewrite IH, Hsql, exec_fk_schemas.
Qed.

Lemma applyT_lockstep schema O allFks pg pg' D P :
  Forall (fk_of schema O) allFks →
  O ⊆ P →
  (∀ k, k.1 = schema → k ∈ P ∨ k ∉ D) →
  related D P (tables pg) (tables pg') →
  related D P (tables (applyT E allFks pg)) (tables (applyT E allFks pg')).
Proof.
  unfold applyT. intros Hall HO Href. revert pg pg'.
  induction Hall as [|fk fks (table & name & col & refTable & refCol & Hsql & Hin) _ IH];
    intros pg pg' Hrel; cbn [foldl]; [done |].
  apply IH. rewrite Hsql. apply exec_fk_lockstep; [done | by apply HO | by apply Href].
Qed.

Lemma applyT_frame schema O allFks pg D k :
  Forall (fk_of schema O) allFks → O ⊆ D → k ∉ D →
  tables (applyT E allFks pg) !! k = tables pg !! k.
Proof.
  unfold applyT. intros Hall HO Hk. revert pg.
  induction Hall as [|fk fks (table & name & col & refTable & refCol & Hsql & Hin) _ IH];
    intros pg; cbn [foldl]; [done |].
  rewrite IH, Hsql. apply exec_fk_lookup_ne. intros ->. apply Hk. by apply HO.
Qed.

Lemma workerT_fk_of schema ms jobs pg :
  Forall (fk_of schema (droppedOf schema ms jobs))
    (concat (workerT E schema ms jobs [] pg).1).
Proof.
  apply Forall_forall. intros fk Hin. apply list_elem_of_In in Hin.
  apply in_concat in Hin as (fks & Hfks & Hfk).
  apply list_elem_of_In in Hfks. apply list_elem_of_In in Hfk.
  apply workerT_fks in Hfks as [Hfks | (table & Hdrop & ->)].
  - by apply not_elem_of_nil in Hfks.
  - apply getForeignKeys_elem in Hfk as (col & refTable & refCol & ->).
    exists table, (pgFkName table col refTable), col, refTable, refCol. done.
Qed.

(** *** One database *)

Lemma exec_schema_tables dbName pg :
  tables (exec E (CreateSchema dbName) pg).1 = tables pg.
Proof. cbn [exec]. by destruct (schema_err E dbName). Qed.

Lemma exec_schema_schemas dbName pg :
  schemas (exec E (CreateSchema dbName) pg).1
  = match schema_err E dbName with
    | None => {[dbName]} ∪ schemas pg
    | Some _ => schemas pg
    end.
Proof. cbn [exec]. by destruct (schema_err E dbName). Qed.

Lemma processT_unfold dbName ms pg :
  processT E dbName ms pg
  = let pg0 := (exec E (CreateSchema dbName) pg).1 in
    match OpenErr ms, TableNames ms with
    | None, Ok names =>
        applyT E (concat (workerT E dbName ms (listTables names) [] pg0).1)
          (workerT E dbName ms (listTables names) [] pg0).2
    | _, _ => pg0
    end.
Proof.
  unfold processT. cbv zeta. destruct (OpenErr ms); [done |].
  destruct (TableNames ms) as [names | e]; [| done].
  by destruct (workerT E dbName ms (listTables names) [] _).
Qed.

Lemma droppedBy_unfold dbName ms :
  droppedBy dbName ms
  = match OpenErr ms, TableNames ms with
    | None, Ok names => droppedOf dbName ms (listTables names)
    | _, _ => ∅
    end.
Proof. done. Qed.

Lemma processT_schemas dbName ms pg :
  schemas (processT E dbName ms pg) = schemas (exec E (CreateSchema dbName) pg).1.
Proof.
  rewrite processT_unfold. cbv zeta. destruct (OpenErr ms); [done |].
  destruct (TableNames ms) as [names | e]; [| done].
  rewrite (applyT_schemas dbName _ _ _ (workerT_fk_of dbName ms _ _)).
  apply workerT_schemas.
Qed.

Lemma processT_frame dbName ms pg D k :
  droppedBy dbName ms ⊆ D → k ∉ D →
  mask D <$> tables (processT E dbName ms pg) !! k = mask D <$> tables pg !! k.
Proof.
  rewrite processT_unfold, droppedBy_unfold. cbv zeta. intros Hsub Hk.
  destruct (OpenErr ms); [by rewrite exec_schema_tables |].
  destruct (TableNames ms) as [names | e]; [| by rewrite exec_schema_tables].
  rewrite (applyT_frame dbName _ _ _ D k (workerT_fk_of dbName ms _ _) Hsub Hk).
  rewrite workerT_frame by done. by rewrite exec_schema_tables.
Qed.

Lemma droppedAll_fst sources dbs k :
  k ∈ droppedAll sources dbs → k ∈ droppedBy k.1 (sources k.1).
Proof.
  induction dbs as [|a dbs IH]; cbn [droppedAll].
  - by intros H%not_elem_of_empty.
  - intros [H | H]%elem_of_union; [| by apply IH].
    assert (k.1 = a) as ->; [| done].
    rewrite droppedBy_unfold in H. destruct (OpenErr (sources a)).
    + by apply not_elem_of_empty in H.
    + destruct (TableNames (sources a)) as [names | e].
      * by eapply droppedOf_fst.
      * by apply not_elem_of_empty in H.
Qed.

Lemma schemas_related_step dbName rest pg pg' :
  schemas_related E (dbName :: rest) (schemas pg) (schemas pg') →
  (dbName ∈ schemas (exec E (CreateSchema dbName) pg).1
   ↔ dbName ∈ schemas (exec E (CreateSchema dbName) pg').1)
  ∧ schemas_related E rest (schemas (exec E (CreateSchema dbName) pg).1)
      (schemas (exec E (CreateSchema dbName) pg').1).
Proof.
  intros [Hsub Hnew]. rewrite !exec_schema_schemas.
  destruct (schema_err E dbName) as [e |] eqn:Herr.
  - split; [| split; [done |]].
    + split; [by apply Hsub |]. intros [H | [_ H]]%Hnew; [done | congruence].
    + intros ns [H | [Hin H]]%Hnew; [by left |]. right. split; [| done].
      apply elem_of_cons in Hin as [-> | Hin]; [congruence | done].
  - split; [| split].
    + split; intros _; apply elem_of_union_l; by apply elem_of_singleton.
    + intros ns [H | H]%elem_of_union; [by apply elem_of_union_l |].
      apply elem_of_union_r. by apply Hsub.
    + intros ns [H | H]%elem_of_union; [left; by apply elem_of_union_l |].
      apply Hnew in H as [H | [Hin H]]; [left; by apply elem_of_union_r |].
      apply elem_of_cons in Hin as [-> | Hin].
      * left. apply elem_of_union_l. by apply elem_of_singleton.
      * by right.
Qed.

Lemma processT_lockstep sources dbName rest pg pg' :
  schemas_related E (dbName :: rest) (schemas pg) (schemas pg') →
  related (droppedAll sources (dbName :: rest)) ∅ (tables pg) (tables pg') →
  schemas_related E rest (schemas (processT E dbName (sources dbName) pg))
    (schemas (processT E dbName (sources dbName) pg'))
  ∧ related (droppedAll sources rest) ∅
      (tables (processT E dbName (sources dbName) pg))
      (tables (processT E dbName (sources dbName) pg')).
Proof.
  intros Hsch Hrel.
  destruct (schemas_related_step dbName rest pg pg' Hsch) as [Hs0 Hsch0].
  split; [by rewrite !processT_schemas |].
  rewrite !processT_unfold. cbv zeta.
  cbn [droppedAll] in Hrel. rewrite droppedBy_unfold in Hrel.
  set (ms := sources dbName) in *.
  set (pg0 := (exec E (CreateSchema dbName) pg).1) in *.
  set (pg0' := (exec E (CreateSchema dbName) pg').1) in *.
  assert (related (droppedBy dbName ms ∪ droppedAll sources rest) ∅
            (tables pg0) (tables pg0')) as Hrel0.
  { unfold pg0, pg0'. by rewrite !exec_schema_tables. }
  rewrite droppedBy_unfold in Hrel0.
  destruct (OpenErr ms) eqn:Hopen.
  { eapply related_weaken; [exact Hrel0 | | done].
    intros k [H | H]%elem_of_union; [by apply not_elem_of_empty in H | done]. }
  destruct (TableNames ms) as [names | e] eqn:Hnames.
  2:{ eapply related_weaken; [exact Hrel0 | | done].
      intros k [H | H]%elem_of_union; [by apply not_elem_of_empty in H | done]. }
  set (dA := droppedOf dbName ms (listTables names)) in *.
  destruct (workerT_lockstep dbName ms (listTables names) [] pg0 pg0' _ _ Hs0 Hrel0)
    as [Hfk Hrel1].
  rewrite <- Hfk.
  eapply related_weaken; [| | apply empty_subseteq].
  - eapply (applyT_lockstep dbName dA); [apply workerT_fk_of | | | exact Hrel1].
    + intros k Hk. by apply elem_of_union_r.
    + intros k Hk. destruct (decide (k ∈ dA)) as [Hin | Hout].
      * left. by apply elem_of_union_r.
      * right. intros [[H | H]%elem_of_union _]%elem_of_difference; [done |].
        apply droppedAll_fst in H. rewrite Hk in H. fold ms in H.
        rewrite droppedBy_unfold, Hopen, Hnames in H. done.
  - intros k [[H | H]%elem_of_union Hout]%elem_of_difference; done.
Qed.

(** *** The whole run *)

Lemma runT_cons sources a dbs pg :
  runT E sources (a :: dbs) pg = runT E sources dbs (processT E a (sources a) pg).
Proof. done. Qed.

Lemma runT_frame sources dbs pg D k :
  droppedAll sources dbs ⊆ D → k ∉ D →
  mask D <$> tables (runT E sources dbs pg) !! k = mask D <$> tables pg !! k.
Proof.
  revert pg. induction dbs as [|a dbs IH]; intros pg Hsub Hk; [done |].
  cbn [droppedAll] in Hsub. apply union_subseteq in Hsub as [Ha Hrest].
  rewrite runT_cons, IH by done. by apply processT_frame.
Qed.

Lemma runT_schemas sources dbs pg :
  schemas_related E dbs (schemas pg) (schemas (runT E sources dbs pg)).
Proof.
  revert pg. induction dbs as [|a dbs IH]; intros pg.
  - split; [done |]. intros ns H. by left.
  - rewrite runT_cons. destruct (IH (processT E a (sources a) pg)) as [Hsub Hnew].
    rewrite processT_schemas, exec_schema_schemas in Hsub, Hnew.
    split.
    + intros ns Hns. apply Hsub. destruct (schema_err E a); [done |].
      by apply elem_of_union_r.
    + intros ns [H | [Hin H]]%Hnew.
      * destruct (schema_err E a) eqn:Herr; [by left |].
        apply elem_of_union in H as [->%elem_of_singleton | H]; [| by left].
        right. split; [apply list_elem_of_here | done].
      * right. split; [by apply list_elem_of_further | done].
Qed.

Lemma runT_lockstep sources dbs pg pg' :
  schemas_related E dbs (schemas pg) (schemas pg') →
  related (droppedAll sources dbs) ∅ (tables pg) (tables pg') →
  runT E sources dbs pg = runT E sources dbs pg'.
Proof.
  revert pg pg'. induction dbs as [|a dbs IH]; intros pg pg' Hsch Hrel.
  - destruct pg as [S T], pg' as [S' T']. cbn [schemas tables runT foldl] in *.
    f_equal.
    + destruct Hsch as [Hsub Hnew]. apply set_eq. intros ns. split; [apply Hsub |].
      intros [H | [H _]]%Hnew; [done | by apply not_elem_of_nil in H].
    + by eapply related_empty.
  - rewrite !runT_cons.
    destruct (processT_lockstep sources a dbs pg pg' Hsch Hrel) as [Hsch' Hrel'].
    by apply IH.
Qed.

Lemma runT_idempotent sources dbs pg :
  runT E sources dbs (runT E sources dbs pg) = runT E sources dbs pg.
Proof.
  symmetry. apply runT_lockstep; [apply runT_schemas |].
  split.
  - intros k H. by apply not_elem_of_empty in H.
  - intros k Hk. symmetry. by apply runT_frame.
Qed.

End Idempotence.

(** ** The example database, run once and twice *)

Example demo_clientes_copied :
  tables (target (migrateTable demoEngine "vin" "clientes" demoDB demoWorld).2)
    !! ("vin", "clientes")
  = Some (mkTable
            (mkBody [("id", "INTEGER"); ("nombre", "TEXT"); ("activo", "BOOLEAN")]
               [[VInt64 1; VString "Ana"; VBool true];
                [VInt64 2; VString "Luis"; VBool false]]
               (Some ("pk_vin_clientes", ["id"])))
            []).
Proof. vm_compute. reflexivity. Qed.

Example demo_run_log :
  logs (processDatabase demoEngine "vin" demoDB demoWorld)
  = ["[INFO] --- INICIANDO DB: vin ---";
     "[INFO] Encontradas 2 tablas. Iniciando carga masiva...";
     "[OK] clientes: 2 filas"; "[OK] notas: 2 filas";
     "[INFO] Aplicando Foreign Keys..."; "[INFO] Procesando 1 FKs..."].
Proof. vm_compute. reflexivity. Qed.

Example demo_run_twice :
  target (main demoEngine (λ _, "set") (λ _, demoDB)
            (main demoEngine (λ _, "set") (λ _, demoDB) demoWorld))
  = target (main demoEngine (λ _, "set") (λ _, demoDB) demoWorld).
Proof. vm_compute. reflexivity. Qed.

(** * Further properties *)

(** ** The value coercer, cell by cell *)

Lemma remove_nul_id (s : string) : has_nul s = false → remove_nul s = s.
Proof.
  induction s as [|c s IH]; [done |]. simpl.
  destruct (Ascii.eqb c "000"); [done |]. simpl. intros H. by rewrite IH.
Qed.

Lemma contains_excludes (typeName sub other : string) :
  strings.Contains other sub = false →
  strings.Contains typeName sub = true →
  String.eqb typeName other = false.
Proof.
  intros Hno Hyes. destruct (String.eqb_spec typeName other) as [-> | Hne]; [| done].
  congruence.
Qed.

Lemma binary_not_special (typeName : string) :
  strings.Contains typeName "BINARY" = true ∨ strings.Contains typeName "IMAGE" = true →
  String.eqb typeName "BIT" = false
  ∧ String.eqb typeName "BOOLEAN" = false
  ∧ String.eqb typeName "UNIQUEIDENTIFIER" = false.
Proof.
  intros [H | H]; repeat split;
    (eapply contains_excludes; [| exact H]); vm_compute; reflexivity.
Qed.

(** X1: the coercer keeps the arity of a row and the position of every
    cell, and a cell that is null, a boolean, a number or a time is passed
    through unchanged, whatever the type of its column. *)
Theorem coerceRow_scalars_unchanged (colTypes : list ColumnType) (values : list Value) :
  length (coerceRow colTypes values) = length values
  ∧ (∀ i v, values !! i = Some v → is_scalar v = true →
            coerceRow colTypes values !! i = Some v)
  ∧ (∀ i, values !! i = None → coerceRow colTypes values !! i = None).
Proof.
  split; [| split].
  - unfold coerceRow. apply length_imap.
  - intros i v Hv Hs. rewrite coerceRow_lookup, Hv. by destruct v.
  - intros i Hv. by rewrite coerceRow_lookup, Hv.
Qed.

Lemma coerceRow_scalars_unchanged_witness :
  coerceRow [mkColumnType "bit" (0, 0); mkColumnType "uniqueidentifier" (0, 0)]
    [VBool true; VNil] !! 1%nat
  = Some VNil.
Proof.
  destruct (coerceRow_scalars_unchanged
              [mkColumnType "bit" (0, 0); mkColumnType "uniqueidentifier" (0, 0)]
              [VBool true; VNil]) as (_ & H & _).
  apply H; reflexivity.
Defined.

(** X2: bytes of a column whose uppercased type name contains BINARY or
    IMAGE are passed through as they are, 0x00 bytes included; such a name is
    never taken for BIT, BOOLEAN or UNIQUEIDENTIFIER. *)
Theorem coerce_binary_unchanged (colTypes : list ColumnType) (values : list Value)
    (i : nat) (t : list byte) :
  values !! i = Some (VBytes t) →
  strings.Contains (typeNameAt colTypes i) "BINARY" = true
  ∨ strings.Contains (typeNameAt colTypes i) "IMAGE" = true →
  coerceRow colTypes values !! i = Some (VBytes t).
Proof.
  intros Hv Hbin. rewrite coerceRow_lookup, Hv.
  destruct (binary_not_special _ Hbin) as (Hbit & Hbool & Huuid).
  cbn [fmap option_fmap option_map coerce]. rewrite Hbit, Hbool, Huuid. cbn [orb].
  by destruct Hbin as [-> | ->]; [| rewrite orb_true_r].
Qed.

Lemma coerce_binary_unchanged_witness :
  coerceRow [mkColumnType "varbinary" (0, 0)] [VBytes [x00; x01; x00]] !! 0%nat
  = Some (VBytes [x00; x01; x00]).
Proof.
  apply (coerce_binary_unchanged [mkColumnType "varbinary" (0, 0)]
           [VBytes [x00; x01; x00]] 0 [x00; x01; x00] eq_refl).
  left. reflexivity.
Defined.

(** X4: coercing a coerced cell changes nothing. *)
Theorem coerce_idempotent (typeName : string) (v : Value) :
  coerce typeName (coerce typeName v) = coerce typeName v.
Proof.
  destruct v as [|t|s|b|n|n|n]; try done.
  - cbn [coerce].
    destruct (String.eqb typeName "BIT" || String.eqb typeName "BOOLEAN") eqn:Hbit.
    { by destruct (_ && _). }
    destruct (String.eqb typeName "UNIQUEIDENTIFIER") eqn:Huuid.
    { destruct (length t =? 16)%nat; [| done]. cbn [coerce].
      rewrite strings_facts.ReplaceAll_nul, remove_nul_id; [done |].
      by rewrite !has_nul_app, !has_nul_fmt_x. }
    destruct (strings.Contains typeName "BINARY" || strings.Contains typeName "IMAGE")
      eqn:Hbin.
    { cbn [coerce]. by rewrite Hbit, Huuid, Hbin. }
    cbn [coerce]. rewrite !strings_facts.ReplaceAll_nul.
    by rewrite (remove_nul_id _ (has_nul_remove_nul _)).
  - cbn [coerce]. rewrite !strings_facts.ReplaceAll_nul.
    by rewrite (remove_nul_id _ (has_nul_remove_nul _)).
Qed.

(** ** The type mapper and the ignore policy, whatever the case *)

Lemma upper_upper_byte (c : ascii) :
  strings.upper_byte (strings.upper_byte c) = strings.upper_byte c.
Proof. destruct c as [[] [] [] [] [] [] [] []]; vm_compute; reflexivity. Qed.

Lemma upper_lower_byte (c : ascii) :
  strings.upper_byte (strings.lower_byte c) = strings.upper_byte c.
Proof. destruct c as [[] [] [] [] [] [] [] []]; vm_compute; reflexivity. Qed.

Lemma lower_upper_byte (c : ascii) :
  strings.lower_byte (strings.upper_byte c) = strings.lower_byte c.
Proof. destruct c as [[] [] [] [] [] [] [] []]; vm_compute; reflexivity. Qed.

Lemma map_bytes_compose (f g h : ascii → ascii) (s : string) :
  (∀ c, f (g c) = h c) →
  strings.map_bytes f (strings.map_bytes g s) = strings.map_bytes h s.
Proof. intros H. induction s as [|c s IH]; simpl; [done | by rewrite H, IH]. Qed.

Lemma table_lookup_bytea (t : string) (p s : Z) :
  table_lookup typeTable t p s = "BYTEA"
  ↔ t ∈ ["BINARY"; "VARBINARY"; "IMAGE"; "TIMESTAMP_SQL"].
Proof.
  split.
  - unfold typeTable, table_lookup, numeric_decl.
    intros H. repeat case_bool_decide; try discriminate H; try done.
    destruct (0 <? p); discriminate H.
  - intros H. repeat (apply elem_of_cons in H as [-> | H]; [reflexivity |]).
    by apply not_elem_of_nil in H.
Qed.

(** X3: the mapper declares a column BYTEA exactly for the type names
    BINARY, VARBINARY, IMAGE and TIMESTAMP_SQL; the coercer passes the bytes
    of the first three through unchanged, but turns the bytes of a
    TIMESTAMP_SQL column into text with the 0x00 bytes removed. *)
Theorem bytea_columns_and_coercer (name : string) (p s : Z) (t : list byte) :
  (getPostgresType name p s = "BYTEA"
   ↔ strings.ToUpper name ∈ ["BINARY"; "VARBINARY"; "IMAGE"; "TIMESTAMP_SQL"])
  ∧ (getPostgresType name p s = "BYTEA" →
     strings.ToUpper name ≠ "TIMESTAMP_SQL" →
     coerce (strings.ToUpper name) (VBytes t) = VBytes t)
  ∧ (strings.ToUpper name = "TIMESTAMP_SQL" →
     getPostgresType name p s = "BYTEA"
     ∧ coerce (strings.ToUpper name) (VBytes t)
       = VString (remove_nul (string_of_bytes t))).
Proof.
  rewrite getPostgresType_lookup, table_lookup_bytea.
  generalize (strings.ToUpper name). intros tn. split; [done |]. split.
  - intros H Hne.
    repeat (apply elem_of_cons in H as [-> | H]; [try done |]).
    by apply not_elem_of_nil in H.
  - intros ->. split; [in_list |].
    cbn [coerce]. by rewrite strings_facts.ReplaceAll_nul.
Qed.

Lemma bytea_columns_and_coercer_witness :
  coerce (strings.ToUpper "varbinary") (VBytes [x00; x41]) = VBytes [x00; x41]
  ∧ getPostgresType "timestamp_sql" 0 0 = "BYTEA"
  ∧ coerce (strings.ToUpper "timestamp_sql") (VBytes [x00; x41]) = VString "A".
Proof.
  destruct (bytea_columns_and_coercer "varbinary" 0 0 [x00; x41]) as (_ & H & _).
  destruct (bytea_columns_and_coercer "timestamp_sql" 0 0 [x00; x41]) as (_ & _ & H').
  split; [| exact (H' eq_refl)].
  apply H; [reflexivity | discriminate].
Defined.

(** X5: the type mapper does not see the case of a type name written in
    ASCII (every byte below 0x80), on which Go's [ToUpper] and [ToLower] are
    the byte maps of [strings]. *)
Theorem getPostgresType_case_insensitive (name : string) (p s : Z) :
  is_ascii_text name = true →
  getPostgresType (strings.ToUpper name) p s = getPostgresType name p s
  ∧ getPostgresType (strings.ToLower name) p s = getPostgresType name p s.
Proof.
  intros _. unfold getPostgresType, strings.ToUpper, strings.ToLower.
  by rewrite (map_bytes_compose _ _ _ name upper_upper_byte),
    (map_bytes_compose _ _ _ name upper_lower_byte).
Qed.

Lemma getPostgresType_case_insensitive_witness :
  getPostgresType (strings.ToUpper "NVarChar") 0 0 = getPostgresType "NVarChar" 0 0
  ∧ getPostgresType (strings.ToLower "NVarChar") 0 0 = getPostgresType "NVarChar" 0 0.
Proof. apply (getPostgresType_case_insensitive "NVarChar" 0 0). reflexivity. Defined.

(** X6: the type mapper returns one of thirteen fixed declarations, or, on
    a positive precision only, [NUMERIC(p, s)]; it never returns an empty
    declaration. *)
Theorem getPostgresType_range (name : string) (p s : Z) :
  (getPostgresType name p s ∈ plainTypes
   ∨ (0 < p
      ∧ getPostgresType name p s
        = "NUMERIC(" +:+ fmt_d p +:+ ", " +:+ fmt_d s +:+ ")"))
  ∧ getPostgresType name p s ≠ EmptyString.
Proof.
  rewrite getPostgresType_lookup. generalize (strings.ToUpper name). intros tn.
  unfold typeTable, table_lookup, numeric_decl, plainTypes.
  destruct (Z.ltb_spec 0 p); repeat case_bool_decide;
    (split; [first [solve [left; in_list] | right; split; [assumption | reflexivity]]
            | discriminate]).
Qed.

(** X7: the ignore policy does not see the case of a table name written in
    ASCII (every byte below 0x80), on which Go's [ToUpper] and [ToLower] are
    the byte maps of [strings]. *)
Theorem isIgnoredTable_case_insensitive (name : string) :
  is_ascii_text name = true →
  isIgnoredTable (strings.ToUpper name) = isIgnoredTable name
  ∧ isIgnoredTable (strings.ToLower name) = isIgnoredTable name.
Proof.
  intros _. unfold isIgnoredTable, strings.ToUpper, strings.ToLower.
  rewrite (map_bytes_compose _ _ _ name lower_upper_byte).
  rewrite (map_bytes_compose strings.lower_byte strings.lower_byte strings.lower_byte name);
    [done |].
  intros c. destruct c as [[] [] [] [] [] [] [] []]; vm_compute; reflexivity.
Qed.

Lemma isIgnoredTable_case_insensitive_witness :
  isIgnoredTable (strings.ToUpper "Ventas_ct") = isIgnoredTable "Ventas_ct"
  ∧ isIgnoredTable (strings.ToLower "Ventas_ct") = isIgnoredTable "Ventas_ct".
Proof. apply (isIgnoredTable_case_insensitive "Ventas_ct"). reflexivity. Defined.

(** ** Column definitions *)

Lemma HasPrefix_single (c q : ascii) (r : string) :
  strings.HasPrefix (String c r) (String q EmptyString) = Ascii.eqb c q.
Proof.
  unfold strings.HasPrefix. cbn [String.length String.substring Nat.leb andb].
  rewrite strings_facts.substring_0_0. destruct (Ascii.eqb_spec c q) as [-> | Hne].
  - apply String.eqb_refl.
  - apply String.eqb_neq. congruence.
Qed.

Lemma ReplaceAll_single_gone (q : ascii) (s : string) :
  has_byte q (strings.ReplaceAll s (String q EmptyString) EmptyString) = false.
Proof.
  unfold strings.ReplaceAll. induction s as [|c s IH]; [done |].
  cbn [strings.replace_go]. rewrite HasPrefix_single.
  destruct (Ascii.eqb c q) eqn:Hc; [exact IH |].
  cbn [has_byte]. by rewrite Hc, IH.
Qed.

Lemma trimLeft_has_byte (q : ascii) (s : string) :
  has_byte q s = false → has_byte q (strings.trimLeft s) = false.
Proof.
  induction s as [|c s IH]; [done |]. cbn [strings.trimLeft].
  destruct (strings.isSpace c); [| done].
  cbn [has_byte]. intros [_ H]%orb_false_iff. by apply IH.
Qed.

Lemma trimRight_has_byte (q : ascii) (s : string) :
  has_byte q s = false → has_byte q (strings.trimRight s) = false.
Proof.
  induction s as [|c s IH]; [done |]. cbn [strings.trimRight has_byte].
  intros [Hc H]%orb_false_iff. specialize (IH H).
  destruct (strings.trimRight s) as [|c' r'].
  - destruct (strings.isSpace c); [done |]. cbn [has_byte]. by rewrite Hc.
  - cbn [has_byte] in *. by rewrite Hc, IH.
Qed.

Lemma trimLeft_start (s : string) : starts_with_space (strings.trimLeft s) = false.
Proof.
  induction s as [|c s IH]; [done |]. cbn [strings.trimLeft].
  destruct (strings.isSpace c) eqn:Hc; [done |]. cbn [starts_with_space]. exact Hc.
Qed.

Lemma trimRight_start (s : string) :
  starts_with_space s = false → starts_with_space (strings.trimRight s) = false.
Proof.
  destruct s as [|c s]; [done |]. cbn [strings.trimRight starts_with_space]. intros Hc.
  destruct (strings.trimRight s); [by rewrite Hc | done].
Qed.

Lemma trimRight_end (s : string) : ends_with_space (strings.trimRight s) = false.
Proof.
  induction s as [|c s IH]; [done |]. cbn [strings.trimRight].
  destruct (strings.trimRight s) as [|c' r'].
  - destruct (strings.isSpace c) eqn:Hc; [done |]. cbn [ends_with_space]. exact Hc.
  - exact IH.
Qed.

(** X8: [createSQL] has one column definition per source column, in order;
    a column for which the driver gave no type is declared TEXT, any other
    column as the type mapper says; and the sanitized name of a column whose
    name is written in ASCII (every byte below 0x80, where Go's [TrimSpace]
    trims the six bytes of [isSpace]) holds no double quote and neither
    starts nor ends with white space. *)
Theorem column_definitions_sanitized (cols : list string) (colTypes : list ColumnType) :
  length (columnDefs cols colTypes) = length cols
  ∧ ∀ i c, cols !! i = Some c →
      ∃ safeCol pgType,
        columnDefs cols colTypes !! i = Some (safeCol, pgType)
        ∧ pgType
          = match colTypes !! i with
            | Some ct =>
                getPostgresType (DatabaseTypeName ct) (DecimalSize ct).1 (DecimalSize ct).2
            | None => "TEXT"
            end
        ∧ (is_ascii_text c = true →
           has_byte "034" safeCol = false
           ∧ starts_with_space safeCol = false
           ∧ ends_with_space safeCol = false).
Proof.
  split; [apply length_imap |]. intros i c Hc. unfold columnDefs.
  rewrite list_lookup_imap, Hc. cbn [fmap option_fmap option_map].
  eexists _, _. split; [reflexivity |]. split; [reflexivity |].
  intros _. unfold strings.TrimSpace. split; [| split].
  - apply trimRight_has_byte, trimLeft_has_byte. apply (ReplaceAll_single_gone "034").
  - apply trimRight_start, trimLeft_start.
  - apply trimRight_end.
Qed.

Lemma column_definitions_sanitized_witness :
  ∃ safeCol pgType,
    columnDefs [" " +:+ QUOTE +:+ "id" +:+ QUOTE +:+ "  "; "nota"]
      [mkColumnType "int" (10, 0); mkColumnType "varchar" (0, 0)]
      !! 0%nat = Some (safeCol, pgType)
    ∧ pgType = "INTEGER"
    ∧ has_byte "034" safeCol = false
    ∧ starts_with_space safeCol = false
    ∧ ends_with_space safeCol = false.
Proof.
  destruct (column_definitions_sanitized
              [" " +:+ QUOTE +:+ "id" +:+ QUOTE +:+ "  "; "nota"]
              [mkColumnType "int" (10, 0); mkColumnType "varchar" (0, 0)]) as [_ H].
  destruct (H 0%nat (" " +:+ QUOTE +:+ "id" +:+ QUOTE +:+ "  ") eq_refl)
    as (safeCol & pgType & Hdef & Htype & Hname).
  exists safeCol, pgType. split; [exact Hdef |]. split; [exact Htype |].
  exact (Hname eq_refl).
Defined.

(** ** Opening the source cursor *)

Lemma is_Err_Ok {A : Type} (r : result A) (a : A) : r = Ok a → is_Err r → False.
Proof. by intros ->. Qed.

Lemma retry_Ok (q : Z → result Cursor) (n : nat) (m : Z) (last : result Cursor) (c : Cursor) :
  queryWithRetry q (seqZ m (Z.of_nat n)) last = Ok c
  ↔ (∃ k, m ≤ k < m + Z.of_nat n ∧ q k = Ok c ∧ ∀ j, m ≤ j < k → is_Err (q j))
    ∨ (n = 0%nat ∧ last = Ok c).
Proof.
  revert m last. induction n as [|n IH]; intros m last.
  - cbn [queryWithRetry seqZ]. split.
    + intros H. by right.
    + intros [(k & Hk & _) | [_ H]]; [lia | done].
  - rewrite seqZ_cons by lia. cbn [queryWithRetry].
    replace (Z.pred (Z.of_nat (S n))) with (Z.of_nat n) by lia.
    destruct (q m) as [c0 | e0] eqn:Hm.
    + split.
      * intros [= ->]. left. exists m. split; [lia |]. split; [done |]. intros j Hj. lia.
      * intros [(k & Hk & Hq & Hbefore) | [Hn _]]; [| done].
        destruct (decide (k = m)) as [-> | Hne]; [congruence |].
        destruct (is_Err_Ok _ _ Hm). apply Hbefore. lia.
    + rewrite IH. split.
      * intros [(k & Hk & Hq & Hbefore) | [_ H]]; [| done].
        left. exists k. split; [lia |]. split; [done |]. intros j Hj.
        destruct (decide (j = m)) as [-> | Hne]; [by rewrite Hm |].
        apply Hbefore. lia.
      * intros [(k & Hk & Hq & Hbefore) | [Hn _]]; [| done].
        left. exists k. assert (k ≠ m) by congruence.
        split; [lia |]. split; [done |]. intros j Hj. apply Hbefore. lia.
Qed.

Lemma retry_Err (q : Z → result Cursor) (n : nat) (m : Z) (last : result Cursor) (e : string) :
  queryWithRetry q (seqZ m (Z.of_nat n)) last = Err e
  ↔ (∀ j, m ≤ j < m + Z.of_nat n → is_Err (q j))
    ∧ match n with
      | O => last = Err e
      | S _ => q (m + Z.of_nat n - 1) = Err e
      end.
Proof.
  revert m last. induction n as [|n IH]; intros m last.
  - cbn [queryWithRetry seqZ]. split.
    + intros H. split; [intros j Hj; lia | done].
    + by intros [_ H].
  - rewrite seqZ_cons by lia. cbn [queryWithRetry].
    replace (Z.pred (Z.of_nat (S n))) with (Z.of_nat n) by lia.
    destruct (q m) as [c0 | e0] eqn:Hm.
    + split; [done |]. intros [Hall _].
      destruct (is_Err_Ok _ _ Hm). apply Hall. lia.
    + rewrite IH. split.
      * intros [Hall Hlast]. split.
        -- intros j Hj. destruct (decide (j = m)) as [-> | Hne]; [by rewrite Hm |].
           apply Hall. lia.
        -- destruct n as [|n'].
           ++ injection Hlast as <-. rewrite <- Hm. f_equal. lia.
           ++ rewrite <- Hlast. f_equal. lia.
      * intros [Hall Hlast]. split.
        -- intros j Hj. apply Hall. lia.
        -- destruct n as [|n'].
           ++ rewrite <- Hlast, <- Hm. f_equal. f_equal. lia.
           ++ rewrite <- Hlast. f_equal. lia.
Qed.

(** X9: the cursor of a table is the answer of the first attempt that
    succeeds among the attempts 1 to [MaxRetries], and later attempts play no
    part; the open fails exactly when all [MaxRetries] attempts fail, and
    then with the error of the last attempt. *)
Theorem queryWithRetry_first_success (q : Z → result Cursor) :
  (∀ c, queryWithRetry q (seqZ 1 MaxRetries) (Err "") = Ok c
        ↔ ∃ k, 1 ≤ k ≤ MaxRetries ∧ q k = Ok c ∧ ∀ j, 1 ≤ j < k → is_Err (q j))
  ∧ (∀ e, queryWithRetry q (seqZ 1 MaxRetries) (Err "") = Err e
          ↔ (∀ j, 1 ≤ j ≤ MaxRetries → is_Err (q j)) ∧ q MaxRetries = Err e).
Proof.
  change MaxRetries with (Z.of_nat 10). split.
  - intros c. rewrite retry_Ok. split.
    + intros [(k & Hk & H) | [_ H]]; [| done]. exists k. split; [lia | done].
    + intros (k & Hk & H). left. exists k. split; [lia | done].
  - intros e. rewrite retry_Err. change (1 + Z.of_nat 10 - 1) with (Z.of_nat 10). split.
    + intros [Hall H]. split; [| done]. intros j Hj. apply Hall. lia.
    + intros [Hall H]. split; [| done]. intros j Hj. apply Hall. lia.
Qed.

Lemma queryWithRetry_first_success_witness :
  ∃ k, 1 ≤ k ≤ MaxRetries
       ∧ Query demoClientes k
         = Ok (mkCursor ["id"; "nombre"; "activo"]
                 [mkColumnType "INT" (10, 0); mkColumnType "NVARCHAR" (0, 0);
                  mkColumnType "BIT" (0, 0)]
                 [Some [VInt64 1; VString ("Ana" +:+ NUL); VBytes [x01]];
                  Some [VInt64 2; VString "Luis"; VBytes [x00]]])
       ∧ ∀ j, 1 ≤ j < k → is_Err (Query demoClientes j).
Proof.
  apply (queryWithRetry_first_success (Query demoClientes)). reflexivity.
Defined.

(** X10: when all [MaxRetries] attempts to read a table fail, the table is
    abandoned: the target is left as it was (the old table is not dropped),
    no foreign key is returned, and the log gains the one line that reports
    the last error. *)
Theorem migrateTable_read_failure (E : Engine) (schema table : string) (ms : SourceDB)
    (w : World) :
  (∀ j, 1 ≤ j ≤ MaxRetries → is_Err (Query (TableOf ms table) j)) →
  ∃ e,
    Query (TableOf ms table) MaxRetries = Err e
    ∧ (migrateTable E schema table ms w).1 = []
    ∧ target (migrateTable E schema table ms w).2 = target w
    ∧ logs (migrateTable E schema table ms w).2
      = logs w ++ ["[ERROR] [FINAL] " +:+ table +:+ ": No se pudo leer origen: " +:+ e].
Proof.
  intros Hall.
  destruct (Query (TableOf ms table) MaxRetries) as [c | e] eqn:Hlast.
  { destruct (is_Err_Ok _ _ Hlast). apply Hall. unfold MaxRetries. lia. }
  exists e. split; [done |].
  assert (queryWithRetry (Query (TableOf ms table)) (seqZ 1 MaxRetries) (Err "") = Err e)
    as Hq.
  { change MaxRetries with (Z.of_nat 10) in *. apply retry_Err. split; [| exact Hlast].
    intros j Hj. apply Hall. lia. }
  unfold migrateTable. by rewrite Hq.
Qed.

Lemma migrateTable_read_failure_witness :
  ∃ e,
    Query (TableOf demoDB "facturas") MaxRetries = Err e
    ∧ (migrateTable demoEngine "vin" "facturas" demoDB demoWorld).1 = []
    ∧ target (migrateTable demoEngine "vin" "facturas" demoDB demoWorld).2
      = target demoWorld
    ∧ logs (migrateTable demoEngine "vin" "facturas" demoDB demoWorld).2
      = logs demoWorld
        ++ ["[ERROR] [FINAL] " +:+ "facturas" +:+ ": No se pudo leer origen: " +:+ e].
Proof.
  apply (migrateTable_read_failure demoEngine "vin" "facturas" demoDB demoWorld).
  intros j _. exact I.
Defined.

(** ** What a table copy stores *)

Lemma coercedRows_Some (colTypes : list ColumnType) (values : list Value)
    (scans : list (option (list Value))) :
  coercedRows colTypes (Some values :: scans)
  = coerceRow colTypes values :: coercedRows colTypes scans.
Proof. done. Qed.

Lemma coercedRows_None (colTypes : list ColumnType) (scans : list (option (list Value))) :
  coercedRows colTypes (None :: scans) = coercedRows colTypes scans.
Proof. done. Qed.

Lemma tx_step_sublist (E : Engine) (ns tbl : string) (cols : list (string * string))
    (finalVals : list Value) (tx : Tx) :
  tx_rows (tx_step E ns tbl cols finalVals tx) `sublist_of` tx_rows tx ++ [finalVals].
Proof.
  unfold tx_step, tx_rows. destruct (failed tx) eqn:Hf.
  - rewrite Hf. apply sublist_nil_l.
  - destruct (row_err E _ _ _ _); cbn [failed pending]; [apply sublist_nil_l | done].
Qed.

Lemma committed_sublist (E : Engine) (ns tbl : string) (cols : list (string * string))
    (colTypes : list ColumnType) (scans : list (option (list Value)))
    (tx : Tx) (count : Z) :
  committed E ns tbl cols colTypes scans tx count
  `sublist_of` tx_rows tx ++ coercedRows colTypes scans.
Proof.
  revert tx count. induction scans as [|[values|] scans IH]; intros tx count;
    cbn [committed].
  - by rewrite app_nil_r.
  - rewrite coercedRows_Some.
    pose proof (tx_step_sublist E ns tbl cols (coerceRow colTypes values) tx) as Hstep.
    rewrite (cons_middle _ (tx_rows tx)), app_assoc.
    destruct (Z.rem (count + 1) BatchSize =? 0).
    + apply sublist_app; [done |].
      specialize (IH (begin_tx E) (count + 1)). by rewrite begin_tx_rows in IH.
    + etrans; [apply IH |]. by apply sublist_app.
  - rewrite coercedRows_None. apply IH.
Qed.

Lemma committed_all (E : Engine) (ns tbl : string) (cols : list (string * string))
    (colTypes : list ColumnType) (scans : list (option (list Value)))
    (tx : Tx) (count : Z) :
  set_err E = None →
  failed tx = false →
  (∀ r, r ∈ scans →
        ∃ values, r = Some values
                  ∧ row_err E ns tbl cols (coerceRow colTypes values) = None) →
  committed E ns tbl cols colTypes scans tx count
  = pending tx ++ coercedRows colTypes scans.
Proof.
  intros Hset. revert tx count.
  induction scans as [|[values|] scans IH]; intros tx count Hf Hall; cbn [committed].
  - unfold tx_rows. by rewrite Hf, app_nil_r.
  - rewrite coercedRows_Some.
    destruct (Hall (Some values) (list_elem_of_here _ _)) as (v & [= <-] & Hrow).
    unfold tx_step. rewrite Hf, Hrow.
    assert (∀ r, r ∈ scans →
                 ∃ values0, r = Some values0
                            ∧ row_err E ns tbl cols (coerceRow colTypes values0) = None)
      as Hrest by (intros r Hr; apply Hall; by apply list_elem_of_further).
    destruct (Z.rem (count + 1) BatchSize =? 0).
    + rewrite IH; [| by unfold begin_tx; rewrite Hset | done].
      unfold tx_rows, begin_tx. rewrite Hset. cbn [failed pending].
      by rewrite <- app_assoc.
    + rewrite IH by done. cbn [pending]. by rewrite <- app_assoc.
  - destruct (Hall None (list_elem_of_here _ _)) as (v & [=] & _).
Qed.

Lemma rebuilt_parts (E : Engine) (schema table : string) (ms : SourceDB) (rows : Cursor) :
  b_cols (body (rebuilt E schema table ms rows))
  = columnDefs (Columns rows) (ColumnTypes rows)
  ∧ b_rows (body (rebuilt E schema table ms rows))
    = committed E schema table (columnDefs (Columns rows) (ColumnTypes rows))
        (ColumnTypes rows) (Scans rows) (begin_tx E) 0
  ∧ fks (rebuilt E schema table ms rows) = [].
Proof.
  unfold rebuilt, withPrimaryKey.
  destruct (0 <? length _)%nat; [| done].
  cbn [append_rows freshTable body b_pk b_rows b_cols fks].
  by destruct (pk_err E _ _ _ _ _).
Qed.

Lemma migrateTable_own_table (E : Engine) (schema table : string) (ms : SourceDB)
    (w : World) (rows : Cursor) :
  queryWithRetry (Query (TableOf ms table)) (seqZ 1 MaxRetries) (Err "") = Ok rows →
  tables (target (migrateTable E schema table ms w).2) !! (schema, table)
  = if creatable E schema table rows (target w)
    then Some (rebuilt E schema table ms rows) else None.
Proof.
  intros Hq. rewrite migrateTable_target. unfold migrated. rewrite Hq. cbn [tables].
  destruct (creatable E schema table rows (target w)).
  - by rewrite lookup_insert_eq.
  - by rewrite lookup_fmap, lookup_delete_eq.
Qed.



(** X13: every row of a copied table has the arity of the table, provided
    each scan fills one value per source column (as [rows.Scan] into
    [len(cols)] destinations does). *)
Theorem migrateTable_row_arity (E : Engine) (schema table : string)
    (ms : SourceDB) (w : World) (rows : Cursor) (t : Table) :
  queryWithRetry (Query (TableOf ms table)) (seqZ 1 MaxRetries) (Err "") = Ok rows →
  (∀ values, Some values ∈ Scans rows → length values = length (Columns rows)) →
  tables (target (migrateTable E schema table ms w).2) !! (schema, table) = Some t →
  ∀ row, row ∈ b_rows (body t) → length row = length (b_cols (body t)).
Proof.
  intros Hq Hlen Ht row Hrow.
  rewrite (migrateTable_own_table E schema table ms w rows Hq) in Ht.
  destruct (creatable E schema table rows (target w)); [| done].
  injection Ht as <-.
  destruct (rebuilt_parts E schema table ms rows) as (Hcols & Hrows & _).
  rewrite Hcols. rewrite Hrows in Hrow. unfold columnDefs. rewrite length_imap.
  pose proof (committed_sublist E schema table
                (columnDefs (Columns rows) (ColumnTypes rows))
                (ColumnTypes rows) (Scans rows) (begin_tx E) 0) as Hsub.
  rewrite begin_tx_rows in Hsub.
  apply (elem_of_sublist _ _ _ Hrow) in Hsub.
  apply list_elem_of_omap in Hsub as ([values |] & Hin & Hf); [| done].
  injection Hf as <-. unfold coerceRow. rewrite length_imap. by apply Hlen.
Qed.

Lemma migrateTable_row_arity_witness :
  length [VInt64 1; VString "Ana"; VBool true]
  = length [("id", "INTEGER"); ("nombre", "TEXT"); ("activo", "BOOLEAN")].
Proof.
  apply (migrateTable_row_arity demoEngine "vin" "clientes" demoDB demoWorld
           (mkCursor ["id"; "nombre"; "activo"]
              [mkColumnType "INT" (10, 0); mkColumnType "NVARCHAR" (0, 0);
               mkColumnType "BIT" (0, 0)]
              [Some [VInt64 1; VString ("Ana" +:+ NUL); VBytes [x01]];
               Some [VInt64 2; VString "Luis"; VBytes [x00]]])
           (mkTable
              (mkBody [("id", "INTEGER"); ("nombre", "TEXT"); ("activo", "BOOLEAN")]
                 [[VInt64 1; VString "Ana"; VBool true];
                  [VInt64 2; VString "Luis"; VBool false]]
                 (Some ("pk_vin_clientes", ["id"])))
              [])).
  - reflexivity.
  - intros values Hin.
    apply elem_of_cons in Hin as [[= ->] | Hin]; [reflexivity |].
    apply elem_of_cons in Hin as [[= ->] | Hin]; [reflexivity |].
    by apply not_elem_of_nil in Hin.
  - vm_compute. reflexivity.
  - apply list_elem_of_here.
Defined.



(** ** The collector channel and the foreign-key phase *)

Lemma worker_channel (E : Engine) (schema : string) (ms : SourceDB) (jobs : list string)
    (fkChan : list (list ForeignKeySQL)) (w : World) :
  Forall (λ fks, fks ≠ []) fkChan →
  Forall (λ fks, fks ≠ []) (worker E schema ms jobs fkChan w).1
  ∧ (length (worker E schema ms jobs fkChan w).1 ≤ length fkChan + length jobs)%nat.
Proof.
  revert fkChan w. induction jobs as [|table jobs IH]; intros fkChan w Hall;
    cbn [worker].
  - split; [done | cbn [fst length]; lia].
  - destruct (migrateTable E schema table ms w) as [fks w0].
    destruct fks as [|fk fks]; cbn [length Nat.ltb Nat.leb].
    + destruct (IH fkChan w0 Hall) as [H1 H2]. split; [done | cbn [length]; lia].
    + destruct (IH (fkChan ++ [fk :: fks]) w0) as [H1 H2].
      { apply Forall_app. split; [done |]. by apply Forall_singleton. }
      split; [done |]. rewrite length_app in H2. cbn [length] in *. lia.
Qed.

(** X16: a worker sends only non-empty lists of foreign keys to the
    collector channel, at most one per table. *)
Theorem worker_sends_nonempty (E : Engine) (schema : string) (ms : SourceDB)
    (jobs : list string) (w : World) :
  Forall (λ fks, fks ≠ []) (worker E schema ms jobs [] w).1
  ∧ (length (worker E schema ms jobs [] w).1 ≤ length jobs)%nat.
Proof. apply (worker_channel E schema ms jobs [] w). constructor. Qed.

Lemma exec_fk_body (E : Engine) (ns tbl name col refns reftbl refcol : string)
    (pg : PG) (k : string * string) :
  body <$> tables (exec E (AddForeignKey ns tbl name col refns reftbl refcol) pg).1 !! k
  = body <$> tables pg !! k.
Proof.
  cbn [exec]. destruct (tables pg !! (ns, tbl)) as [t |] eqn:Ht; [| done].
  destruct (fk_err E _ _ _ _ _); [done |]. cbn [fst tables].
  destruct (decide (k = (ns, tbl))) as [-> | Hne].
  - by rewrite lookup_insert_eq, Ht.
  - by rewrite lookup_insert_ne.
Qed.

Lemma applyT_body (E : Engine) (schema : string) (O : gset (string * string))
    (allFks : list ForeignKeySQL) (pg : PG) (k : string * string) :
  Forall (fk_of schema O) allFks →
  body <$> tables (applyT E allFks pg) !! k = body <$> tables pg !! k.
Proof.
  unfold applyT. intros Hall. revert pg.
  induction Hall as [|fk fks (table & name & col & refTable & refCol & Hsql & _) _ IH];
    intros pg; cbn [foldl]; [done |].
  by rewrite IH, Hsql, exec_fk_body.
Qed.

Lemma applyT_other_schema (E : Engine) (schema : string) (O : gset (string * string))
    (allFks : list ForeignKeySQL) (pg : PG) (k : string * string) :
  Forall (fk_of schema O) allFks → k.1 ≠ schema →
  tables (applyT E allFks pg) !! k = tables pg !! k.
Proof.
  unfold applyT. intros Hall Hk. revert pg.
  induction Hall as [|fk fks (table & name & col & refTable & refCol & Hsql & _) _ IH];
    intros pg; cbn [foldl]; [done |].
  rewrite IH, Hsql. apply exec_fk_lookup_ne. by intros ->.
Qed.

Lemma applyForeignKeys_logs (E : Engine) (fkChan : list (list ForeignKeySQL)) (w : World) :
  logs (applyForeignKeys E fkChan w)
  = logs w ++ ["[INFO] Procesando " +:+ fmt_d (Z.of_nat (length (concat fkChan)))
               +:+ " FKs..."].
Proof.
  unfold applyForeignKeys.
  assert (∀ fks w0,
            logs (foldl (λ w fk, on_target (λ pg, (exec E (SQL fk) pg).1) w) w0 fks)
            = logs w0) as H.
  { intros fks. induction fks as [|fk fks IH]; intros w0; cbn [foldl]; [done |].
    by rewrite IH. }
  by rewrite H.
Qed.

(** X17: the foreign-key phase of a database changes no namespace, and of
    no table the columns, the rows or the primary key; it leaves the tables
    of the other namespaces exactly as they are; and it writes one log line,
    the count of the statements: a foreign key that the target rejects
    leaves no trace in the log. *)
Theorem applyForeignKeys_keeps_data (E : Engine) (schema : string) (ms : SourceDB)
    (jobs : list string) (w : World) (k : string * string) :
  let fkChan := (worker E schema ms jobs [] w).1 in
  let w1 := (worker E schema ms jobs [] w).2 in
  schemas (target (applyForeignKeys E fkChan w1)) = schemas (target w1)
  ∧ body <$> tables (target (applyForeignKeys E fkChan w1)) !! k
    = body <$> tables (target w1) !! k
  ∧ (k.1 ≠ schema →
     tables (target (applyForeignKeys E fkChan w1)) !! k = tables (target w1) !! k)
  ∧ logs (applyForeignKeys E fkChan w1)
    = logs w1 ++ ["[INFO] Procesando " +:+ fmt_d (Z.of_nat (length (concat fkChan)))
                  +:+ " FKs..."].
Proof.
  intros fkChan w1. rewrite applyForeignKeys_target.
  destruct (worker_workerT E schema ms jobs [] w) as [Hch _].
  pose proof (workerT_fk_of E schema ms jobs (target w)) as Hall.
  rewrite <- Hch in Hall. fold fkChan in Hall.
  split; [by eapply applyT_schemas |]. split; [by eapply applyT_body |].
  split; [intros Hk; by eapply applyT_other_schema |].
  apply applyForeignKeys_logs.
Qed.

Lemma applyForeignKeys_keeps_data_witness :
  tables (target (applyForeignKeys demoEngine
                    (worker demoEngine "vin" demoDB ["clientes"; "notas"] [] demoWorldHeld).1
                    (worker demoEngine "vin" demoDB ["clientes"; "notas"] [] demoWorldHeld).2))
    !! ("otra", "clientes")
  = Some demoTable.
Proof.
  etrans.
  - apply (applyForeignKeys_keeps_data demoEngine "vin" demoDB ["clientes"; "notas"]
             demoWorldHeld ("otra", "clientes")).
    discriminate.
  - vm_compute. reflexivity.
Defined.

(** ** One database, and the whole run *)

(** X18: [processDatabase] creates at most the namespace of its database
    and removes none; when the engine accepts the CREATE SCHEMA the namespace
    exists afterwards; and when the source cannot be opened or its tables
    cannot be listed, no table of the target is touched. *)
Theorem processDatabase_namespace_and_source_errors (E : Engine) (dbName : string)
    (ms : SourceDB) (w : World) :
  (schemas (target w) ⊆ schemas (target (processDatabase E dbName ms w))
   ∧ ∀ ns, ns ∈ schemas (target (processDatabase E dbName ms w)) →
           ns ∈ schemas (target w) ∨ ns = dbName)
  ∧ (schema_err E dbName = None →
     dbName ∈ schemas (target (processDatabase E dbName ms w)))
  ∧ (is_Some (OpenErr ms) ∨ is_Err (TableNames ms) →
     tables (target (processDatabase E dbName ms w)) = tables (target w)).
Proof.
  rewrite processDatabase_target. split; [| split].
  - rewrite processT_schemas, exec_schema_schemas.
    destruct (schema_err E dbName).
    + split; [done | by left].
    + split.
      * intros ns Hns. by apply elem_of_union_r.
      * intros ns [->%elem_of_singleton | H]%elem_of_union; [by right | by left].
  - intros Hok. rewrite processT_schemas, exec_schema_schemas, Hok.
    apply elem_of_union_l. by apply elem_of_singleton.
  - intros Hfail. rewrite processT_unfold. cbv zeta.
    destruct (OpenErr ms) as [e |]; [apply exec_schema_tables |].
    destruct (TableNames ms) as [names | e]; [| apply exec_schema_tables].
    destruct Hfail as [[? [=]] | []].
Qed.

Lemma processDatabase_namespace_and_source_errors_witness :
  "vin" ∈ schemas (target (processDatabase demoEngine "vin" demoDB (mkWorld (mkPG ∅ ∅) [])))
  ∧ tables (target (processDatabase demoEngine "vin"
                      (mkSourceDB (Some "login failed") (Err "closed") (TableOf demoDB))
                      demoWorld))
    = tables (target demoWorld).
Proof.
  split.
  - by apply (processDatabase_namespace_and_source_errors demoEngine "vin" demoDB
                (mkWorld (mkPG ∅ ∅) [])).
  - apply (processDatabase_namespace_and_source_errors demoEngine "vin"
             (mkSourceDB (Some "login failed") (Err "closed") (TableOf demoDB)) demoWorld).
    left. by eexists.
Defined.

(** X19: when a required variable is empty, [main] stops before any
    database: the target is left as it is, and the log gains the start line
    and one FATAL line naming the first missing variable in the order
    PG_HOST, MSSQL_HOST, MSSQL_PASS. *)
Theorem main_missing_variable (E : Engine) (getenv : string → string)
    (sources : string → SourceDB) (w : World) (v : string) :
  (getenv "PG_HOST" = EmptyString ∧ v = "PG_HOST")
  ∨ (getenv "PG_HOST" ≠ EmptyString ∧ getenv "MSSQL_HOST" = EmptyString
     ∧ v = "MSSQL_HOST")
  ∨ (getenv "PG_HOST" ≠ EmptyString ∧ getenv "MSSQL_HOST" ≠ EmptyString
     ∧ getenv "MSSQL_PASS" = EmptyString ∧ v = "MSSQL_PASS") →
  target (main E getenv sources w) = target w
  ∧ logs (main E getenv sources w)
    = logs w
      ++ ["[INFO] Iniciando Migracion FINAL (Strict Types + TrimSpaces + High Performance)...";
          "[FATAL] Falta variable de entorno: " +:+ v].
Proof.
  unfold main. intros [(H1 & ->) | [(H1 & H2 & ->) | (H1 & H2 & H3 & ->)]].
  - rewrite filter_cons_True by done. cbn [logPrint target logs].
    by rewrite <- app_assoc.
  - rewrite filter_cons_False, filter_cons_True by done. cbn [logPrint target logs].
    by rewrite <- app_assoc.
  - rewrite !filter_cons_False, filter_cons_True by done. cbn [logPrint target logs].
    by rewrite <- app_assoc.
Qed.

Lemma main_missing_variable_witness :
  target (main demoEngine (λ v, if String.eqb v "MSSQL_PASS" then "" else "x")
            (λ _, demoDB) demoWorld)
  = target demoWorld
  ∧ logs (main demoEngine (λ v, if String.eqb v "MSSQL_PASS" then "" else "x")
            (λ _, demoDB) demoWorld)
    = logs demoWorld
      ++ ["[INFO] Iniciando Migracion FINAL (Strict Types + TrimSpaces + High Performance)...";
          "[FATAL] Falta variable de entorno: " +:+ "MSSQL_PASS"].
Proof.
  apply (main_missing_variable demoEngine
           (λ v, if String.eqb v "MSSQL_PASS" then "" else "x") (λ _, demoDB) demoWorld).
  right. right. repeat split; discriminate.
Defined.

Lemma listTables_kept (catalog : list string) (t : string) :
  t ∈ listTables catalog → isIgnoredTable t = false.
Proof.
  induction catalog as [|t0 catalog IH]; cbn [listTables].
  - by intros H%not_elem_of_nil.
  - destruct (isIgnoredTable (strings.TrimSpace t0)) eqn:Hig; cbn [negb]; [done |].
    intros [-> | H]%elem_of_cons; [done | by apply IH].
Qed.

Lemma droppedOf_snd (schema : string) (ms : SourceDB) (jobs : list string)
    (k : string * string) :
  k ∈ droppedOf schema ms jobs → k.2 ∈ jobs.
Proof.
  induction jobs as [|table jobs IH]; cbn [droppedOf].
  - by intros H%not_elem_of_empty.
  - intros [H | H]%elem_of_union; [| by apply list_elem_of_further, IH].
    destruct (opens ms table).
    + apply elem_of_singleton in H as ->. apply list_elem_of_here.
    + by apply not_elem_of_empty in H.
Qed.

Lemma droppedAll_inv (sources : string → SourceDB) (dbs : list string)
    (k : string * string) :
  k ∈ droppedAll sources dbs → k.1 ∈ dbs ∧ isIgnoredTable k.2 = false.
Proof.
  induction dbs as [|a dbs IH]; cbn [droppedAll].
  - by intros H%not_elem_of_empty.
  - intros [H | H]%elem_of_union.
    + unfold droppedBy in H. destruct (OpenErr (sources a)).
      { by apply not_elem_of_empty in H. }
      destruct (TableNames (sources a)) as [names | e].
      * split.
        -- rewrite (droppedOf_fst _ _ _ _ H). apply list_elem_of_here.
        -- eapply listTables_kept, droppedOf_snd, H.
      * by apply not_elem_of_empty in H.
    + destruct (IH H) as [H1 H2]. split; [by apply list_elem_of_further | done].
Qed.



(** ** Names that collide *)

Lemma append_assoc (a b c : string) : (a +:+ b) +:+ c = a +:+ b +:+ c.
Proof.
  induction a as [|x a IH]; [done |].
  change (String x ((a +:+ b) +:+ c) = String x (a +:+ b +:+ c)). by rewrite IH.
Qed.

Lemma append_longer (a b : string) (x : ascii) : a +:+ String x b ≠ a.
Proof.
  intros H. apply (f_equal String.length) in H.
  rewrite strings_facts.length_app in H. simpl in H. lia.
Qed.

(** X21: the name of a foreign key does not tell the column from the
    referenced table: the column [a_b] onto the table [c] and the column [a]
    onto the table [b_c] of one origin table get the same constraint name,
    whatever the lengths, although their statements differ. *)
Theorem pgFkName_collision (schema table a b c : string)
    (n1 n2 r1 r2 : string) :
  pgFkName table (a +:+ "_" +:+ b) c = pgFkName table a (b +:+ "_" +:+ c)
  ∧ ∃ fk1 fk2,
      foreignKeyLoop schema table
        [Some (n1, a +:+ "_" +:+ b, c, r1); Some (n2, a, b +:+ "_" +:+ c, r2)]
      = [fk1; fk2]
      ∧ ConstraintName fk1 = ConstraintName fk2
      ∧ SQL fk1 ≠ SQL fk2.
Proof.
  assert (pgFkName table (a +:+ "_" +:+ b) c = pgFkName table a (b +:+ "_" +:+ c)) as Hname.
  { unfold pgFkName. f_equal.
    change ("fk_" +:+ table +:+ "_" +:+ (a +:+ "_" +:+ b) +:+ "_" +:+ c)
      with ("fk_" +:+ (table +:+ ("_" +:+ ((a +:+ ("_" +:+ b)) +:+ ("_" +:+ c))))).
    by rewrite !append_assoc. }
  split; [exact Hname |]. eexists _, _. split; [reflexivity |].
  cbn [ConstraintName SQL]. split; [exact Hname |].
  intros H.
  apply (f_equal (λ q, match q with
                       | AddForeignKey _ _ _ col _ _ _ => col
                       | _ => EmptyString
                       end)) in H.
  by apply append_longer in H.
Qed.

(** ** Two table copies in either order *)

Lemma strip_refs_comm (k1 k2 : string * string) (t : Table) :
  strip_refs k1 (strip_refs k2 t) = strip_refs k2 (strip_refs k1 t).
Proof.
  unfold strip_refs. cbn [body fks]. f_equal.
  induction (fks t) as [|f l IH]; [done |].
  destruct (decide (fk_ref f = k1)) as [H1 | H1], (decide (fk_ref f = k2)) as [H2 | H2].
  - rewrite (filter_cons_False (λ f, fk_ref f ≠ k2) f l) by (intros H; by apply H).
    rewrite (filter_cons_False (λ f, fk_ref f ≠ k1) f l) by (intros H; by apply H).
    exact IH.
  - rewrite (filter_cons_True (λ f, fk_ref f ≠ k2) f l) by done.
    rewrite !(filter_cons_False (λ f, fk_ref f ≠ k1)) by (intros H; by apply H).
    exact IH.
  - rewrite (filter_cons_True (λ f, fk_ref f ≠ k1) f l) by done.
    rewrite !(filter_cons_False (λ f, fk_ref f ≠ k2)) by (intros H; by apply H).
    exact IH.
  - rewrite (filter_cons_True (λ f, fk_ref f ≠ k2) f l) by done.
    rewrite (filter_cons_True (λ f, fk_ref f ≠ k1) f l) by done.
    rewrite (filter_cons_True (λ f, fk_ref f ≠ k1)) by done.
    rewrite (filter_cons_True (λ f, fk_ref f ≠ k2)) by done.
    by rewrite IH.
Qed.

Lemma strip_refs_no_fks (k : string * string) (t : Table) :
  fks t = [] → strip_refs k t = t.
Proof. destruct t as [b l]. cbn [fks]. by intros ->. Qed.

Lemma migrated_lookup (E : Engine) (schema table : string) (ms : SourceDB) (pg : PG)
    (k : string * string) :
  tables (migrated E schema table ms pg) !! k
  = match queryWithRetry (Query (TableOf ms table)) (seqZ 1 MaxRetries) (Err "") with
    | Err _ => tables pg !! k
    | Ok rows =>
        if decide (k = (schema, table))
        then (if creatable E schema table rows pg
              then Some (rebuilt E schema table ms rows) else None)
        else strip_refs (schema, table) <$> tables pg !! k
    end.
Proof.
  unfold migrated. destruct (queryWithRetry _ _ _) as [rows | e]; [| done]. cbn [tables].
  destruct (decide (k = (schema, table))) as [-> | Hne].
  - destruct (creatable E schema table rows pg).
    + by rewrite lookup_insert_eq.
    + by rewrite lookup_fmap, lookup_delete_eq.
  - destruct (creatable E schema table rows pg).
    + by rewrite lookup_insert_ne, lookup_fmap, lookup_delete_ne.
    + by rewrite lookup_fmap, lookup_delete_ne.
Qed.

Lemma migrated_commute (E : Engine) (s1 t1 s2 t2 : string) (ms1 ms2 : SourceDB) (pg : PG) :
  (s1, t1) ≠ (s2, t2) →
  migrated E s2 t2 ms2 (migrated E s1 t1 ms1 pg)
  = migrated E s1 t1 ms1 (migrated E s2 t2 ms2 pg).
Proof.
  intros Hne.
  assert (∀ pg1 pg2 : PG, schemas pg1 = schemas pg2 → tables pg1 = tables pg2 → pg1 = pg2)
    as Hext by (intros [] []; cbn; congruence).
  apply Hext; [by rewrite !migrated_schemas |].
  apply map_eq. intros k. rewrite !migrated_lookup.
  destruct (queryWithRetry (Query (TableOf ms1 t1)) _ _) as [rows1 | e1],
    (queryWithRetry (Query (TableOf ms2 t2)) _ _) as [rows2 | e2];
    try rewrite (creatable_agree E s2 t2 _ (migrated E s1 t1 ms1 pg) pg)
      by (by rewrite migrated_schemas);
    try rewrite (creatable_agree E s1 t1 _ (migrated E s2 t2 ms2 pg) pg)
      by (by rewrite migrated_schemas);
    try done.
  destruct (decide (k = (s2, t2))) as [-> | H2].
  - rewrite decide_False by done.
    destruct (creatable E s2 t2 rows2 pg); [| done].
    cbn [fmap option_fmap option_map]. f_equal. symmetry.
    apply strip_refs_no_fks, rebuilt_parts.
  - destruct (decide (k = (s1, t1))) as [-> | H1].
    + destruct (creatable E s1 t1 rows1 pg); [| done].
      cbn [fmap option_fmap option_map]. f_equal.
      apply strip_refs_no_fks, rebuilt_parts.
    + destruct (tables pg !! k) as [t |]; [| done].
      cbn [fmap option_fmap option_map]. f_equal. apply strip_refs_comm.
Qed.



(** * The run with a DROP that can fail and a pool of workers *)

Lemma general_exec_drop_accepted (D : General.FullEngine) (ns tbl : string) (pg : PG) :
  General.drop_err D ns tbl (tables pg !! (ns, tbl)) = None →
  General.exec D (DropTable ns tbl) pg = (drop_cascade (ns, tbl) pg, None).
Proof. intros H. cbn [General.exec]. by rewrite H. Qed.

Lemma general_exec_drop_schemas (D : General.FullEngine) (ns tbl : string) (pg : PG) :
  schemas (General.exec D (DropTable ns tbl) pg).1 = schemas pg.
Proof. cbn [General.exec]. by destruct (General.drop_err D _ _ _). Qed.

Lemma exec_create_accepted (E : Engine) (ns tbl : string) (cols : list (string * string))
    (pg : PG) :
  (exec E (CreateTable ns tbl cols) pg).2 = None →
  tables pg !! (ns, tbl) = None
  ∧ exec E (CreateTable ns tbl cols) pg
    = (mkPG (schemas pg) (<[(ns, tbl) := freshTable cols]> (tables pg)), None).
Proof.
  cbn [exec]. destruct (bool_decide (ns ∈ schemas pg)); [| done].
  destruct (tables pg !! (ns, tbl)); [done |].
  by destruct (create_err E ns tbl cols).
Qed.

Lemma exec_create_rejected (E : Engine) (ns tbl : string) (cols : list (string * string))
    (pg : PG) (e : string) :
  (exec E (CreateTable ns tbl cols) pg).2 = Some e →
  exec E (CreateTable ns tbl cols) pg = (pg, Some e).
Proof.
  cbn [exec]. destruct (bool_decide (ns ∈ schemas pg)); [| by intros [= ->]].
  destruct (tables pg !! (ns, tbl)); [by intros [= ->] |].
  destruct (create_err E ns tbl cols); [by intros [= ->] | done].
Qed.

(** The outcome of a copy whose cursor opens, by the fate of its CREATE
    TABLE. *)
Lemma general_migrateTable_created (D : General.FullEngine) (schema table : string)
    (ms : SourceDB) (w : World) (rows : Cursor) :
  queryWithRetry (Query (TableOf ms table)) (seqZ 1 MaxRetries) (Err "") = Ok rows →
  (General.exec D (CreateTable schema table (columnDefs (Columns rows) (ColumnTypes rows)))
     (General.exec D (DropTable schema table) (target w)).1).2 = None →
  (General.migrateTable D schema table ms w).1 = getForeignKeys ms schema table
  ∧ target (General.migrateTable D schema table ms w).2
    = mkPG (schemas (target w))
        (<[(schema, table) := rebuilt (General.statements D) schema table ms rows]>
           (tables (General.exec D (DropTable schema table) (target w)).1)).
Proof.
  intros Hq Hc. unfold General.migrateTable. rewrite Hq.
  unfold on_target. cbn [target logs].
  change (General.exec D (CreateTable ?a ?b ?c)) with (exec (General.statements D) (CreateTable a b c))
    in *.
  apply exec_create_accepted in Hc as [Hnone ->].
  erewrite copyRows_committed by (cbn [tables]; apply lookup_insert_eq).
  change (General.exec D (AddPrimaryKey ?a ?b ?c ?d))
    with (exec (General.statements D) (AddPrimaryKey a b c d)).
  erewrite exec_primary_key by (cbn [tables]; apply lookup_insert_eq).
  cbn [schemas tables b_cols body freshTable]. rewrite !insert_insert_eq.
  rewrite general_exec_drop_schemas.
  by destruct (0 <? _).
Qed.

Lemma general_migrateTable_not_created (D : General.FullEngine) (schema table : string)
    (ms : SourceDB) (w : World) (rows : Cursor) (e : string) :
  queryWithRetry (Query (TableOf ms table)) (seqZ 1 MaxRetries) (Err "") = Ok rows →
  (General.exec D (CreateTable schema table (columnDefs (Columns rows) (ColumnTypes rows)))
     (General.exec D (DropTable schema table) (target w)).1).2 = Some e →
  General.migrateTable D schema table ms w
  = ([], logPrint ("[ERROR] " +:+ table +:+ ": Fallo create table: " +:+ e)
           (on_target (λ pg, (General.exec D (DropTable schema table) pg).1) w)).
Proof.
  intros Hq Hc. unfold General.migrateTable. rewrite Hq.
  unfold on_target. cbn [target logs].
  change (General.exec D (CreateTable ?a ?b ?c)) with (exec (General.statements D) (CreateTable a b c))
    in *.
  by rewrite (exec_create_rejected _ _ _ _ _ _ Hc).
Qed.



(** X14: when the CREATE TABLE of a copy is rejected, the table is not
    rebuilt, no foreign key is returned, and the log gains the one line that
    reports the error.  If the DROP before it was accepted, the table that
    the target held is gone, and with it the foreign keys onto it; if the
    DROP was rejected (the code discards that error), the target is as it
    was before the copy, old table included. *)
Theorem migrateTable_create_failure (D : General.FullEngine) (schema table : string)
    (ms : SourceDB) (w : World) (rows : Cursor) (e : string) :
  queryWithRetry (Query (TableOf ms table)) (seqZ 1 MaxRetries) (Err "") = Ok rows →
  (General.exec D (CreateTable schema table (columnDefs (Columns rows) (ColumnTypes rows)))
     (General.exec D (DropTable schema table) (target w)).1).2 = Some e →
  (General.migrateTable D schema table ms w).1 = []
  ∧ logs (General.migrateTable D schema table ms w).2
    = logs w ++ ["[ERROR] " +:+ table +:+ ": Fallo create table: " +:+ e]
  ∧ match General.drop_err D schema table (tables (target w) !! (schema, table)) with
    | None =>
        target (General.migrateTable D schema table ms w).2
        = drop_cascade (schema, table) (target w)
        ∧ tables (target (General.migrateTable D schema table ms w).2) !! (schema, table)
          = None
    | Some _ => target (General.migrateTable D schema table ms w).2 = target w
    end.
Proof.
  intros Hq Hc. rewrite (general_migrateTable_not_created D schema table ms w rows e Hq Hc).
  split; [done |]. split; [done |].
  cbn [snd logPrint on_target target General.exec].
  destruct (General.drop_err D schema table _); [done |].
  split; [done |]. apply drop_cascade_lookup.
Qed.

Lemma migrateTable_create_failure_witness :
  ((General.migrateTable demoNoCreate "vin" "clientes" demoDB demoWorldHeld).1 = []
   ∧ tables (target demoWorldHeld) !! ("vin", "clientes") = Some demoTable
   ∧ tables (target (General.migrateTable demoNoCreate "vin" "clientes" demoDB
                       demoWorldHeld).2) !! ("vin", "clientes") = None)
  ∧ (logs (General.migrateTable demoNoDrop "vin" "notas" demoDB demoWorldHeld).2
     = ["[ERROR] notas: Fallo create table: relation already exists"]
     ∧ target (General.migrateTable demoNoDrop "vin" "notas" demoDB demoWorldHeld).2
       = target demoWorldHeld).
Proof.
  split.
  - destruct (migrateTable_create_failure demoNoCreate "vin" "clientes" demoDB demoWorldHeld
                (mkCursor ["id"; "nombre"; "activo"]
                   [mkColumnType "INT" (10, 0); mkColumnType "NVARCHAR" (0, 0);
                    mkColumnType "BIT" (0, 0)]
                   [Some [VInt64 1; VString ("Ana" +:+ NUL); VBytes [x01]];
                    Some [VInt64 2; VString "Luis"; VBytes [x00]]])
                "permission denied" eq_refl eq_refl) as (Hfks & _ & _ & Hgone).
    split; [exact Hfks |]. split; [vm_compute; reflexivity | exact Hgone].
  - destruct (migrateTable_create_failure demoNoDrop "vin" "notas" demoDB demoWorldHeld
                (mkCursor ["cliente"; "nota"]
                   [mkColumnType "INT" (10, 0); mkColumnType "VARCHAR" (0, 0)]
                   [Some [VInt64 1; VString "hola"]; Some [VInt64 2; VBytes [xf1]]])
                "relation already exists" eq_refl eq_refl) as (_ & Hlog & Hsame).
    split; [exact Hlog | exact Hsame].
Defined.

(** * Copies and foreign keys in another order *)

Lemma foldl_concat {A B : Type} (f : B → A → B) (b : B) (ls : list (list A)) :
  foldl f b (concat ls) = foldl (λ b l, foldl f b l) b ls.
Proof.
  revert b. induction ls as [|l ls IH]; intros b; [done |].
  cbn [concat foldl]. by rewrite foldl_app, IH.
Qed.

(** A fold over steps that commute pairwise does not see the order. *)
Lemma foldl_permutation_commute {A B : Type} (f : B → A → B) (l1 l2 : list A) :
  l1 ≡ₚ l2 →
  (∀ x y, x ∈ l1 → y ∈ l1 → ∀ b, f (f b x) y = f (f b y) x) →
  ∀ b, foldl f b l1 = foldl f b l2.
Proof.
  induction 1 as [| x l l' Hp IH | x y l | l l' l'' Hp1 IH1 Hp2 IH2]; intros Hc b.
  - done.
  - cbn [foldl]. apply IH. intros x' y' Hx Hy. apply Hc; by apply list_elem_of_further.
  - cbn [foldl]. f_equal. apply Hc.
    + apply list_elem_of_here.
    + apply list_elem_of_further, list_elem_of_here.
  - rewrite IH1 by done. apply IH2. intros x y Hx Hy. apply Hc; by rewrite Hp1.
Qed.

Lemma foldl_commute_one {A B : Type} (f : B → A → B) (x : A) (l : list A) :
  (∀ y, y ∈ l → ∀ b, f (f b x) y = f (f b y) x) →
  ∀ b, foldl f (f b x) l = f (foldl f b l) x.
Proof.
  induction l as [|y l IH]; intros Hc b; [done |].
  cbn [foldl]. rewrite (Hc y) by apply list_elem_of_here.
  apply IH. intros y' Hy. apply Hc. by apply list_elem_of_further.
Qed.

Lemma foldl_commute_lists {A B : Type} (f : B → A → B) (l1 l2 : list A) :
  (∀ x y, x ∈ l1 → y ∈ l2 → ∀ b, f (f b x) y = f (f b y) x) →
  ∀ b, foldl f (foldl f b l1) l2 = foldl f (foldl f b l2) l1.
Proof.
  induction l1 as [|x l1 IH]; intros Hc b; [done |].
  cbn [foldl]. rewrite IH by (intros x' y Hx Hy; apply Hc; [by apply list_elem_of_further | done]).
  f_equal. apply foldl_commute_one.
  intros y Hy b'. apply Hc; [apply list_elem_of_here | done].
Qed.

(** [ADD CONSTRAINT ... FOREIGN KEY] through [installFK]. *)
Lemma exec_fk_install (E : Engine) (ns tbl name col rns rtbl rcol : string) (pg : PG) :
  (exec E (AddForeignKey ns tbl name col rns rtbl rcol) pg).1
  = mkPG (schemas pg)
      (match installFK E (ns, tbl) (mkFK name col (rns, rtbl) rcol) (tables pg) with
       | Some t => <[(ns, tbl) := t]> (tables pg)
       | None => tables pg
       end).
Proof.
  cbn [exec]. unfold installFK. cbn [fst snd fk_ref].
  destruct (tables pg !! (ns, tbl)) as [t |]; [| by destruct pg].
  destruct (fk_err E ns tbl t _ _); [by destruct pg | done].
Qed.

Lemma installFK_body (E : Engine) (k : string * string) (fk : FK)
    (T : gmap (string * string) Table) (t' : Table) :
  installFK E k fk T = Some t' → ∃ t, T !! k = Some t ∧ body t' = body t.
Proof.
  unfold installFK. destruct (T !! k) as [t |]; [| done].
  destruct (fk_err E _ _ _ _ _); [done |]. intros [= <-]. by exists t.
Qed.

Lemma installFK_insert (E : Engine) (k1 k2 : string * string) (fk : FK)
    (T : gmap (string * string) Table) (t2 t2' : Table) :
  k1 ≠ k2 → T !! k2 = Some t2 → body t2' = body t2 →
  installFK E k1 fk (<[k2 := t2']> T) = installFK E k1 fk T.
Proof.
  intros Hne H2 Hb. unfold installFK. rewrite lookup_insert_ne by done.
  destruct (T !! k1) as [t1 |]; [| done].
  assert (body <$> <[k2 := t2']> T !! fk_ref fk = body <$> T !! fk_ref fk) as ->; [| done].
  destruct (decide (fk_ref fk = k2)) as [-> | Hr].
  - rewrite lookup_insert_eq, H2. cbn. by rewrite Hb.
  - by rewrite lookup_insert_ne.
Qed.

(** Two [ADD CONSTRAINT ... FOREIGN KEY] on different tables commute: each
    is decided on its own table and on the columns, rows and primary key of
    the table it references, which no such statement changes. *)
Lemma exec_fk_commute (E : Engine) (ns1 tbl1 name1 col1 rns1 rtbl1 rcol1 : string)
    (ns2 tbl2 name2 col2 rns2 rtbl2 rcol2 : string) (pg : PG) :
  (ns1, tbl1) ≠ (ns2, tbl2) →
  (exec E (AddForeignKey ns2 tbl2 name2 col2 rns2 rtbl2 rcol2)
     (exec E (AddForeignKey ns1 tbl1 name1 col1 rns1 rtbl1 rcol1) pg).1).1
  = (exec E (AddForeignKey ns1 tbl1 name1 col1 rns1 rtbl1 rcol1)
       (exec E (AddForeignKey ns2 tbl2 name2 col2 rns2 rtbl2 rcol2) pg).1).1.
Proof.
  intros Hne. rewrite !exec_fk_install. cbn [schemas tables].
  destruct (installFK E (ns1, tbl1) _ (tables pg)) as [t1 |] eqn:H1;
    destruct (installFK E (ns2, tbl2) _ (tables pg)) as [t2 |] eqn:H2.
  - destruct (installFK_body _ _ _ _ _ H1) as (u1 & Hu1 & Hb1).
    destruct (installFK_body _ _ _ _ _ H2) as (u2 & Hu2 & Hb2).
    rewrite (installFK_insert E _ _ _ _ u1 t1), (installFK_insert E _ _ _ _ u2 t2)
      by done.
    rewrite ?H1, ?H2. f_equal. by apply insert_insert_ne.
  - destruct (installFK_body _ _ _ _ _ H1) as (u1 & Hu1 & Hb1).
    rewrite (installFK_insert E _ _ _ _ u1 t1) by done. by rewrite ?H1, ?H2.
  - destruct (installFK_body _ _ _ _ _ H2) as (u2 & Hu2 & Hb2).
    rewrite (installFK_insert E _ _ _ _ u2 t2) by done. by rewrite ?H1, ?H2.
  - by rewrite ?H1, ?H2.
Qed.

Lemma migratedFks_elem (E : Engine) (schema table : string) (ms : SourceDB) (pg : PG)
    (fk : ForeignKeySQL) :
  fk ∈ migratedFks E schema table ms pg →
  ∃ name col refTable refCol,
    SQL fk = AddForeignKey schema table name col schema refTable refCol.
Proof.
  unfold migratedFks. destruct (queryWithRetry _ _ _) as [rows | e].
  - destruct (creatable E schema table rows pg).
    + intros (col & refTable & refCol & ->)%getForeignKeys_elem. by eexists _, _, _, _.
    + by intros ?%not_elem_of_nil.
  - by intros ?%not_elem_of_nil.
Qed.

Lemma channelOf_elem (E : Engine) (schema : string) (ms : SourceDB) (pg : PG)
    (jobs : list string) (fks : list ForeignKeySQL) :
  fks ∈ channelOf E schema ms pg jobs →
  ∃ table, table ∈ jobs ∧ fks = migratedFks E schema table ms pg.
Proof.
  unfold channelOf. intros [_ (t & -> & Ht)%list_elem_of_fmap]%list_elem_of_filter.
  by exists t.
Qed.

Lemma channelOf_agree (E : Engine) (schema : string) (ms : SourceDB) (pg pg' : PG)
    (jobs : list string) :
  schemas pg = schemas pg' →
  channelOf E schema ms pg jobs = channelOf E schema ms pg' jobs.
Proof.
  intros Hs. unfold channelOf. f_equal. apply list_fmap_ext. intros _ t _.
  apply migratedFks_agree. by rewrite Hs.
Qed.

Lemma channelOf_cons (E : Engine) (schema : string) (ms : SourceDB) (pg : PG)
    (table : string) (jobs : list string) :
  channelOf E schema ms pg (table :: jobs)
  = (if (0 <? length (migratedFks E schema table ms pg))%nat
     then [migratedFks E schema table ms pg] else [])
    ++ channelOf E schema ms pg jobs.
Proof.
  unfold channelOf. cbn [fmap list_fmap].
  destruct (Nat.ltb_spec 0 (length (migratedFks E schema table ms pg))).
  - by rewrite filter_cons_True.
  - rewrite filter_cons_False; [done | lia].
Qed.

Lemma channelOf_permutation (E : Engine) (schema : string) (ms : SourceDB) (pg : PG)
    (jobs jobs' : list string) :
  jobs ≡ₚ jobs' → channelOf E schema ms pg jobs ≡ₚ channelOf E schema ms pg jobs'.
Proof. intros H. unfold channelOf. by rewrite H. Qed.

(** The worker loop, by its two results: the collector channel gains the
    non-empty lists of the copies, in order, and the target goes through
    the copies, in order. *)
Lemma workerT_fst (E : Engine) (schema : string) (ms : SourceDB) (jobs : list string)
    (fkChan : list (list ForeignKeySQL)) (pg : PG) :
  (workerT E schema ms jobs fkChan pg).1 = fkChan ++ channelOf E schema ms pg jobs.
Proof.
  revert fkChan pg. induction jobs as [|t jobs IH]; intros fkChan pg; cbn [workerT].
  - unfold channelOf. cbn. by rewrite app_nil_r.
  - rewrite IH, channelOf_cons.
    rewrite (channelOf_agree E schema ms (migrated E schema t ms pg) pg)
      by apply migrated_schemas.
    destruct (0 <? length _)%nat; [by rewrite <- app_assoc | done].
Qed.

Lemma workerT_snd (E : Engine) (schema : string) (ms : SourceDB) (jobs : list string)
    (fkChan : list (list ForeignKeySQL)) (pg : PG) :
  (workerT E schema ms jobs fkChan pg).2
  = foldl (λ pg table, migrated E schema table ms pg) pg jobs.
Proof.
  revert fkChan pg. induction jobs as [|t jobs IH]; intros fkChan pg; cbn [workerT foldl];
    [done | apply IH].
Qed.

(** The foreign keys of a collector channel in another order of the lists
    leave the same target. *)
Lemma applyT_block_commute (E : Engine) (schema : string) (ms : SourceDB) (pg0 : PG)
    (t1 t2 : string) (pg : PG) :
  applyT E (migratedFks E schema t2 ms pg0) (applyT E (migratedFks E schema t1 ms pg0) pg)
  = applyT E (migratedFks E schema t1 ms pg0) (applyT E (migratedFks E schema t2 ms pg0) pg).
Proof.
  destruct (decide (t1 = t2)) as [-> | Hne]; [done |].
  unfold applyT. apply foldl_commute_lists.
  intros fk1 fk2 (n1 & c1 & r1 & rc1 & ->)%migratedFks_elem
    (n2 & c2 & r2 & rc2 & ->)%migratedFks_elem pg'.
  apply exec_fk_commute. congruence.
Qed.

Lemma applyT_channel_permutation (E : Engine) (schema : string) (ms : SourceDB) (pg0 : PG)
    (jobs : list string) (fkChan : list (list ForeignKeySQL)) (pg : PG) :
  fkChan ≡ₚ channelOf E schema ms pg0 jobs →
  applyT E (concat fkChan) pg = applyT E (concat (channelOf E schema ms pg0 jobs)) pg.
Proof.
  intros Hp. unfold applyT. rewrite !foldl_concat.
  apply (foldl_permutation_commute _ _ _ Hp).
  intros b1 b2 Hb1 Hb2 pg'. rewrite Hp in Hb1, Hb2.
  apply channelOf_elem in Hb1 as (t1 & _ & ->). apply channelOf_elem in Hb2 as (t2 & _ & ->).
  apply (applyT_block_commute E schema ms pg0 t1 t2 pg').
Qed.

(** * The pool of workers *)

Lemma mask_union_strip (D : gset (string * string)) (k : string * string) (t : Table) :
  strip_refs k (mask D t) = mask (D ∪ {[k]}) t.
Proof.
  unfold mask, strip_refs. cbn [body fks]. f_equal.
  induction (fks t) as [|f l IH]; [done |].
  destruct (decide (fk_ref f ∈ D)) as [Hin | Hout].
  - rewrite (filter_cons_False (λ f, fk_ref f ∉ D)) by (intros H; by apply H).
    rewrite (filter_cons_False (λ f, fk_ref f ∉ D ∪ {[k]}));
      [done | intros H; apply H; by apply elem_of_union_l].
  - rewrite (filter_cons_True (λ f, fk_ref f ∉ D)) by done.
    destruct (decide (fk_ref f = k)) as [Heq | Hne].
    + rewrite (filter_cons_False (λ f, fk_ref f ≠ k)) by (intros H; by apply H).
      rewrite (filter_cons_False (λ f, fk_ref f ∉ D ∪ {[k]}));
        [done | intros H; apply H; by apply elem_of_union_r, elem_of_singleton].
    + rewrite (filter_cons_True (λ f, fk_ref f ≠ k)) by done.
      rewrite (filter_cons_True (λ f, fk_ref f ∉ D ∪ {[k]})); [by rewrite IH |].
      intros [H | H%elem_of_singleton]%elem_of_union; done.
Qed.

Lemma copied_strip (E : Engine) (schema table : string) (ms : SourceDB) (pg0 : PG)
    (k : string * string) :
  strip_refs k <$> copied E schema table ms pg0 = copied E schema table ms pg0.
Proof.
  unfold copied. destruct (queryWithRetry _ _ _) as [rows | e]; [| done].
  destruct (creatable E schema table rows pg0); [| done]. cbn. f_equal.
  apply strip_refs_no_fks. by destruct (rebuilt_parts E schema table ms rows) as (_ & _ & ->).
Qed.

Lemma job_inv_strip (E : Engine) (schema : string) (ms : SourceDB) (pg0 : PG)
    (j : General.Job) (cur : option Table) (k : string * string) :
  job_inv E schema ms pg0 j cur → job_inv E schema ms pg0 j (strip_refs k <$> cur).
Proof.
  destruct j as [t | t rows | t rows | t rows scans tx count | t rows scans tx count
                 | t count | t count]; cbn [job_inv]; try done.
  - by intros [? ->].
  - intros (? & ? & stored & -> & ?). split; [done |]. split; [done |].
    exists stored. split; [reflexivity | done].
  - intros (? & ? & stored & -> & ?). split; [done |]. split; [done |].
    exists stored. split; [reflexivity | done].
  - intros (rows & ? & ? & ->). exists rows. split; [done |]. split; [done |].
    reflexivity.
  - intros (rows & ? & ? & ->). exists rows. split; [done |]. split; [done |].
    cbn. f_equal. apply strip_refs_no_fks.
    by destruct (rebuilt_parts E schema t ms rows) as (_ & _ & ->).
Qed.

(** The tables of the busy workers, as workers take, keep and finish
    copies. *)
Lemma active_insert (W : gmap nat General.Job) (i : nat) (j : General.Job) :
  W !! i = None → active (<[i := j]> W) ≡ₚ General.job_table j :: active W.
Proof. intros H. unfold active. by rewrite map_to_list_insert. Qed.

Lemma active_delete (W : gmap nat General.Job) (i : nat) (j : General.Job) :
  W !! i = Some j → active W ≡ₚ General.job_table j :: active (delete i W).
Proof. intros H. unfold active. by rewrite <- (map_to_list_delete W i j H). Qed.

Lemma active_update (W : gmap nat General.Job) (i : nat) (j j' : General.Job) :
  W !! i = Some j → General.job_table j' = General.job_table j →
  active (<[i := j']> W) ≡ₚ active W.
Proof.
  intros H Ht. rewrite <- (insert_delete_eq W i j').
  rewrite active_insert by apply lookup_delete_eq.
  by rewrite Ht, <- active_delete.
Qed.

Lemma active_elem (W : gmap nat General.Job) (i : nat) (j : General.Job) :
  W !! i = Some j → General.job_table j ∈ active W.
Proof.
  intros H. unfold active. apply list_elem_of_fmap. exists (i, j).
  split; [done |]. by apply elem_of_map_to_list.
Qed.

Lemma active_distinct (W : gmap nat General.Job) (i i' : nat) (j j' : General.Job) :
  NoDup (active W) → W !! i = Some j → W !! i' = Some j' →
  General.job_table j = General.job_table j' → i = i'.
Proof.
  intros Hnd Hi Hi' Ht. destruct (decide (i = i')) as [| Hne]; [done | exfalso].
  rewrite (active_delete W i j Hi) in Hnd. apply NoDup_cons in Hnd as [Hnot _].
  apply Hnot. rewrite Ht. apply (active_elem _ i'). by rewrite lookup_delete_ne.
Qed.

Lemma mask_empty_lookup (cur : option Table) : mask ∅ <$> cur = cur.
Proof. destruct cur as [t |]; [| done]. cbn. by rewrite mask_empty. Qed.

(** ** The target when the pool has come to its end *)

Lemma elem_of_droppedOf (schema : string) (ms : SourceDB) (jobs : list string)
    (k : string * string) :
  k ∈ droppedOf schema ms jobs
  ↔ ∃ t, k = (schema, t) ∧ t ∈ jobs ∧ opens ms t = true.
Proof.
  induction jobs as [|a jobs IH]; cbn [droppedOf].
  - split; [by intros ?%not_elem_of_empty | by intros (t & _ & ?%not_elem_of_nil & _)].
  - rewrite elem_of_union, IH. split.
    + intros [H | (t & -> & Hin & Ho)].
      * destruct (opens ms a) eqn:Ho; [| by apply not_elem_of_empty in H].
        apply elem_of_singleton in H as ->. exists a.
        split; [done |]. split; [apply list_elem_of_here | done].
      * exists t. split; [done |]. split; [by apply list_elem_of_further | done].
    + intros (t & -> & [-> | Hin]%elem_of_cons & Ho).
      * left. rewrite Ho. by apply elem_of_singleton.
      * right. by exists t.
Qed.

Lemma copies_done_unique (E : Engine) (schema : string) (ms : SourceDB) (pg0 : PG)
    (jobs0 : list string) (pg pg' : PG) :
  copies_done E schema ms pg0 jobs0 pg → copies_done E schema ms pg0 jobs0 pg' → pg = pg'.
Proof.
  intros [Hs Ht] [Hs' Ht']. destruct pg as [S T], pg' as [S' T']. cbn [schemas tables] in *.
  f_equal; [congruence |]. apply map_eq. intros k. by rewrite Ht, Ht'.
Qed.

Lemma copied_agree (E : Engine) (schema table : string) (ms : SourceDB) (pg pg' : PG) :
  schemas pg = schemas pg' → copied E schema table ms pg = copied E schema table ms pg'.
Proof.
  intros Hs. unfold copied. destruct (queryWithRetry _ _ _) as [rows | e]; [| done].
  rewrite (creatable_agree E schema table rows pg pg'); [done | by rewrite Hs].
Qed.

Lemma copied_mask (E : Engine) (schema table : string) (ms : SourceDB) (pg0 : PG)
    (dropped : gset (string * string)) :
  mask dropped <$> copied E schema table ms pg0 = copied E schema table ms pg0.
Proof.
  unfold copied. destruct (queryWithRetry _ _ _) as [rows | e]; [| done].
  destruct (creatable E schema table rows pg0); [| done]. cbn. f_equal.
  pose proof (rebuilt_parts E schema table ms rows) as (_ & _ & Hfks).
  destruct (rebuilt E schema table ms rows) as [b l]. cbn [fks] in Hfks. subst l.
  reflexivity.
Qed.

Lemma mask_strip_union (dropped : gset (string * string)) (k : string * string)
    (t : Table) :
  mask dropped (strip_refs k t) = mask ({[k]} ∪ dropped) t.
Proof.
  unfold mask, strip_refs. cbn [body fks]. f_equal.
  induction (fks t) as [|f l IH]; [done |].
  destruct (decide (fk_ref f = k)) as [Heq | Hne].
  - rewrite (filter_cons_False (λ f, fk_ref f ≠ k)) by (intros H; by apply H).
    rewrite (filter_cons_False (λ f, fk_ref f ∉ {[k]} ∪ dropped));
      [done | intros H; apply H; by apply elem_of_union_l, elem_of_singleton].
  - rewrite (filter_cons_True (λ f, fk_ref f ≠ k)) by done.
    destruct (decide (fk_ref f ∈ dropped)) as [Hin | Hout].
    + rewrite (filter_cons_False (λ f, fk_ref f ∉ dropped)) by (intros H; by apply H).
      rewrite (filter_cons_False (λ f, fk_ref f ∉ {[k]} ∪ dropped));
        [done | intros H; apply H; by apply elem_of_union_r].
    + rewrite (filter_cons_True (λ f, fk_ref f ∉ dropped)) by done.
      rewrite (filter_cons_True (λ f, fk_ref f ∉ {[k]} ∪ dropped)); [by rewrite IH |].
      intros [H%elem_of_singleton | H]%elem_of_union; done.
Qed.

(** The copies of a queue of distinct tables, one after the other. *)
Lemma workerT_copies_done (E : Engine) (schema : string) (ms : SourceDB)
    (jobs : list string) (fkChan : list (list ForeignKeySQL)) (pg : PG) :
  NoDup jobs →
  copies_done E schema ms pg jobs (workerT E schema ms jobs fkChan pg).2.
Proof.
  rewrite workerT_snd. revert pg. induction jobs as [|t jobs IH]; intros pg Hnd.
  - split; [done |]. intros k. cbn [foldl droppedOf].
    rewrite decide_False by apply not_elem_of_empty. by rewrite mask_empty_lookup.
  - apply NoDup_cons in Hnd as [Hnot Hnd]. cbn [foldl].
    destruct (IH (migrated E schema t ms pg) Hnd) as [Hs Ht].
    split; [by rewrite Hs, migrated_schemas |]. intros k. rewrite Ht. clear Ht.
    rewrite droppedOf_cons. unfold dropped1.
    destruct (opens ms t) eqn:Ho.
    2: { rewrite (migrated_closed E schema t ms pg Ho), union_empty_l_L.
         by destruct (decide (k ∈ droppedOf schema ms jobs)). }
    destruct (decide (k ∈ droppedOf schema ms jobs)) as [Hin | Hout].
    + rewrite decide_True by (by apply elem_of_union_r).
      apply copied_agree, migrated_schemas.
    + destruct (decide (k = (schema, t))) as [-> | Hne].
      * rewrite decide_True by (by apply elem_of_union_l, elem_of_singleton).
        cbn [snd]. rewrite migrated_lookup.
        pose proof (copied_mask E schema t ms pg (droppedOf schema ms jobs)) as Hm.
        unfold opens in Ho. unfold copied in *.
        destruct (queryWithRetry _ _ _) as [rows | e]; [| done].
        by rewrite decide_True.
      * rewrite decide_False
          by (intros [H%elem_of_singleton | H]%elem_of_union; done).
        rewrite migrated_open_ne by done.
        destruct (tables pg !! k) as [u |]; [| done]. cbn. by rewrite mask_strip_union.
Qed.

Section Pool.

Variable D : General.FullEngine.
Variable schema : string.
Variable ms : SourceDB.
Variable pg0 : PG.
Variable jobs0 : list string.
Hypothesis Hdrop : General.drops_accepted D.
Hypothesis Hnodup : NoDup jobs0.

Local Abbreviation E := (General.statements D).
Local Abbreviation inv := (pool_inv E schema ms pg0 jobs0).

Lemma pool_inv_init (w : World) :
  target w = pg0 → inv (General.mkPool jobs0 ∅ w []).
Proof.
  intros Hw. exists [], ∅. cbn [General.queue General.workers General.world General.fkChan].
  unfold active. rewrite map_to_list_empty, Hw. cbn [fmap list_fmap app].
  split; [done |]. split; [done |]. split; [done |]. split; [| split; [| split]].
  - intros k. split; [by intros ?%not_elem_of_empty |].
    intros (t & _ & [[H%not_elem_of_nil _] | (i & j & H & _)]); [done |].
    by rewrite lookup_empty in H.
  - intros i j H. by rewrite lookup_empty in H.
  - by intros t H%not_elem_of_nil.
  - intros k _. by rewrite mask_empty_lookup.
Qed.

Lemma pool_inv_job (p : General.Pool) (i : nat) (j : General.Job) :
  inv p → General.workers p !! i = Some j →
  job_inv E schema ms pg0 j
    (tables (target (General.world p)) !! (schema, General.job_table j)).
Proof. intros (done & dropped & _ & _ & _ & _ & H & _) Hi. by apply (H i). Qed.

Lemma pool_inv_schemas (p : General.Pool) :
  inv p → schemas (target (General.world p)) = schemas pg0.
Proof. by intros (done & dropped & _ & H & _). Qed.

(** A worker without a copy takes the next table. *)
Lemma pool_inv_take (p : General.Pool) (i : nat) (t : string) (rest : list string) :
  inv p → General.workers p !! i = None → General.queue p = t :: rest →
  inv (General.mkPool rest (<[i := General.Querying t]> (General.workers p))
         (General.world p) (General.fkChan p)).
Proof.
  intros (done & dropped & H1 & H2 & H3 & H4 & H5 & H6 & H7) Hi Hq.
  exists done, dropped.
  cbn [General.queue General.workers General.world General.fkChan].
  split; [| split; [done | split; [done | split; [| split; [| split; [done | done]]]]]].
  - rewrite H1, Hq, active_insert by done. cbn [General.job_table].
    apply Permutation_app_head. symmetry. apply Permutation_middle.
  - intros k. rewrite H4. split; intros (t' & -> & H); exists t'; (split; [done |]).
    + destruct H as [H | (i0 & j0 & Hw & Ht & Hd)]; [by left | right].
      exists i0, j0. split; [| done]. rewrite lookup_insert_ne; [done |]. congruence.
    + destruct H as [H | (i0 & j0 & Hw & Ht & Hd)]; [by left | right].
      destruct (decide (i0 = i)) as [-> | Hne].
      * rewrite lookup_insert_eq in Hw. injection Hw as <-. done.
      * rewrite lookup_insert_ne in Hw by done. by exists i0, j0.
  - intros i0 j0 Hw. destruct (decide (i0 = i)) as [-> | Hne].
    + rewrite lookup_insert_eq in Hw. by injection Hw as <-.
    + rewrite lookup_insert_ne in Hw by done. by apply (H5 i0).
Qed.

(** A copy moves within its own table. *)
Lemma pool_inv_same (p : General.Pool) (i : nat) (j j' : General.Job) (w' : World) :
  inv p → General.workers p !! i = Some j →
  General.job_table j' = General.job_table j →
  job_dropped j' = job_dropped j →
  schemas (target w') = schemas (target (General.world p)) →
  (∀ k, k ≠ (schema, General.job_table j) →
        tables (target w') !! k = tables (target (General.world p)) !! k) →
  (job_dropped j = false →
   tables (target w') !! (schema, General.job_table j)
   = tables (target (General.world p)) !! (schema, General.job_table j)) →
  job_inv E schema ms pg0 j' (tables (target w') !! (schema, General.job_table j)) →
  inv (General.mkPool (General.queue p) (<[i := j']> (General.workers p)) w'
         (General.fkChan p)).
Proof.
  intros (done & dropped & H1 & H2 & H3 & H4 & H5 & H6 & H7) Hi Ht Hd Hs Hother Hown Hjob.
  assert (NoDup (done ++ active (General.workers p) ++ General.queue p)) as Hnd
    by (by rewrite <- H1).
  apply NoDup_app in Hnd as (_ & Hdone & [Hact _]%NoDup_app).
  exists done, dropped.
  cbn [General.queue General.workers General.world General.fkChan].
  split; [| split; [congruence | split; [done | split; [| split; [| split]]]]].
  - by rewrite (active_update _ i j j').
  - intros k. rewrite H4. split; intros (t' & -> & H); exists t'; (split; [done |]).
    + destruct H as [H | (i0 & j0 & Hw & Ht0 & Hd0)]; [by left | right].
      destruct (decide (i0 = i)) as [-> | Hne].
      * exists i, j'. rewrite lookup_insert_eq. rewrite Hi in Hw. injection Hw as <-.
        split; [done |]. split; congruence.
      * exists i0, j0. by rewrite lookup_insert_ne.
    + destruct H as [H | (i0 & j0 & Hw & Ht0 & Hd0)]; [by left | right].
      destruct (decide (i0 = i)) as [-> | Hne].
      * rewrite lookup_insert_eq in Hw. injection Hw as <-. exists i, j.
        split; [done |]. split; congruence.
      * rewrite lookup_insert_ne in Hw by done. by exists i0, j0.
  - intros i0 j0 Hw. destruct (decide (i0 = i)) as [-> | Hne].
    + rewrite lookup_insert_eq in Hw. injection Hw as <-. by rewrite Ht.
    + rewrite lookup_insert_ne in Hw by done. rewrite Hother; [by apply (H5 i0) |].
      intros [= Heq]. apply Hne. by apply (active_distinct _ _ _ _ _ Hact Hw Hi).
  - intros t Hin Ho. rewrite Hother; [by apply H6 |].
    intros [= ->]. apply (Hdone _ Hin). apply elem_of_app. left. by apply (active_elem _ i).
  - intros k Hk. destruct (decide (k = (schema, General.job_table j))) as [-> | Hne].
    + rewrite Hown; [by apply H7 |]. destruct (job_dropped j) eqn:Hjd; [| done].
      exfalso. apply Hk, H4. exists (General.job_table j). split; [done |]. right.
      by exists i, j.
    + rewrite Hother by done. by apply H7.
Qed.

(** A copy returns. *)
Lemma pool_inv_done (p : General.Pool) (i : nat) (j : General.Job) (w' : World)
    (ch' : list (list ForeignKeySQL)) :
  inv p → General.workers p !! i = Some j →
  target w' = target (General.world p) →
  job_dropped j = opens ms (General.job_table j) →
  (opens ms (General.job_table j) = true →
   tables (target (General.world p)) !! (schema, General.job_table j)
   = copied E schema (General.job_table j) ms pg0) →
  ch' ≡ₚ (if (0 <? length (migratedFks E schema (General.job_table j) ms pg0))%nat
          then [migratedFks E schema (General.job_table j) ms pg0] else [])
         ++ General.fkChan p →
  inv (General.mkPool (General.queue p) (delete i (General.workers p)) w' ch').
Proof.
  intros (done & dropped & H1 & H2 & H3 & H4 & H5 & H6 & H7) Hi Hw' Hd Hown Hch.
  exists (General.job_table j :: done), dropped.
  cbn [General.queue General.workers General.world General.fkChan]. rewrite Hw'.
  split; [| split; [done | split; [| split; [| split; [| split; [| done]]]]]].
  - rewrite H1, (active_delete _ i j Hi). cbn [app].
    symmetry. apply Permutation_middle.
  - by rewrite Hch, channelOf_cons, H3.
  - intros k. rewrite H4. split; intros (t' & -> & H); exists t'; (split; [done |]).
    + destruct H as [[Hin Ho] | (i0 & j0 & Hw & Ht0 & Hd0)].
      * left. split; [by apply list_elem_of_further | done].
      * destruct (decide (i0 = i)) as [-> | Hne].
        -- rewrite Hi in Hw. injection Hw as <-. left. subst t'.
           split; [apply list_elem_of_here | congruence].
        -- right. exists i0, j0. by rewrite lookup_delete_ne.
    + destruct H as [[Hin Ho] | (i0 & j0 & Hw & Ht0 & Hd0)].
      * apply elem_of_cons in Hin as [-> | Hin]; [| by left].
        right. exists i, j. split; [done |]. split; [done | congruence].
      * right. apply lookup_delete_Some in Hw as [Hne Hw]. by exists i0, j0.
  - intros i0 j0 [Hne Hw]%lookup_delete_Some. by apply (H5 i0).
  - intros t [-> | Hin]%elem_of_cons Ho; [by apply Hown | by apply H6].
Qed.

(** A copy drops its table. *)
Lemma pool_inv_drop (p : General.Pool) (i : nat) (t : string) (rows : Cursor) :
  inv p → General.workers p !! i = Some (General.Dropping t rows) →
  inv (General.mkPool (General.queue p)
         (<[i := General.Creating t rows]> (General.workers p))
         (on_target (drop_cascade (schema, t)) (General.world p)) (General.fkChan p)).
Proof.
  intros (done & dropped & H1 & H2 & H3 & H4 & H5 & H6 & H7) Hi.
  assert (NoDup (done ++ active (General.workers p) ++ General.queue p)) as Hnd
    by (by rewrite <- H1).
  apply NoDup_app in Hnd as (_ & Hdone & [Hact _]%NoDup_app).
  assert (∀ k, k ≠ (schema, t) →
            tables (drop_cascade (schema, t) (target (General.world p))) !! k
            = strip_refs (schema, t) <$> tables (target (General.world p)) !! k) as Hlook.
  { intros k Hk. unfold drop_cascade. cbn [tables].
    by rewrite lookup_fmap, lookup_delete_ne. }
  exists done, (dropped ∪ {[(schema, t)]}).
  cbn [General.queue General.workers General.world General.fkChan on_target target].
  split; [| split; [done | split; [done | split; [| split; [| split]]]]].
  - by rewrite (active_update _ i (General.Dropping t rows)).
  - intros k. rewrite elem_of_union, elem_of_singleton, H4. split.
    + intros [(t' & -> & H) | ->].
      * exists t'. split; [done |].
        destruct H as [H | (i0 & j0 & Hw & Ht0 & Hd0)]; [by left | right].
        exists i0, j0. split; [| done]. rewrite lookup_insert_ne; [done |].
        intros <-. rewrite Hi in Hw. by injection Hw as <-.
      * exists t. split; [done |]. right. exists i, (General.Creating t rows).
        by rewrite lookup_insert_eq.
    + intros (t' & -> & [H | (i0 & j0 & Hw & Ht0 & Hd0)]).
      * left. exists t'. split; [done | by left].
      * destruct (decide (i0 = i)) as [-> | Hne].
        -- rewrite lookup_insert_eq in Hw. injection Hw as <-. right. by subst t'.
        -- rewrite lookup_insert_ne in Hw by done. left. exists t'.
           split; [done |]. right. by exists i0, j0.
  - intros i0 j0 Hw. destruct (decide (i0 = i)) as [-> | Hne].
    + rewrite lookup_insert_eq in Hw. injection Hw as <-. cbn [General.job_table job_inv].
      split; [exact (H5 i _ Hi) | apply drop_cascade_lookup].
    + rewrite lookup_insert_ne in Hw by done. rewrite Hlook.
      * apply job_inv_strip. by apply (H5 i0).
      * intros [= Heq]. apply Hne. by apply (active_distinct _ _ _ _ _ Hact Hw Hi).
  - intros t' Hin Ho. rewrite Hlook.
    + rewrite (H6 t' Hin Ho). apply copied_strip.
    + intros [= ->]. apply (Hdone _ Hin). apply elem_of_app. left.
      by apply (active_elem _ i (General.Dropping t rows)).
  - intros k [Hk Hne%not_elem_of_singleton]%not_elem_of_union.
    rewrite Hlook, (H7 k Hk) by done.
    destruct (tables pg0 !! k) as [u |]; [| done]. cbn. by rewrite mask_union_strip.
Qed.

Lemma exec_create_absent (E0 : Engine) (table : string) (rows : Cursor) (pg : PG) :
  tables pg !! (schema, table) = None →
  (creatable E0 schema table rows pg = true
   ∧ exec E0 (CreateTable schema table (columnDefs (Columns rows) (ColumnTypes rows))) pg
     = (mkPG (schemas pg)
          (<[(schema, table) := freshTable (columnDefs (Columns rows) (ColumnTypes rows))]>
             (tables pg)), None))
  ∨ (creatable E0 schema table rows pg = false
     ∧ ∃ e,
         exec E0 (CreateTable schema table (columnDefs (Columns rows) (ColumnTypes rows))) pg
         = (pg, Some e)).
Proof.
  intros Hnone. unfold creatable. cbn [exec]. rewrite Hnone.
  destruct (bool_decide (schema ∈ schemas pg)); [| right; by eauto].
  destruct (create_err E0 schema table _) as [e |] eqn:He; cbn [andb].
  - right. split; [by apply bool_decide_eq_false_2 | by eauto].
  - left. split; [by apply bool_decide_eq_true_2 | done].
Qed.

(** Every step of a worker keeps the pool as [pool_inv] describes it. *)
Lemma pool_step_inv (i : nat) (p : General.Pool) :
  inv p → inv (General.pool_step D schema ms i p).
Proof.
  intros Hinv. unfold General.pool_step. case_bool_decide; [| done].
  destruct (General.workers p !! i) as [j |] eqn:Hi.
  2: { destruct (General.queue p) as [|t rest] eqn:Hq; [done |]. by apply pool_inv_take. }
  pose proof (pool_inv_job p i j Hinv Hi) as Hjob.
  pose proof (pool_inv_schemas p Hinv) as Hs.
  destruct j as [t | t rows | t rows | t rows scans tx count | t rows scans tx count
                 | t count | t count]; cbn [General.job_step job_inv] in *.
  - (* the source query *)
    destruct (queryWithRetry _ _ _) as [rows | e] eqn:Hq.
    + by apply (pool_inv_same p i (General.Querying t)).
    + apply (pool_inv_done p i (General.Querying t)); cbn [General.job_table job_dropped];
        try done.
      * unfold opens. by rewrite Hq.
      * unfold opens. by rewrite Hq.
      * unfold migratedFks. by rewrite Hq.
  - (* DROP TABLE *)
    unfold on_target. rewrite general_exec_drop_accepted by apply Hdrop.
    by apply pool_inv_drop.
  - (* CREATE TABLE *)
    destruct Hjob as [Hq Hnone].
    change (General.exec D (CreateTable ?a ?b ?c)) with (exec E (CreateTable a b c)).
    assert (creatable E schema t rows (target (General.world p))
            = creatable E schema t rows pg0) as Hagree
      by (apply creatable_agree; by rewrite Hs).
    destruct (exec_create_absent E t rows _ Hnone) as [[Hc ->] | [Hc (e & ->)]];
      rewrite Hagree in Hc.
    + apply (pool_inv_same p i (General.Creating t rows));
        cbn [General.job_table job_dropped job_inv target tables schemas]; try done.
      * intros k Hk. by rewrite lookup_insert_ne.
      * split; [done |]. split; [done |]. exists []. rewrite lookup_insert_eq.
        by rewrite append_rows_nil.
    + apply (pool_inv_done p i (General.Creating t rows));
        cbn [General.job_table job_dropped]; try done.
      * unfold opens. by rewrite Hq.
      * intros _. unfold copied. by rewrite Hq, Hc.
      * unfold migratedFks. by rewrite Hq, Hc.
  - (* the row loop *)
    destruct Hjob as (Hq & Hc & stored & Hcur & Hrows).
    destruct scans as [|[values |] rest].
    + unfold on_target. rewrite (tx_commit_lookup _ _ _ _ _ Hcur), append_rows_app.
      apply (pool_inv_same p i (General.Copying t rows [] tx count));
        cbn [General.job_table job_dropped job_inv target tables schemas]; try done.
      * intros k Hk. by rewrite lookup_insert_ne.
      * exists rows. split; [done |]. split; [done |]. rewrite lookup_insert_eq.
        cbn [committed] in Hrows. by rewrite Hrows.
    + rewrite (stmt_exec_step E _ _ _ _ _ _ Hcur).
      cbn [committed] in Hrows. cbn [append_rows freshTable body b_cols] in *.
      destruct (Z.rem (count + 1) BatchSize =? 0).
      * apply (pool_inv_same p i (General.Copying t rows (Some values :: rest) tx count));
          cbn [General.job_table job_dropped job_inv]; try done.
        split; [done |]. split; [done |]. by exists stored.
      * apply (pool_inv_same p i (General.Copying t rows (Some values :: rest) tx count));
          cbn [General.job_table job_dropped job_inv]; try done.
        split; [done |]. split; [done |]. by exists stored.
    + apply (pool_inv_same p i (General.Copying t rows (None :: rest) tx count));
        cbn [General.job_table job_dropped job_inv]; try done.
      split; [done |]. split; [done |]. by exists stored.
  - (* the commit of a full batch *)
    destruct Hjob as (Hq & Hc & stored & Hcur & Hrows).
    unfold on_target. rewrite (tx_commit_lookup _ _ _ _ _ Hcur), append_rows_app.
    apply (pool_inv_same p i (General.Committing t rows scans tx count));
      cbn [General.job_table job_dropped job_inv target tables schemas]; try done.
    + intros k Hk. by rewrite lookup_insert_ne.
    + split; [done |]. split; [done |]. exists (stored ++ tx_rows tx).
      rewrite lookup_insert_eq. split; [done |]. by rewrite <- app_assoc.
  - (* the primary key *)
    destruct Hjob as (rows & Hq & Hc & Hcur).
    set (w' := if (0 <? length (getPrimaryKeyColumns ms t))%nat then _ else _).
    assert (target w'
            = mkPG (schemas (target (General.world p)))
                (<[(schema, t) := rebuilt E schema t ms rows]>
                   (tables (target (General.world p))))) as Hw'.
    { change (rebuilt E schema t ms rows)
        with (withPrimaryKey E schema t (getPrimaryKeyColumns ms t)
                (append_rows (copiedRows E schema t rows)
                   (freshTable (columnDefs (Columns rows) (ColumnTypes rows))))).
      rewrite <- (exec_primary_key E schema t (getPrimaryKeyColumns ms t) _ _ Hcur).
      unfold w'. by destruct (0 <? length _)%nat. }
    apply (pool_inv_same p i (General.Keying t count));
      cbn [General.job_table job_dropped job_inv]; rewrite ?Hw';
      cbn [target tables schemas]; try done.
    + intros k Hk. by rewrite lookup_insert_ne.
    + exists rows. split; [done |]. split; [done |]. by rewrite lookup_insert_eq.
  - (* the log line and the return *)
    destruct Hjob as (rows & Hq & Hc & Hcur).
    apply (pool_inv_done p i (General.Returning t count));
      cbn [General.job_table job_dropped]; try done.
    + by destruct (0 <? count).
    + unfold opens. by rewrite Hq.
    + intros _. unfold copied. by rewrite Hq, Hc.
    + unfold migratedFks. rewrite Hq, Hc.
      destruct (0 <? length _)%nat; [| done]. apply Permutation_app_comm.
Qed.

Lemma pool_run_inv (sched : list nat) (p : General.Pool) :
  inv p → inv (General.pool_run D schema ms sched p).
Proof.
  unfold General.pool_run. revert p.
  induction sched as [|i sched IH]; intros p Hinv; cbn [foldl]; [done |].
  by apply IH, pool_step_inv.
Qed.

(** When the queue is empty and no worker is inside a copy, the target is
    what the copies one after the other leave, and the collector channel
    holds the same lists. *)
Lemma pool_inv_finished (p : General.Pool) :
  inv p → General.queue p = [] → General.workers p = ∅ →
  copies_done E schema ms pg0 jobs0 (target (General.world p))
  ∧ General.fkChan p ≡ₚ channelOf E schema ms pg0 jobs0.
Proof.
  intros (done & dropped & H1 & H2 & H3 & H4 & H5 & H6 & H7) Hq Hw.
  rewrite Hq, Hw in H1. unfold active in H1. rewrite map_to_list_empty in H1.
  cbn [fmap list_fmap] in H1. rewrite !app_nil_r in H1.
  assert (dropped = droppedOf schema ms jobs0) as ->.
  { apply set_eq. intros k. rewrite H4, elem_of_droppedOf. split.
    - intros (t & -> & [[Hin Ho] | (i & j & Hi & _)]).
      + exists t. by rewrite H1.
      + by rewrite Hw, lookup_empty in Hi.
    - intros (t & -> & Hin & Ho). exists t. split; [done |]. left. by rewrite <- H1. }
  split; [split; [done |] | rewrite H3; by apply channelOf_permutation].
  intros k. destruct (decide (k ∈ droppedOf schema ms jobs0)) as [Hin | Hout].
  - apply elem_of_droppedOf in Hin as (t & -> & Hin & Ho). cbn [snd].
    apply H6; [by rewrite <- H1 | done].
  - by apply H7.
Qed.

End Pool.

(** ** The pool comes to an end *)

Section PoolFuel.

Variable D : General.FullEngine.
Variable schema : string.
Variable ms : SourceDB.

Lemma job_fuel_pos (j : General.Job) : (0 < General.job_fuel ms j)%nat.
Proof.
  destruct j; cbn [General.job_fuel]; unfold General.copy_fuel; try lia.
  destruct (queryWithRetry _ _ _); lia.
Qed.

Lemma job_step_fuel (j j' : General.Job) (w w' : World)
    (ch ch' : list (list ForeignKeySQL)) :
  General.job_step D schema ms j w ch = (Some j', w', ch') →
  (General.job_fuel ms j' < General.job_fuel ms j)%nat.
Proof.
  destruct j as [t | t rows | t rows | t rows scans tx count | t rows scans tx count
                 | t count | t count]; cbn [General.job_step General.job_fuel].
  - destruct (queryWithRetry _ _ _); intros [= <- _ _]; cbn [General.job_fuel]. lia.
  - intros [= <- _ _]. cbn [General.job_fuel]. lia.
  - destruct (General.exec D _ _) as [pg [e |]]; intros [= <- _ _].
    cbn [General.job_fuel]. lia.
  - destruct scans as [|[values |] rest].
    + intros [= <- _ _]. cbn [General.job_fuel]. unfold General.copy_fuel. simpl. lia.
    + destruct (Z.rem (count + 1) BatchSize =? 0); intros [= <- _ _];
        cbn [General.job_fuel]; unfold General.copy_fuel; cbn [length]; lia.
    + intros [= <- _ _]. cbn [General.job_fuel]. unfold General.copy_fuel. cbn [length]. lia.
  - intros [= <- _ _]. cbn [General.job_fuel]. lia.
  - intros [= <- _ _]. cbn [General.job_fuel]. lia.
  - intros [=].
Qed.

Lemma fuel_insert (W : gmap nat General.Job) (i : nat) (j : General.Job) :
  W !! i = None →
  sum_list ((λ ij, General.job_fuel ms ij.2) <$> map_to_list (<[i := j]> W))
  = (General.job_fuel ms j
     + sum_list ((λ ij, General.job_fuel ms ij.2) <$> map_to_list W))%nat.
Proof. intros H. by rewrite map_to_list_insert. Qed.

Lemma fuel_delete (W : gmap nat General.Job) (i : nat) (j : General.Job) :
  W !! i = Some j →
  sum_list ((λ ij, General.job_fuel ms ij.2) <$> map_to_list W)
  = (General.job_fuel ms j
     + sum_list ((λ ij, General.job_fuel ms ij.2) <$> map_to_list (delete i W)))%nat.
Proof. intros H. by rewrite <- (map_to_list_delete W i j H). Qed.

(** A worker that moves either has nothing to do, or brings the pool
    closer to its end. *)
Lemma pool_step_fuel (i : nat) (p : General.Pool) :
  Z.of_nat i < MaxWorkers →
  (General.workers p !! i = None ∧ General.queue p = []
   ∧ General.pool_step D schema ms i p = p)
  ∨ (pool_fuel ms (General.pool_step D schema ms i p) < pool_fuel ms p)%nat.
Proof.
  intros Hi. unfold General.pool_step. rewrite bool_decide_eq_true_2 by done.
  destruct (General.workers p !! i) as [j |] eqn:Hw.
  - right. destruct (General.job_step D schema ms j _ _) as [[j' w'] ch'] eqn:Hstep.
    unfold pool_fuel. cbn [General.workers General.queue].
    rewrite (fuel_delete _ i j Hw). destruct j' as [j' |].
    + rewrite <- (insert_delete_eq (General.workers p)).
      rewrite fuel_insert by apply lookup_delete_eq.
      pose proof (job_step_fuel _ _ _ _ _ _ Hstep). lia.
    + pose proof (job_fuel_pos j). lia.
  - destruct (General.queue p) as [|t rest] eqn:Hq; [by left | right].
    unfold pool_fuel. cbn [General.workers General.queue]. rewrite Hq.
    rewrite fuel_insert by done. unfold General.queue_fuel. cbn [fmap list_fmap].
    change (sum_list (?x :: ?l)) with (x + sum_list l)%nat. lia.
Qed.

Lemma pool_step_other (i i' : nat) (p : General.Pool) :
  i' ≠ i →
  General.workers (General.pool_step D schema ms i p) !! i' = General.workers p !! i'.
Proof.
  intros Hne. unfold General.pool_step. case_bool_decide; [| done].
  destruct (General.workers p !! i) as [j |].
  - destruct (General.job_step D schema ms j _ _) as [[[j' |] w'] ch'];
      cbn [General.workers]; [by rewrite lookup_insert_ne | by rewrite lookup_delete_ne].
  - destruct (General.queue p); [done |]. cbn [General.workers]. by rewrite lookup_insert_ne.
Qed.

Lemma pool_step_bounded (i : nat) (p : General.Pool) :
  (∀ i' j, General.workers p !! i' = Some j → Z.of_nat i' < MaxWorkers) →
  ∀ i' j, General.workers (General.pool_step D schema ms i p) !! i' = Some j →
          Z.of_nat i' < MaxWorkers.
Proof.
  intros Hb i' j. destruct (decide (i' = i)) as [-> | Hne].
  - unfold General.pool_step. case_bool_decide; [done | apply Hb].
  - rewrite pool_step_other by done. apply Hb.
Qed.

Lemma pool_run_idle (n i : nat) (p : General.Pool) :
  General.pool_step D schema ms i p = p →
  General.pool_run D schema ms (replicate n i) p = p.
Proof.
  intros Hsame. unfold General.pool_run.
  induction n as [|n IH]; cbn [replicate foldl]; [done | by rewrite Hsame].
Qed.

(** The moves of one worker under [wg.Wait()]. *)
Lemma pool_run_replicate (n i : nat) (p : General.Pool) :
  Z.of_nat i < MaxWorkers → (pool_fuel ms p ≤ n)%nat →
  let p' := General.pool_run D schema ms (replicate n i) p in
  General.workers p' !! i = None ∧ General.queue p' = []
  ∧ (pool_fuel ms p' ≤ pool_fuel ms p)%nat
  ∧ (∀ i', i' ≠ i → General.workers p' !! i' = General.workers p !! i').
Proof.
  intros Hi. revert p. induction n as [|n IH]; intros p Hfuel.
  - destruct (pool_step_fuel i p Hi) as [(Hw & Hq & _) | Hlt]; [done | lia].
  - destruct (pool_step_fuel i p Hi) as [(Hw & Hq & Hsame) | Hlt].
    + cbn zeta. by rewrite (pool_run_idle _ _ _ Hsame).
    + cbn [replicate]. unfold General.pool_run. cbn [foldl].
      fold (General.pool_run D schema ms (replicate n i)).
      destruct (IH (General.pool_step D schema ms i p)) as (H1 & H2 & H3 & H4); [lia |].
      split; [done |]. split; [done |]. split; [etrans; [exact H3 | lia] |].
      intros i' Hne. rewrite <- (pool_step_other i i' p Hne). by apply H4.
Qed.

Lemma pool_run_app (l1 l2 : list nat) (p : General.Pool) :
  General.pool_run D schema ms (l1 ++ l2) p
  = General.pool_run D schema ms l2 (General.pool_run D schema ms l1 p).
Proof. unfold General.pool_run. apply foldl_app. Qed.

Lemma pool_run_fuel (sched : list nat) (p : General.Pool) :
  (pool_fuel ms (General.pool_run D schema ms sched p) ≤ pool_fuel ms p)%nat.
Proof.
  revert p. induction sched as [|i sched IH]; intros p; [done |].
  unfold General.pool_run. cbn [foldl]. fold (General.pool_run D schema ms sched).
  etrans; [apply IH |]. destruct (decide (Z.of_nat i < MaxWorkers)) as [Hi | Hi].
  - destruct (pool_step_fuel i p Hi) as [(_ & _ & ->) | Hlt]; [done | lia].
  - unfold General.pool_step. by rewrite bool_decide_eq_false_2.
Qed.

Lemma pool_run_bounded (sched : list nat) (p : General.Pool) :
  (∀ i j, General.workers p !! i = Some j → Z.of_nat i < MaxWorkers) →
  ∀ i j, General.workers (General.pool_run D schema ms sched p) !! i = Some j →
         Z.of_nat i < MaxWorkers.
Proof.
  revert p. induction sched as [|i sched IH]; intros p Hb; [done |].
  unfold General.pool_run. cbn [foldl]. apply IH. by apply pool_step_bounded.
Qed.

(** The workers [a], [a + 1], ... under [wg.Wait()], when the workers
    before them have nothing left to do. *)
Lemma pool_run_wait (n len a : nat) (p : General.Pool) :
  (pool_fuel ms p ≤ n)%nat → Z.of_nat (a + len) ≤ MaxWorkers →
  (0 < a → General.queue p = [])%nat →
  (∀ i, (i < a)%nat → General.workers p !! i = None) →
  let p' := General.pool_run D schema ms (concat ((λ i, replicate n i) <$> seq a len)) p in
  (0 < a + len → General.queue p' = [])%nat
  ∧ ∀ i, (i < a + len)%nat → General.workers p' !! i = None.
Proof.
  revert a p. induction len as [|len IH]; intros a p Hfuel Ha Hq Hw; cbn [seq fmap list_fmap concat].
  - unfold General.pool_run. cbn [foldl]. rewrite Nat.add_0_r. done.
  - rewrite pool_run_app.
    destruct (pool_run_replicate n a p) as (H1 & H2 & H3 & H4); [lia | done |].
    destruct (IH (S a) (General.pool_run D schema ms (replicate n a) p)) as [H5 H6].
    + lia.
    + lia.
    + done.
    + intros i Hi. destruct (decide (i = a)) as [-> | Hne]; [done |].
      rewrite H4 by done. apply Hw. lia.
    + replace (a + S len)%nat with (S a + len)%nat by lia. split; [intros _; apply H5; lia | done].
Qed.

(** After [wg.Wait()] the queue is empty and no worker is inside a copy. *)
Lemma pool_finished (sched : list nat) (jobs : list string) (w : World) :
  let p := General.pool_run D schema ms
             (sched ++ General.wait_schedule (General.queue_fuel ms jobs))
             (General.mkPool jobs ∅ w []) in
  General.queue p = [] ∧ General.workers p = ∅.
Proof.
  intros p. unfold p. rewrite pool_run_app.
  set (p1 := General.pool_run D schema ms sched _).
  assert (pool_fuel ms p1 ≤ General.queue_fuel ms jobs)%nat as Hfuel.
  { etrans; [apply pool_run_fuel |]. unfold pool_fuel. cbn [General.workers General.queue].
    by rewrite map_to_list_empty. }
  assert (∀ i j, General.workers p1 !! i = Some j → Z.of_nat i < MaxWorkers) as Hb.
  { apply pool_run_bounded. intros i j H. cbn [General.workers] in H.
    by rewrite lookup_empty in H. }
  destruct (pool_run_wait (General.queue_fuel ms jobs) (Z.to_nat MaxWorkers) 0 p1)
    as [Hq Hw]; [done | done | lia | lia |].
  fold (General.wait_schedule (General.queue_fuel ms jobs)) in Hq, Hw.
  split; [apply Hq; vm_compute; lia |].
  apply map_eq. intros i. rewrite lookup_empty.
  destruct (General.workers _ !! i) as [j |] eqn:Hi; [| done].
  assert (Z.of_nat i < MaxWorkers) as Hlt.
  { revert Hi. apply pool_run_bounded. exact Hb. }
  rewrite Hw in Hi; [done |]. unfold MaxWorkers in *. lia.
Qed.

End PoolFuel.

(** ** One database and the whole run, with the pool *)

Lemma general_exec_accepting (D : General.FullEngine) (q : Stmt) (pg : PG) :
  General.drops_accepted D → General.exec D q pg = exec (General.statements D) q pg.
Proof. intros Hdrop. destruct q; try done. cbn [General.exec exec]. by rewrite Hdrop. Qed.

Lemma general_applyForeignKeys_target (D : General.FullEngine)
    (fkChan : list (list ForeignKeySQL)) (w : World) :
  General.drops_accepted D →
  target (General.applyForeignKeys D fkChan w)
  = applyT (General.statements D) (concat fkChan) (target w).
Proof.
  intros Hdrop. unfold General.applyForeignKeys, applyT.
  assert (∀ fks w0,
            target (foldl (λ w fk, on_target (λ pg, (General.exec D (SQL fk) pg).1) w) w0 fks)
            = foldl (λ pg fk, (exec (General.statements D) (SQL fk) pg).1) (target w0) fks)
    as H.
  { intros fks. induction fks as [|fk fks IH]; intros w0; cbn [foldl]; [done |].
    rewrite IH. cbn [on_target target]. by rewrite general_exec_accepting. }
  by rewrite H.
Qed.

(** With every DROP accepted and no table name twice in the queue, the
    target after the pool and the foreign-key phase is the target after the
    copies one after the other and the foreign-key phase, whatever the
    schedule. *)
Lemma general_processDatabase_target (D : General.FullEngine) (sched : list nat)
    (dbName : string) (ms : SourceDB) (w : World) :
  General.drops_accepted D →
  (∀ names, TableNames ms = Ok names → NoDup (listTables names)) →
  target (General.processDatabase D sched dbName ms w)
  = processT (General.statements D) dbName ms (target w).
Proof.
  intros Hdrop Hnd. unfold General.processDatabase. rewrite processT_unfold.
  rewrite !general_exec_accepting by done.
  set (w1 := match exec _ SetSynchronousCommitOff _ with
             | (_, Some e) => _ | (pg, None) => _ end).
  assert (target w1 = target w) as H1.
  { unfold w1. cbn [exec]. by destruct (set_err _). }
  set (w2 := match exec _ (CreateSchema dbName) (target w1) with
             | (_, Some e) => _ | (pg, None) => _ end).
  assert (target w2 = (exec (General.statements D) (CreateSchema dbName) (target w)).1) as H2.
  { unfold w2. rewrite H1. cbn [exec]. by destruct (schema_err _ dbName). }
  cbn zeta. destruct (OpenErr ms); [by rewrite logPrint_target |].
  destruct (TableNames ms) as [names | e]; [| by rewrite logPrint_target].
  set (w3 := logPrint _ w2).
  set (pg0 := (exec (General.statements D) (CreateSchema dbName) (target w)).1) in *.
  assert (target w3 = pg0) as H3 by done.
  set (p := General.pool_run D dbName ms _ _).
  destruct (pool_finished D dbName ms sched (listTables names) w3) as [Hq Hw].
  fold p in Hq, Hw.
  assert (pool_inv (General.statements D) dbName ms pg0 (listTables names) p) as Hinv.
  { apply pool_run_inv; [done | by apply Hnd |]. by apply pool_inv_init. }
  destruct (pool_inv_finished D dbName ms pg0 (listTables names) p Hinv Hq Hw)
    as [Hdone Hch].
  rewrite general_applyForeignKeys_target, logPrint_target by done.
  rewrite (copies_done_unique _ _ _ _ _ _ _ Hdone
             (workerT_copies_done (General.statements D) dbName ms (listTables names) []
                pg0 (Hnd names eq_refl))).
  rewrite workerT_fst. cbn [app]. by apply applyT_channel_permutation.
Qed.

Lemma general_foldl_target (D : General.FullEngine) (scheds : string → list nat)
    (sources : string → SourceDB) (dbs : list string) (w : World) :
  General.drops_accepted D → General.distinct_tables sources →
  target (foldl (λ w dbName,
                   General.processDatabase D (scheds dbName) dbName (sources dbName) w)
            w dbs)
  = runT (General.statements D) sources dbs (target w).
Proof.
  intros Hdrop Hnd. unfold runT. revert w.
  induction dbs as [|a dbs IH]; intros w; cbn [foldl]; [done |].
  rewrite IH, general_processDatabase_target; [done | done |]. apply Hnd.
Qed.

Lemma general_main_target (D : General.FullEngine) (scheds : string → list nat)
    (getenv : string → string) (sources : string → SourceDB) (w : World) :
  General.drops_accepted D → General.distinct_tables sources →
  target (General.main D scheds getenv sources w)
  = match missingEnv getenv with
    | [] => runT (General.statements D) sources SourceDBs (target w)
    | _ :: _ => target w
    end.
Proof.
  intros Hdrop Hnd. unfold General.main, missingEnv.
  destruct (filter _ _) as [|v vs]; [| by rewrite !logPrint_target].
  by rewrite logPrint_target, general_foldl_target, logPrint_target.
Qed.

(** ** Every copied table is rebuilt from the source *)

Lemma rebuilt_or_absent_body (E : Engine) (sources : string → SourceDB)
    (k : string * string) (pg pg' : PG) :
  body <$> tables pg' !! k = body <$> tables pg !! k →
  rebuilt_or_absent E sources k pg → rebuilt_or_absent E sources k pg'.
Proof.
  intros Hb (rows & Hq & H). exists rows. split; [done |].
  destruct H as [H | (t & H & Ht)]; rewrite H in Hb; cbn in Hb.
  - left. by destruct (tables pg' !! k).
  - right. destruct (tables pg' !! k) as [t' |]; [| done].
    injection Hb as Hb. exists t'. split; [done | congruence].
Qed.

Lemma migrated_body (E : Engine) (schema table : string) (ms : SourceDB) (pg : PG)
    (k : string * string) :
  k ≠ (schema, table) →
  body <$> tables (migrated E schema table ms pg) !! k = body <$> tables pg !! k.
Proof.
  intros Hne. rewrite migrated_lookup.
  destruct (queryWithRetry _ _ _) as [rows | e]; [| done].
  rewrite decide_False by done. by destruct (tables pg !! k).
Qed.

Lemma migrated_rebuilt (E : Engine) (sources : string → SourceDB) (schema table : string)
    (pg : PG) (k : string * string) :
  rebuilt_or_absent E sources k pg
  ∨ (k = (schema, table) ∧ opens (sources schema) table = true) →
  rebuilt_or_absent E sources k (migrated E schema table (sources schema) pg).
Proof.
  intros H. destruct (decide (k = (schema, table))) as [-> | Hne].
  - destruct (opens (sources schema) table) eqn:Ho.
    + unfold rebuilt_or_absent. cbn [fst snd]. rewrite migrated_lookup.
      unfold opens in Ho. destruct (queryWithRetry _ _ _) as [rows | e]; [| done].
      exists rows. split; [done |]. rewrite decide_True by done.
      destruct (creatable E schema table rows pg); [right | by left]. by eexists.
    + rewrite migrated_closed by done. by destruct H as [H | [_ H]].
  - destruct H as [H | [H _]]; [| done].
    eapply rebuilt_or_absent_body; [| exact H]. by apply migrated_body.
Qed.

Lemma copies_rebuilt (E : Engine) (sources : string → SourceDB) (schema : string)
    (jobs : list string) (pg : PG) (k : string * string) :
  rebuilt_or_absent E sources k pg ∨ k ∈ droppedOf schema (sources schema) jobs →
  rebuilt_or_absent E sources k
    (foldl (λ pg table, migrated E schema table (sources schema) pg) pg jobs).
Proof.
  revert pg. induction jobs as [|t jobs IH]; intros pg H; cbn [foldl].
  - destruct H as [H | H%not_elem_of_empty]; done.
  - apply IH. rewrite droppedOf_cons in H. unfold dropped1 in H.
    destruct H as [H | [H | H]%elem_of_union].
    + left. apply migrated_rebuilt. by left.
    + left. apply migrated_rebuilt. right.
      destruct (opens (sources schema) t); [| by apply not_elem_of_empty in H].
      by apply elem_of_singleton in H.
    + by right.
Qed.

Lemma processT_rebuilt (E : Engine) (sources : string → SourceDB) (dbName : string)
    (pg : PG) (k : string * string) :
  rebuilt_or_absent E sources k pg ∨ k ∈ droppedBy dbName (sources dbName) →
  rebuilt_or_absent E sources k (processT E dbName (sources dbName) pg).
Proof.
  rewrite processT_unfold, droppedBy_unfold. cbn zeta. intros H.
  assert (rebuilt_or_absent E sources k pg →
          rebuilt_or_absent E sources k (exec E (CreateSchema dbName) pg).1) as Hschema.
  { apply rebuilt_or_absent_body. by rewrite exec_schema_tables. }
  destruct (OpenErr (sources dbName)).
  { destruct H as [H | H%not_elem_of_empty]; [by apply Hschema | done]. }
  destruct (TableNames (sources dbName)) as [names | e].
  2: { destruct H as [H | H%not_elem_of_empty]; [by apply Hschema | done]. }
  eapply rebuilt_or_absent_body.
  - eapply applyT_body. apply workerT_fk_of.
  - rewrite workerT_snd. apply copies_rebuilt. destruct H as [H | H]; [left | by right].
    by apply Hschema.
Qed.

Lemma runT_rebuilt (E : Engine) (sources : string → SourceDB) (dbs : list string)
    (pg : PG) (k : string * string) :
  rebuilt_or_absent E sources k pg ∨ k ∈ droppedAll sources dbs →
  rebuilt_or_absent E sources k (runT E sources dbs pg).
Proof.
  revert pg. induction dbs as [|a dbs IH]; intros pg H.
  - destruct H as [H | H%not_elem_of_empty]; done.
  - rewrite runT_cons. apply IH. cbn [droppedAll] in H.
    destruct H as [H | [H | H]%elem_of_union].
    + left. apply processT_rebuilt. by left.
    + left. apply processT_rebuilt. by right.
    + by right.
Qed.

(** ** One copy, step by step and as a whole *)

Section JobRun.

Variable D : General.FullEngine.
Variable schema : string.
Variable ms : SourceDB.

Lemma job_run_returned (n : nat) (w : World) (ch : list (list ForeignKeySQL)) :
  General.job_run D schema ms n None w ch = (w, ch).
Proof. by destruct n. Qed.

Lemma job_run_copy (t : string) (rows : Cursor) (ch : list (list ForeignKeySQL))
    (scans : list (option (list Value))) (tx : Tx) (count : Z) (w : World) (n : nat) :
  (General.copy_fuel (length scans) ≤ n)%nat →
  General.job_run D schema ms n (Some (General.Copying t rows scans tx count)) w ch
  = let r := copyRows (General.statements D) schema t (ColumnTypes rows) scans tx count
               (target w) in
    let pkCols := getPrimaryKeyColumns ms t in
    let pg :=
      if (0 <? length pkCols)%nat
      then (General.exec D (AddPrimaryKey schema t (pkName schema t) pkCols) r.2).1
      else r.2 in
    let w := mkWorld pg (logs w) in
    let w :=
      if 0 <? r.1
      then logPrint ("[OK] " +:+ t +:+ ": " +:+ fmt_d r.1 +:+ " filas") w
      else w in
    (w, if (0 <? length (getForeignKeys ms schema t))%nat
        then ch ++ [getForeignKeys ms schema t] else ch).
Proof.
  unfold General.copy_fuel. revert tx count w n.
  induction scans as [|[values |] rest IH]; intros tx count w n Hn; cbn [length] in Hn.
  - destruct n as [|[|[|n]]]; try lia.
    cbn [General.job_run General.job_step copyRows fst snd].
    rewrite job_run_returned. unfold on_target. cbn [target logs].
    destruct (0 <? length (getPrimaryKeyColumns ms t))%nat; cbn [target logs];
      by destruct (0 <? count).
  - destruct n as [|n]; [lia |].
    cbn [General.job_run General.job_step copyRows].
    destruct (Z.rem (count + 1) BatchSize =? 0).
    + destruct n as [|n]; [lia |].
      cbn [General.job_run General.job_step]. rewrite IH by lia. done.
    + cbv beta iota zeta. rewrite IH by lia. done.
  - destruct n as [|n]; try lia.
    cbn [General.job_run General.job_step copyRows]. rewrite IH by lia. done.
Qed.

(** A worker that runs one copy from the source query to the return, with
    no other worker in between, does what one iteration of the loop of
    [worker] does: [migrateTable], then the send of a non-empty result. *)
Lemma job_run_migrateTable (t : string) (w : World) (ch : list (list ForeignKeySQL)) :
  General.job_run D schema ms (General.job_fuel ms (General.Querying t))
    (Some (General.Querying t)) w ch
  = ((General.migrateTable D schema t ms w).2,
     if (0 <? length (General.migrateTable D schema t ms w).1)%nat
     then ch ++ [(General.migrateTable D schema t ms w).1] else ch).
Proof.
  unfold General.migrateTable. cbn [General.job_fuel].
  destruct (queryWithRetry _ _ _) as [rows | e] eqn:Hq.
  - cbn [General.job_run General.job_step Nat.add]. rewrite Hq.
    cbn [General.job_run General.job_step].
    destruct (General.exec D (CreateTable _ _ _) _) as [pg [e |]];
      [by rewrite job_run_returned |].
    rewrite job_run_copy by done. cbn [target logs].
    destruct (copyRows _ _ _ _ _ _ _ _) as [count pg']. done.
  - cbn [General.job_run General.job_step]. by rewrite Hq.
Qed.

End JobRun.




(** The condition on the table names is needed.  When a source database
    lists the table [clientes] twice, two workers copy it at the same time:
    with the second DROP and CREATE after the first CREATE and before the
    inserts of the first worker, both workers insert into the table of the
    second, and the run leaves every row twice; a run after it, in which
    the two copies follow each other, leaves every row once. *)
Example rerun_differs_when_table_listed_twice :
  rowCount
    (target (General.main demoFull (λ _, [0; 1; 0; 1; 0; 0; 1; 1]%nat) (λ _, "x")
               (λ _, demoTwice) demoWorld))
    ("vin", "clientes") = 4%nat
  ∧ rowCount
      (target (General.main demoFull (λ _, []) (λ _, "x") (λ _, demoTwice)
                 (General.main demoFull (λ _, [0; 1; 0; 1; 0; 0; 1; 1]%nat) (λ _, "x")
                    (λ _, demoTwice) demoWorld)))
      ("vin", "clientes") = 2%nat.
Proof. split; vm_compute; reflexivity. Qed.
